(** * mcp-sql-paas-universal: connection pool and security manager

    A shallow embedding of [src/core/security.py] (query validation,
    identifier sanitising, masking of sensitive columns) and of
    [src/core/connection_pool.py] (the pool configuration and the
    connection pool manager), with the properties stated about them.

    Text.  A Python [str] is a Rocq [string].  The character tables
    below ([isdigit], [isspace], [lower_char], [upper_char], the regex
    classes) are Python's tables on the ASCII range; a character whose
    code is 128 or more is carried along as a caseless symbol that is
    neither a digit, a space nor a word character.  What is stated
    about text is therefore stated about the code on ASCII text. *)

From Stdlib Require Import String Ascii List ZArith Lia Bool Arith.
From Stdlib Require Import DecimalString.
Import ListNotations.
Open Scope string_scope.

(* ================================================================== *)
(** ** Python strings *)

Module Py.

Definition code (c : ascii) : nat := nat_of_ascii c.

Definition in_range (lo hi : nat) (c : ascii) : bool :=
  (lo <=? code c)%nat && (code c <=? hi)%nat.

(** [str.isdigit] on one character: ['0'..'9']. *)
Definition isdigit (c : ascii) : bool := in_range 48 57 c.

Definition isupper (c : ascii) : bool := in_range 65 90 c.
Definition islower (c : ascii) : bool := in_range 97 122 c.
Definition isalpha (c : ascii) : bool := isupper c || islower c.
Definition isalnum (c : ascii) : bool := isalpha c || isdigit c.

(** [str.isspace] on one character: TAB, LF, VT, FF, CR, the four
    separators FS, GS, RS, US, and the space. *)
Definition isspace (c : ascii) : bool := in_range 9 13 c || in_range 28 32 c.

Definition lower_char (c : ascii) : ascii :=
  if isupper c then ascii_of_nat (code c + 32) else c.

Definition upper_char (c : ascii) : ascii :=
  if islower c then ascii_of_nat (code c - 32) else c.

Fixpoint str_map (f : ascii -> ascii) (s : string) : string :=
  match s with
  | EmptyString => EmptyString
  | String c s' => String (f c) (str_map f s')
  end.

(** [s.lower()] and [s.upper()]. *)
Definition lower (s : string) : string := str_map lower_char s.
Definition upper (s : string) : string := str_map upper_char s.

(** [len(s)]. *)
Definition len (s : string) : Z := Z.of_nat (String.length s).

(** [needle in hay]: [needle] occurs in [hay] as a contiguous run. *)
Fixpoint contains (needle hay : string) : bool :=
  prefix needle hay ||
  match hay with
  | EmptyString => false
  | String _ hay' => contains needle hay'
  end.

(** [s.lstrip()], [s.rstrip()], [s.strip()] with no argument. *)
Fixpoint lstrip (s : string) : string :=
  match s with
  | EmptyString => EmptyString
  | String c s' => if isspace c then lstrip s' else s
  end.

Fixpoint rstrip (s : string) : string :=
  match s with
  | EmptyString => EmptyString
  | String c s' =>
      match rstrip s' with
      | EmptyString => if isspace c then EmptyString else String c EmptyString
      | r => String c r
      end
  end.

Definition strip (s : string) : string := rstrip (lstrip s).

(** The truth value of a string: non-empty. *)
Definition truthy (s : string) : bool :=
  match s with EmptyString => false | String _ _ => true end.

(** [s[:n]] for [n >= 0]. *)
Definition slice_to (n : nat) (s : string) : string := substring 0 n s.

(** [s[-n:]] for [n > 0]: the last [n] characters, the whole string
    when it is shorter. *)
Definition slice_last (n : nat) (s : string) : string :=
  substring (String.length s - n) n s.

(** [c * n] for a one-character string [c]. *)
Fixpoint str_mul (c : ascii) (n : nat) : string :=
  match n with
  | O => EmptyString
  | S n' => String c (str_mul c n')
  end.

(** [str(n)] for an integer. *)
Definition str_of_int (n : Z) : string := NilZero.string_of_int (Z.to_int n).

(** [s.startswith(p)]. *)
Definition startswith (p s : string) : bool := prefix p s.

(** [sep.join(parts)]. *)
Fixpoint join (sep : string) (parts : list string) : string :=
  match parts with
  | [] => EmptyString
  | [x] => x
  | x :: parts' => x ++ sep ++ join sep parts'
  end.

End Py.

(* ================================================================== *)
(** ** The regular expressions of the security manager

    Only the constructs that occur in [WRITE_PATTERNS],
    [INJECTION_PATTERNS] and the blocked-table pattern are modelled:
    literal characters, the classes [\s] and [\w], the anchor [\b],
    concatenation, alternation, an optional group, and [*] and [+]
    applied to a single character or class.  Every pattern is compiled
    with [re.IGNORECASE], so a literal matches in either case. *)

Module Re.

Inductive atom : Type :=
| ALit (c : ascii)      (* a literal character, case-insensitive *)
| ASpace                (* \s *)
| AWord.                (* \w *)

Inductive regex : Type :=
| Eps
| Chr (a : atom)
| Seq (r1 r2 : regex)
| Alt (r1 r2 : regex)
| Opt (r : regex)        (* (r)? *)
| Star (a : atom)        (* a*  *)
| Plus (a : atom)        (* a+  *)
| WordB.                 (* \b  *)

Definition is_word (c : ascii) : bool :=
  Py.isalnum c || Ascii.eqb c "_".

Definition atom_ok (a : atom) (c : ascii) : bool :=
  match a with
  | ALit x => Ascii.eqb (Py.lower_char x) (Py.lower_char c)
  | ASpace => Py.isspace c
  | AWord => is_word c
  end.

Definition word_opt (o : option ascii) : bool :=
  match o with Some c => is_word c | None => false end.

Definition head (s : string) : option ascii :=
  match s with EmptyString => None | String c _ => Some c end.

(** [\b]: exactly one of the two neighbouring positions holds a word
    character (the outside of the text counts as a non-word). *)
Definition at_boundary (prev : option ascii) (s : string) : bool :=
  xorb (word_opt prev) (word_opt (head s)).

(** The matcher takes the character before the current position (for
    [\b]), the rest of the text, and a continuation for what follows. *)
Definition cont : Type := option ascii -> string -> bool.

Fixpoint match_star (a : atom) (prev : option ascii) (s : string) (k : cont)
  : bool :=
  k prev s ||
  match s with
  | EmptyString => false
  | String c s' => atom_ok a c && match_star a (Some c) s' k
  end.

Fixpoint match_re (r : regex) (prev : option ascii) (s : string) (k : cont)
  : bool :=
  match r with
  | Eps => k prev s
  | Chr a =>
      match s with
      | EmptyString => false
      | String c s' => atom_ok a c && k (Some c) s'
      end
  | Seq r1 r2 => match_re r1 prev s (fun p' s' => match_re r2 p' s' k)
  | Alt r1 r2 => match_re r1 prev s k || match_re r2 prev s k
  | Opt r1 => match_re r1 prev s k || k prev s
  | Star a => match_star a prev s k
  | Plus a =>
      match s with
      | EmptyString => false
      | String c s' => atom_ok a c && match_star a (Some c) s' k
      end
  | WordB => at_boundary prev s && k prev s
  end.

Fixpoint search_from (r : regex) (prev : option ascii) (s : string) : bool :=
  match_re r prev s (fun _ _ => true) ||
  match s with
  | EmptyString => false
  | String c s' => search_from r (Some c) s'
  end.

(** [pattern.search(text)] as a truth value: some position of [text]
    starts a match. *)
Definition search (r : regex) (text : string) : bool :=
  search_from r None text.

(** A run of literal characters; also [re.escape(s)]. *)
Fixpoint lit (s : string) : regex :=
  match s with
  | EmptyString => Eps
  | String c s' => Seq (Chr (ALit c)) (lit s')
  end.

Fixpoint seq (rs : list regex) : regex :=
  match rs with
  | [] => Eps
  | r :: rs' => Seq r (seq rs')
  end.

Fixpoint alt (rs : list regex) : regex :=
  match rs with
  | [] => Eps
  | [r] => r
  | r :: rs' => Alt r (alt rs')
  end.

End Re.

(* ================================================================== *)
(** ** security.py *)

Module Security.
Import Py Re.

Record SecurityConfig : Type := {
  read_only : bool;
  allow_ddl : bool;
  allow_dml : bool;
  blocked_keywords : list string;
  allowed_schemas : option (list string);
  blocked_tables : list string;
  sensitive_columns : list string;
  max_query_length : Z;
  max_rows_returned : Z
}.

(** [SecurityConfig(read_only=ro)]: every other field at its default. *)
Definition default_config (ro : bool) : SecurityConfig := {|
  read_only := ro;
  allow_ddl := false;
  allow_dml := false;
  blocked_keywords :=
    ["DROP"; "DELETE"; "UPDATE"; "INSERT"; "ALTER"; "CREATE";
     "TRUNCATE"; "GRANT"; "REVOKE"; "EXEC"; "EXECUTE";
     "xp_"; "sp_"; "--"; ";--"; "/*"; "*/"];
  allowed_schemas := None;
  blocked_tables := [];
  sensitive_columns :=
    ["password"; "pwd"; "secret"; "token"; "api_key";
     "ssn"; "social_security"; "credit_card"; "card_number"];
  max_query_length := 10000;
  max_rows_returned := 10000
|}.

Definition ddl_object : regex :=
  alt [lit "TABLE"; lit "DATABASE"; lit "INDEX"; lit "VIEW"; lit "SCHEMA"].

Definition WRITE_PATTERNS : list regex := [
  (* \bINSERT\s+INTO\b *)
  seq [WordB; lit "INSERT"; Plus ASpace; lit "INTO"; WordB];
  (* \bUPDATE\s+\w+\s+SET\b *)
  seq [WordB; lit "UPDATE"; Plus ASpace; Plus AWord; Plus ASpace;
       lit "SET"; WordB];
  (* \bDELETE\s+FROM\b *)
  seq [WordB; lit "DELETE"; Plus ASpace; lit "FROM"; WordB];
  (* \bDROP\s+(TABLE|DATABASE|INDEX|VIEW|SCHEMA)\b *)
  seq [WordB; lit "DROP"; Plus ASpace; ddl_object; WordB];
  (* \bTRUNCATE\s+TABLE\b *)
  seq [WordB; lit "TRUNCATE"; Plus ASpace; lit "TABLE"; WordB];
  (* \bALTER\s+(TABLE|DATABASE|INDEX|VIEW|SCHEMA)\b *)
  seq [WordB; lit "ALTER"; Plus ASpace; ddl_object; WordB];
  (* \bCREATE\s+(TABLE|DATABASE|INDEX|VIEW|SCHEMA)\b *)
  seq [WordB; lit "CREATE"; Plus ASpace; ddl_object; WordB];
  (* \bGRANT\b *)
  seq [WordB; lit "GRANT"; WordB];
  (* \bREVOKE\b *)
  seq [WordB; lit "REVOKE"; WordB];
  (* \bEXEC(UTE)?\s+ *)
  seq [WordB; lit "EXEC"; Opt (lit "UTE"); Plus ASpace]
].

Definition INJECTION_PATTERNS : list regex := [
  (* ;\s*-- *)
  seq [lit ";"; Star ASpace; lit "--"];
  (* '\s*OR\s+' *)
  seq [lit "'"; Star ASpace; lit "OR"; Plus ASpace; lit "'"];
  (* '\s*OR\s+1\s*=\s*1 *)
  seq [lit "'"; Star ASpace; lit "OR"; Plus ASpace; lit "1"; Star ASpace;
       lit "="; Star ASpace; lit "1"];
  (* UNION\s+SELECT *)
  seq [lit "UNION"; Plus ASpace; lit "SELECT"];
  (* INTO\s+OUTFILE *)
  seq [lit "INTO"; Plus ASpace; lit "OUTFILE"];
  (* LOAD_FILE *)
  lit "LOAD_FILE";
  (* BENCHMARK\s*\( *)
  seq [lit "BENCHMARK"; Star ASpace; lit "("];
  (* SLEEP\s*\( *)
  seq [lit "SLEEP"; Star ASpace; lit "("];
  (* WAITFOR\s+DELAY *)
  seq [lit "WAITFOR"; Plus ASpace; lit "DELAY"];
  (* xp_cmdshell *)
  lit "xp_cmdshell";
  (* sp_executesql *)
  lit "sp_executesql"
].

(** [rf"\b{re.escape(table)}\b"]. *)
Definition table_pattern (table : string) : regex :=
  seq [WordB; lit table; WordB].

(** Why a query was turned down; [error_message] renders the text that
    [validate_query] returns with it. *)
Inductive rejection : Type :=
| EmptyQuery
| QueryTooLong (limit : Z)
| WriteInReadOnly
| DangerousPattern
| BlockedKeywordFound (keyword : string)
| BlockedTableFound (table : string).

Definition error_message (e : rejection) : string :=
  match e with
  | EmptyQuery => "Empty query provided"
  | QueryTooLong limit =>
      "Query exceeds maximum length of " ++ str_of_int limit
  | WriteInReadOnly => "Write operations are not allowed in read-only mode"
  | DangerousPattern => "Query contains potentially dangerous patterns"
  | BlockedKeywordFound keyword =>
      "Query contains blocked keyword: " ++ keyword
  | BlockedTableFound table =>
      "Access to table '" ++ table ++ "' is not allowed"
  end.

(** The body of [validate_query], one early [return] after the other;
    [None] stands for reaching the final [return True, None]. *)
Definition validate_query_check (config : SecurityConfig) (query : string)
  : option rejection :=
  if negb (truthy query) || negb (truthy (strip query)) then
    Some EmptyQuery
  else if (len query >? max_query_length config)%Z then
    Some (QueryTooLong (max_query_length config))
  else if read_only config
          && existsb (fun pattern => search pattern query) WRITE_PATTERNS then
    Some WriteInReadOnly
  else if existsb (fun pattern => search pattern query) INJECTION_PATTERNS then
    Some DangerousPattern
  else
    let query_upper := upper query in
    match find (fun keyword => contains (upper keyword) query_upper)
               (blocked_keywords config) with
    | Some keyword => Some (BlockedKeywordFound keyword)
    | None =>
        match find (fun table => search (table_pattern table) query)
                   (blocked_tables config) with
        | Some table => Some (BlockedTableFound table)
        | None => None
        end
    end.

(** [validate_query]: the pair [(is_valid, error_message)]. *)
Definition validate_query (config : SecurityConfig) (query : string)
  : bool * option string :=
  match validate_query_check config query with
  | None => (true, None)
  | Some e => (false, Some (error_message e))
  end.

(** The characters that [re.sub(r'[^a-zA-Z0-9_.]', '', ...)] keeps. *)
Definition ident_char (c : ascii) : bool :=
  islower c || isupper c || isdigit c || Ascii.eqb c "_" || Ascii.eqb c ".".

(** [re.sub(cls, '', s)] for a one-character class: every character of
    the class is deleted. *)
Fixpoint re_sub_delete (cls : ascii -> bool) (s : string) : string :=
  match s with
  | EmptyString => EmptyString
  | String c s' =>
      if cls c then re_sub_delete cls s' else String c (re_sub_delete cls s')
  end.

Definition sanitize_identifier (identifier : string) : string :=
  let sanitized := re_sub_delete (fun c => negb (ident_char c)) identifier in
  match sanitized with
  | String c0 _ =>
      if isdigit c0 then String "_" sanitized else sanitized
  | EmptyString => sanitized
  end.

(** A value of a result row ([Any]): [None], a string, or something
    else (an integer, a boolean, an opaque object). *)
Inductive pyval : Type :=
| VNone
| VStr (s : string)
| VInt (n : Z)
| VBool (b : bool)
| VObj (id : nat).

Definition is_none (v : pyval) : bool :=
  match v with VNone => true | _ => false end.

(** A [dict] with string keys, in insertion order. *)
Definition dict : Type := list (string * pyval).

(** [d[k] = v]: an existing key keeps its place and gets the new value,
    a new key goes to the end. *)
Fixpoint dict_set (k : string) (v : pyval) (d : dict) : dict :=
  match d with
  | [] => [(k, v)]
  | (k', v') :: d' =>
      if String.eqb k' k then (k', v) :: d' else (k', v') :: dict_set k v d'
  end.

(** One turn of the loop of [mask_sensitive_data]. *)
Definition mask_item (sensitive_cols : list string) (masked : dict)
  (item : string * pyval) : dict :=
  let (key, value) := item in
  let key_lower := lower key in
  let should_mask :=
    existsb (fun sensitive => contains sensitive key_lower) sensitive_cols in
  if should_mask && negb (is_none value) then
    match value with
    | VStr s =>
        if (len s >? 4)%Z then
          dict_set key
            (VStr (slice_to 2 s ++ str_mul "*" (String.length s - 4)
                   ++ slice_last 2 s))
            masked
        else
          dict_set key (VStr "****") masked
    | _ => dict_set key (VStr "****") masked
    end
  else
    dict_set key value masked.

(** [mask_sensitive_data(data, columns)]; [columns] is not used by the
    body.  [sensitive_cols] is a set in the source; it is only tested
    with [any], so its order and duplicates do not matter. *)
Definition mask_sensitive_data (config : SecurityConfig) (data : dict)
  (columns : option (list string)) : dict :=
  let sensitive_cols := map lower (sensitive_columns config) in
  fold_left (mask_item sensitive_cols) data [].

(** [d.get(k)]: the value stored under [k], if any. *)
Fixpoint dict_get (k : string) (d : dict) : option pyval :=
  match d with
  | [] => None
  | (k', v) :: d' => if String.eqb k' k then Some v else dict_get k d'
  end.

(** [x in l] for a list of strings. *)
Definition str_in (x : string) (l : list string) : bool :=
  existsb (fun y => String.eqb x y) l.

Definition check_schema_access (config : SecurityConfig) (schema : string)
  : bool :=
  match allowed_schemas config with
  | None => true
  | Some schemas => str_in (lower schema) (map lower schemas)
  end.

Definition get_query_type (query : string) : string :=
  let query_stripped := upper (strip query) in
  if startswith "SELECT" query_stripped then "SELECT"
  else if startswith "INSERT" query_stripped then "INSERT"
  else if startswith "UPDATE" query_stripped then "UPDATE"
  else if startswith "DELETE" query_stripped then "DELETE"
  else if existsb (fun ddl => startswith ddl query_stripped)
            ["CREATE"; "ALTER"; "DROP"; "TRUNCATE"] then "DDL"
  else "OTHER".

(** [create_audit_record].  The digest and the clock come from the
    standard library: [sha256_hex q] stands for
    [hashlib.sha256(q.encode()).hexdigest()] and [timestamp] for
    [datetime.utcnow().isoformat()]. *)
Definition create_audit_record (sha256_hex : string -> string)
  (timestamp : string) (query : string) (user : option string)
  (success : bool) (error : option string) (rows_affected : Z) : dict :=
  let query_hash := slice_to 16 (sha256_hex query) in
  [ ("timestamp", VStr timestamp);
    ("user", VStr match user with
                  | Some u => if truthy u then u else "unknown"
                  | None => "unknown"
                  end);
    ("query_hash", VStr query_hash);
    ("query_type", VStr (get_query_type query));
    ("query_preview",
     VStr (if (len query >? 100)%Z then slice_to 100 query ++ "..."
           else query));
    ("success", VBool success);
    ("error", match error with Some e => VStr e | None => VNone end);
    ("rows_affected", VInt rows_affected) ].

(** *** QueryBuilder *)

(** [f"{safe_schema}.{safe_table}"] when [schema] is given and not
    empty, the bare table otherwise. *)
Definition full_table_name (table : string) (schema : option string)
  : string :=
  let safe_table := sanitize_identifier table in
  match schema with
  | Some sch =>
      if truthy sch then sanitize_identifier sch ++ "." ++ safe_table
      else safe_table
  | None => safe_table
  end.

(** The [if where:] block shared by [build_select] and [build_count]:
    the text added to the query and the parameters. *)
Definition where_clause (where_ : option dict) : string * list pyval :=
  match where_ with
  | Some (item :: items) =>
      let conditions :=
        map (fun cv : string * pyval =>
               sanitize_identifier (fst cv) ++ " = ?") (item :: items) in
      (" WHERE " ++ join " AND " conditions, map snd (item :: items))
  | _ => (EmptyString, [])
  end.

Definition build_select (table : string) (columns : option (list string))
  (where_ : option dict) (order_by : option (list string)) (limit : Z)
  (schema : option string) : string * list pyval :=
  let full_table := full_table_name table schema in
  let col_str :=
    match columns with
    | Some (c :: cs) => join ", " (map sanitize_identifier (c :: cs))
    | _ => "*"
    end in
  let query := "SELECT " ++ col_str ++ " FROM " ++ full_table in
  let (clause, params) := where_clause where_ in
  let query := query ++ clause in
  let query :=
    match order_by with
    | Some (o :: os) =>
        query ++ " ORDER BY " ++ join ", " (map sanitize_identifier (o :: os))
    | _ => query
    end in
  (query ++ " LIMIT " ++ str_of_int limit, params).

Definition build_count (table : string) (where_ : option dict)
  (schema : option string) : string * list pyval :=
  let full_table := full_table_name table schema in
  let query := "SELECT COUNT(*) as row_count FROM " ++ full_table in
  let (clause, params) := where_clause where_ in
  (query ++ clause, params).

End Security.


(* ================================================================== *)
(** ** connection_pool.py

    The pool manager is stateful and its factory methods are abstract,
    so the model is a state-and-exception monad over a [World] that
    holds the manager's attributes, the backend as the factory sees it,
    and the wrappers held by callers inside [async with pool.acquire()].
    Operations run one after the other: a wait that nothing in the run
    can end is the outcome [Block].  Of the logger only what decides
    the control flow is modelled: whether it is enabled for INFO, since
    the two [info] calls of [initialize] pass keyword arguments that
    [logging.Logger] does not take.  The records themselves are not
    modelled. *)

Module Pool.

Record PoolConfig : Type := {
  min_size : Z;
  max_size : Z;
  max_idle_time_seconds : Z;
  connection_timeout_seconds : Z;
  health_check_interval_seconds : Z;
  recycle_connections_seconds : Z
}.

(** [PoolConfig(min_size=..., ...)]: the two [Field] bounds are the
    whole validation ([min_size]: ge=1, le=10; [max_size]: ge=1,
    le=50); [None] stands for pydantic's [ValidationError]. *)
Definition PoolConfig_init
  (min_size max_size max_idle_time_seconds connection_timeout_seconds
   health_check_interval_seconds recycle_connections_seconds : Z)
  : option PoolConfig :=
  if ((1 <=? min_size) && (min_size <=? 10)
      && (1 <=? max_size) && (max_size <=? 50))%Z
  then Some {| min_size := min_size;
               max_size := max_size;
               max_idle_time_seconds := max_idle_time_seconds;
               connection_timeout_seconds := connection_timeout_seconds;
               health_check_interval_seconds := health_check_interval_seconds;
               recycle_connections_seconds := recycle_connections_seconds |}
  else None.

(** [PoolConfig(min_size=a, max_size=b)], the other fields at their
    defaults. *)
Definition PoolConfig_sized (a b : Z) : option PoolConfig :=
  PoolConfig_init a b 300 30 60 3600.

(** A connection handle: the factory numbers the connections it makes. *)
Definition conn : Type := nat.

Record PooledConnection : Type := {
  connection : conn;
  created_at : Z;
  last_used_at : Z;
  use_count : Z;
  is_healthy : bool
}.

(** [PooledConnection(connection=c, created_at=t1, last_used_at=t2)]. *)
Definition new_pooled (c : conn) (t1 t2 : Z) : PooledConnection :=
  {| connection := c; created_at := t1; last_used_at := t2;
     use_count := 0; is_healthy := true |}.

Inductive task : Type := TaskRunning | TaskCancelled.

Record World : Type := {
  (* the manager *)
  config : PoolConfig;
  _pool : list PooledConnection;  (* asyncio.Queue(maxsize=max_size), oldest first *)
  _active_connections : Z;
  _health_check_task : option task;
  info_enabled : bool;            (* self.logger.isEnabledFor(logging.INFO) *)
  (* the backend *)
  opened : list conn;             (* created and not closed since *)
  closed : list conn;             (* every call of _close_connection, latest first *)
  next_conn : conn;
  create_script : list bool;      (* coming _create_connection calls: false raises *)
  health_script : list bool;      (* coming _is_connection_healthy results *)
  clock : Z;                      (* datetime.utcnow(), in seconds *)
  (* the callers *)
  checked_out : list PooledConnection  (* [pooled] of each suspended acquire() *)
}.

(** [ConnectionPoolManager(config)] in front of a backend that answers
    by the two scripts (a call past the end of a script succeeds,
    respectively finds the connection healthy).  [self.logger] is
    [logging.getLogger(__name__)]: in a process that has not configured
    logging it inherits the root logger's WARNING and is not enabled
    for INFO. *)
Definition new_manager (cfg : PoolConfig) (creates healths : list bool)
  (now : Z) : World :=
  {| config := cfg; _pool := []; _active_connections := 0;
     _health_check_task := None; info_enabled := false;
     opened := []; closed := []; next_conn := O;
     create_script := creates; health_script := healths; clock := now;
     checked_out := [] |}.

Definition set_pool (q : list PooledConnection) (w : World) : World :=
  {| config := config w; _pool := q;
     _active_connections := _active_connections w;
     _health_check_task := _health_check_task w;
     info_enabled := info_enabled w;
     opened := opened w; closed := closed w; next_conn := next_conn w;
     create_script := create_script w; health_script := health_script w;
     clock := clock w; checked_out := checked_out w |}.

Definition set_active (n : Z) (w : World) : World :=
  {| config := config w; _pool := _pool w;
     _active_connections := n;
     _health_check_task := _health_check_task w;
     info_enabled := info_enabled w;
     opened := opened w; closed := closed w; next_conn := next_conn w;
     create_script := create_script w; health_script := health_script w;
     clock := clock w; checked_out := checked_out w |}.

Definition set_task (t : option task) (w : World) : World :=
  {| config := config w; _pool := _pool w;
     _active_connections := _active_connections w;
     _health_check_task := t;
     info_enabled := info_enabled w;
     opened := opened w; closed := closed w; next_conn := next_conn w;
     create_script := create_script w; health_script := health_script w;
     clock := clock w; checked_out := checked_out w |}.

Definition set_backend (o c : list conn) (n : conn) (cs hs : list bool)
  (w : World) : World :=
  {| config := config w; _pool := _pool w;
     _active_connections := _active_connections w;
     _health_check_task := _health_check_task w;
     info_enabled := info_enabled w;
     opened := o; closed := c; next_conn := n;
     create_script := cs; health_script := hs;
     clock := clock w; checked_out := checked_out w |}.

Definition set_clock (t : Z) (w : World) : World :=
  {| config := config w; _pool := _pool w;
     _active_connections := _active_connections w;
     _health_check_task := _health_check_task w;
     info_enabled := info_enabled w;
     opened := opened w; closed := closed w; next_conn := next_conn w;
     create_script := create_script w; health_script := health_script w;
     clock := t; checked_out := checked_out w |}.

Definition set_checked_out (l : list PooledConnection) (w : World) : World :=
  {| config := config w; _pool := _pool w;
     _active_connections := _active_connections w;
     _health_check_task := _health_check_task w;
     info_enabled := info_enabled w;
     opened := opened w; closed := closed w; next_conn := next_conn w;
     create_script := create_script w; health_script := health_script w;
     clock := clock w; checked_out := l |}.

(** The same manager in a process whose logging configuration lets
    INFO records of [self.logger] through ([true]) or not. *)
Definition set_logging (info : bool) (w : World) : World :=
  {| config := config w; _pool := _pool w;
     _active_connections := _active_connections w;
     _health_check_task := _health_check_task w;
     info_enabled := info;
     opened := opened w; closed := closed w; next_conn := next_conn w;
     create_script := create_script w; health_script := health_script w;
     clock := clock w; checked_out := checked_out w |}.

(** *** The monad *)

Inductive exn : Type :=
| ConnectError          (* what _create_connection raises *)
| WaitTimeout           (* asyncio.TimeoutError out of wait_for *)
| PoolExhausted         (* TimeoutError("Connection pool exhausted") *)
| QueueFull
| QueueEmpty
| AttributeError        (* an attribute of None *)
| TypeError.            (* Logger._log() got an unexpected keyword argument *)

Inductive outcome (S A : Type) : Type :=
| Ret (a : A) (s : S)
| Raise (e : exn) (s : S)
| Block (s : S).
Arguments Ret {S A} a s.
Arguments Raise {S A} e s.
Arguments Block {S A} s.

Definition M (S A : Type) : Type := S -> outcome S A.

Definition ret {S A} (a : A) : M S A := fun s => Ret a s.

Definition bind {S A B} (m : M S A) (f : A -> M S B) : M S B :=
  fun s =>
    match m s with
    | Ret a s' => f a s'
    | Raise e s' => Raise e s'
    | Block s' => Block s'
    end.

Definition raise {S A} (e : exn) : M S A := fun s => Raise e s.
Definition block {S A} : M S A := fun s => Block s.
Definition gets {S A} (f : S -> A) : M S A := fun s => Ret (f s) s.
Definition modify {S} (f : S -> S) : M S unit := fun s => Ret tt (f s).

(** [try: m except e: h e]; [h] answers [None] for an exception that
    the [except] clause does not name. *)
Definition try_except {S A} (m : M S A) (h : exn -> option (M S A)) : M S A :=
  fun s =>
    match m s with
    | Raise e s' =>
        match h e with
        | Some handler => handler s'
        | None => Raise e s'
        end
    | r => r
    end.

(** [try: m finally: fin]. *)
Definition try_finally {S A} (m : M S A) (fin : M S unit) : M S A :=
  fun s =>
    match m s with
    | Ret a s' =>
        match fin s' with
        | Ret _ s'' => Ret a s''
        | Raise e s'' => Raise e s''
        | Block s'' => Block s''
        end
    | Raise e s' =>
        match fin s' with
        | Ret _ s'' => Raise e s''
        | Raise e' s'' => Raise e' s''
        | Block s'' => Block s''
        end
    | Block s' => Block s'
    end.

Declare Scope pool_scope.
Delimit Scope pool_scope with pool.
Notation "x <- m ;; k" := (bind m (fun x => k))
  (at level 61, m at next level, right associativity) : pool_scope.
Notation "m ;;; k" := (bind m (fun _ => k))
  (at level 61, right associativity) : pool_scope.
Open Scope pool_scope.
Open Scope Z_scope.

(** *** The factory and the clock *)

Definition remove_conn (c : conn) (l : list conn) : list conn :=
  filter (fun x => negb (Nat.eqb x c)) l.

Definition _create_connection : M World conn :=
  fun w =>
    let rest := tl (create_script w) in
    match create_script w with
    | false :: _ =>
        Raise ConnectError
          (set_backend (opened w) (closed w) (next_conn w) rest
             (health_script w) w)
    | _ =>
        let c := next_conn w in
        Ret c (set_backend (c :: opened w) (closed w) (S c) rest
                 (health_script w) w)
    end.

Definition _close_connection (c : conn) : M World unit :=
  modify (fun w =>
    set_backend (remove_conn c (opened w)) (c :: closed w) (next_conn w)
      (create_script w) (health_script w) w).

Definition _is_connection_healthy (c : conn) : M World bool :=
  fun w =>
    let w' := set_backend (opened w) (closed w) (next_conn w)
                (create_script w) (tl (health_script w)) w in
    match health_script w with
    | false :: _ => Ret false w'
    | _ => Ret true w'
    end.

Definition utcnow : M World Z := gets clock.

(** *** The queue [self._pool] *)

Definition qsize (w : World) : Z := Z.of_nat (length (_pool w)).

(** [Queue.full()]: never full when [maxsize <= 0]. *)
Definition qfull (w : World) : bool :=
  if max_size (config w) <=? 0 then false
  else max_size (config w) <=? qsize w.

(** [await self._pool.put(p)]: waits while the queue is full. *)
Definition queue_put (p : PooledConnection) : M World unit :=
  fun w => if qfull w then Block w
           else Ret tt (set_pool (_pool w ++ [p]) w).

Definition queue_put_nowait (p : PooledConnection) : M World unit :=
  fun w => if qfull w then Raise QueueFull w
           else Ret tt (set_pool (_pool w ++ [p]) w).

Definition queue_get_nowait : M World PooledConnection :=
  fun w =>
    match _pool w with
    | [] => Raise QueueEmpty w
    | p :: q => Ret p (set_pool q w)
    end.

(** [await asyncio.wait_for(self._pool.get(), timeout=t)]: the oldest
    idle wrapper; with nothing idle, or with [t <= 0] (the wait is
    cancelled before it starts), [asyncio.TimeoutError]. *)
Definition queue_get_wait_for (t : Z) : M World PooledConnection :=
  fun w =>
    if t <=? 0 then Raise WaitTimeout w
    else match _pool w with
         | [] => Raise WaitTimeout w
         | p :: q => Ret p (set_pool q w)
         end.

(** *** The manager's methods *)

Definition incr_active (d : Z) : M World unit :=
  modify (fun w => set_active (_active_connections w + d) w).

(** The body of the loop of [initialize]. *)
Definition initialize_step : M World unit :=
  c <- _create_connection ;;
  t1 <- utcnow ;;
  t2 <- utcnow ;;
  queue_put (new_pooled c t1 t2) ;;;
  incr_active 1.

(** [for _ in range(n): ...]. *)
Fixpoint for_range {S} (n : nat) (body : M S unit) : M S unit :=
  match n with
  | O => ret tt
  | Datatypes.S n' => body ;;; for_range n' body
  end.

(** [self.logger.info(msg, key=value, ...)] on the [logging.Logger] of
    the manager: [Logger.info] hands its keyword arguments to
    [Logger._log], which knows none of the names used here, so the call
    raises [TypeError] when the logger is enabled for INFO; when it is
    not, the call returns before it looks at them. *)
Definition logger_info_kwargs : M World unit :=
  fun w => if info_enabled w then Raise TypeError w else Ret tt w.

Definition initialize : M World unit :=
  (* self.logger.info("Initializing connection pool", min_size=..., max_size=...) *)
  logger_info_kwargs ;;;
  cfg <- gets config ;;
  for_range (Z.to_nat (min_size cfg)) initialize_step ;;;
  (* asyncio.create_task(self._health_check_loop()) *)
  modify (set_task (Some TaskRunning)) ;;;
  (* self.logger.info("Connection pool initialized", active_connections=...) *)
  logger_info_kwargs.

(** The [while not self._pool.empty()] loop of [close]; every turn
    takes one wrapper out, so [qsize] turns are enough fuel. *)
Fixpoint close_loop (fuel : nat) : M World unit :=
  match fuel with
  | O => ret tt
  | Datatypes.S fuel' =>
      n <- gets qsize ;;
      if n =? 0 then ret tt
      else
        try_except
          (pooled <- queue_get_nowait ;;
           _close_connection (connection pooled) ;;;
           close_loop fuel')
          (fun e => match e with QueueEmpty => Some (ret tt) | _ => None end)
  end.

Definition close : M World unit :=
  t <- gets _health_check_task ;;
  match t with
  | Some _ => modify (set_task (Some TaskCancelled))
  | None => ret tt
  end ;;;
  n <- gets qsize ;;
  close_loop (Z.to_nat n) ;;;
  modify (set_active 0).

Definition _should_recycle (pooled : PooledConnection) : M World bool :=
  now <- utcnow ;;
  cfg <- gets config ;;
  let age := now - created_at pooled in
  ret (age >? recycle_connections_seconds cfg).

(** The frame of one call of [acquire]: the world and the local
    variable [pooled]. *)
Record Frame : Type := {
  world : World;
  pooled : option PooledConnection
}.

Definition lift {A} (m : M World A) : M Frame A :=
  fun f =>
    match m (world f) with
    | Ret a w => Ret a {| world := w; pooled := pooled f |}
    | Raise e w => Raise e {| world := w; pooled := pooled f |}
    | Block w => Block {| world := w; pooled := pooled f |}
    end.

Definition set_pooled (p : PooledConnection) : M Frame unit :=
  modify (fun f => {| world := world f; pooled := Some p |}).

(** Reading [pooled] where the code takes it for a wrapper. *)
Definition the_pooled : M Frame PooledConnection :=
  fun f =>
    match pooled f with
    | Some p => Ret p f
    | None => Raise AttributeError f
    end.

(** [conn = await self._create_connection()] followed by
    [pooled = PooledConnection(...)]. *)
Definition fresh_pooled : M Frame unit :=
  c <- lift _create_connection ;;
  t1 <- lift utcnow ;;
  t2 <- lift utcnow ;;
  set_pooled (new_pooled c t1 t2).

(** The [except asyncio.TimeoutError] block of [acquire]: a new
    connection when the counter allows one. *)
Definition acquire_overflow : M Frame unit :=
  cfg <- lift (gets config) ;;
  active <- lift (gets _active_connections) ;;
  if active <? max_size cfg then
    fresh_pooled ;;;
    lift (incr_active 1)
  else raise PoolExhausted.

(** The [try] block of [acquire], first part: a wrapper from the queue,
    or on a timeout the block above. *)
Definition acquire_obtain : M Frame unit :=
  cfg <- lift (gets config) ;;
  try_except
    (p <- lift (queue_get_wait_for (connection_timeout_seconds cfg)) ;;
     set_pooled p)
    (fun e =>
       match e with
       | WaitTimeout => Some acquire_overflow
       | _ => None
       end).

(** The [try] block of [acquire], second part: recycling, the health
    check, the stamps, up to the value of the [yield]. *)
Definition acquire_prepare : M Frame conn :=
  p <- the_pooled ;;
  recycle <- lift (_should_recycle p) ;;
  (if recycle then
     lift (_close_connection (connection p)) ;;;
     fresh_pooled
   else ret tt) ;;;
  p <- the_pooled ;;
  healthy <- lift (_is_connection_healthy (connection p)) ;;
  (if negb healthy then
     lift (_close_connection (connection p)) ;;;
     fresh_pooled
   else ret tt) ;;;
  p <- the_pooled ;;
  now <- lift utcnow ;;
  set_pooled {| connection := connection p;
                created_at := created_at p;
                last_used_at := now;
                use_count := use_count p + 1;
                is_healthy := is_healthy p |} ;;;
  ret (connection p).

(** The [try] block of [acquire], up to its [yield]. *)
Definition acquire_body : M Frame conn :=
  acquire_obtain ;;;
  acquire_prepare.

(** The [finally] block of [acquire]. *)
Definition acquire_finally (pooled : option PooledConnection) : M World unit :=
  match pooled with
  | None => ret tt
  | Some p =>
      try_except
        (queue_put_nowait p)
        (fun e =>
           match e with
           | QueueFull =>
               Some (_close_connection (connection p) ;;;
                     incr_active (-1))
           | _ => None
           end)
  end.

(** Entering [async with pool.acquire() as conn]: the body runs to its
    [yield] and the frame stays suspended in [checked_out]; when the
    body raises first, the [finally] block runs at once. *)
Definition acquire_enter : M World conn :=
  fun w =>
    match acquire_body {| world := w; pooled := None |} with
    | Ret c f =>
        match pooled f with
        | Some p =>
            Ret c (set_checked_out (checked_out (world f) ++ [p]) (world f))
        | None => Ret c (world f)
        end
    | Raise e f =>
        match acquire_finally (pooled f) (world f) with
        | Ret _ w' => Raise e w'
        | Raise e' w' => Raise e' w'
        | Block w' => Block w'
        end
    | Block f => Block (world f)
    end.

Fixpoint remove_nth {A} (i : nat) (l : list A) : list A :=
  match l, i with
  | [], _ => []
  | _ :: l', O => l'
  | x :: l', Datatypes.S i' => x :: remove_nth i' l'
  end.

(** Leaving the [async with] block of the [i]-th suspended frame: its
    [finally] block runs on its [pooled]. *)
Definition acquire_exit (i : nat) : M World unit :=
  fun w =>
    match nth_error (checked_out w) i with
    | None => Ret tt w
    | Some p =>
        acquire_finally (Some p)
          (set_checked_out (remove_nth i (checked_out w)) w)
    end.

(** One turn of the inner [while] loop of [_health_check_loop], without
    its [checked += 1]. *)
Definition health_check_one : M World unit :=
  pooled <- queue_get_nowait ;;
  healthy <- _is_connection_healthy (connection pooled) ;;
  if healthy then
    queue_put_nowait pooled
  else
    _close_connection (connection pooled) ;;;
    c <- _create_connection ;;
    t1 <- utcnow ;;
    t2 <- utcnow ;;
    queue_put_nowait (new_pooled c t1 t2).

(** [while checked < to_check], with its [except asyncio.QueueEmpty:
    break]; the argument is [to_check - checked]. *)
Fixpoint health_check_while (remaining : nat) : M World unit :=
  match remaining with
  | O => ret tt
  | Datatypes.S remaining' =>
      go_on <- try_except
                 (health_check_one ;;; ret true)
                 (fun e =>
                    match e with
                    | QueueEmpty => Some (ret false)
                    | _ => None
                    end) ;;
      if go_on then health_check_while remaining' else ret tt
  end.

(** One turn of the outer [while True] loop of [_health_check_loop],
    after its sleep: the pass over the idle wrappers, with the
    [except Exception] that only logs.  The pass runs here without
    another operation in between. *)
Definition health_check_pass : M World unit :=
  to_check <- gets qsize ;;
  try_except
    (health_check_while (Z.to_nat to_check))
    (fun _ => Some (ret tt)).

Record Stats : Type := {
  active_connections : Z;
  available_connections : Z;
  stats_max_size : Z;
  stats_min_size : Z
}.

Definition stats (w : World) : Stats :=
  {| active_connections := _active_connections w;
     available_connections := qsize w;
     stats_max_size := max_size (config w);
     stats_min_size := min_size (config w) |}.

(** *** Runs *)

Inductive op : Type :=
| Initialize
| Acquire
| Release (i : nat)     (* the i-th caller holding a connection leaves *)
| Shutdown
| Elapse (seconds : Z)  (* time passes *)
| HealthCheck.          (* the background task wakes up for one pass *)

Definition discard {S A} (m : M S A) : M S unit := x <- m ;; ret tt.

Definition step (o : op) : M World unit :=
  match o with
  | Initialize => initialize
  | Acquire => discard acquire_enter
  | Release i => acquire_exit i
  | Shutdown => close
  | Elapse dt => modify (fun w => set_clock (clock w + dt) w)
  | HealthCheck =>
      (* the task exists from the end of initialize to its cancel() in close *)
      t <- gets _health_check_task ;;
      match t with
      | Some TaskRunning => health_check_pass
      | _ => ret tt
      end
  end.

Definition state_of {A} (r : outcome World A) : World :=
  match r with Ret _ w => w | Raise _ w => w | Block w => w end.

(** A run: an operation that raises hands the exception to its caller
    and the run goes on; an operation that blocks ends it. *)
Fixpoint run (ops : list op) (w : World) : World :=
  match ops with
  | [] => w
  | o :: ops' =>
      match step o w with
      | Block w' => w'
      | r => run ops' (state_of r)
      end
  end.

(** The operations of callers between start-up and shutdown. *)
Definition traffic (o : op) : bool :=
  match o with
  | Acquire | Release _ | Elapse _ => true
  | Initialize | Shutdown | HealthCheck => false
  end.

(** What can happen between start-up and shutdown: the callers'
    operations and the passes of the health-check task. *)
Definition running (o : op) : bool :=
  match o with
  | Acquire | Release _ | Elapse _ | HealthCheck => true
  | Initialize | Shutdown => false
  end.

Definition idle_count (w : World) : Z := Z.of_nat (length (_pool w)).
Definition checked_out_count (w : World) : Z :=
  Z.of_nat (length (checked_out w)).
Definition live_count (w : World) : Z := Z.of_nat (length (opened w)).

End Pool.


(* ================================================================== *)
(** ** The specification's own words

    The definitions of this module follow the text of the
    specification, not the code; the theorems further down compare
    them with the code's. *)

Module Spec.
Import Py Re Security.

Fixpoint str_forall (p : ascii -> bool) (s : string) : bool :=
  match s with
  | EmptyString => true
  | String c s' => p c && str_forall p s'
  end.

Definition starts_with_digit (s : string) : bool :=
  match s with
  | EmptyString => false
  | String c _ => isdigit c
  end.

(** [^[A-Za-z0-9_.]*$] with no leading digit unless empty. *)
Definition clean_identifier (s : string) : bool :=
  str_forall ident_char s && negb (starts_with_digit s).

Inductive reason : Type :=
| EmptyRequest
| TooLong
| WriteInReadOnlyMode
| SuspiciousPattern
| BlockedKeyword
| BlockedResource.

Inductive ValidationVerdict : Type :=
| Accepted
| Rejected (r : reason).

Definition is_accepted (v : ValidationVerdict) : bool :=
  match v with Accepted => true | Rejected _ => false end.

Record SecurityPolicy : Type := {
  readOnly : bool;
  blockedKeywords : list string;
  blockedResourceNames : list string;
  sensitiveFieldNames : list string;
  maxRequestLength : Z
}.

Definition policy_of (config : SecurityConfig) : SecurityPolicy :=
  {| readOnly := read_only config;
     blockedKeywords := blocked_keywords config;
     blockedResourceNames := blocked_tables config;
     sensitiveFieldNames := sensitive_columns config;
     maxRequestLength := max_query_length config |}.

(** An ordered pipeline: the first rule whose condition holds gives the
    verdict; when none does the text is accepted. *)
Fixpoint first_match (rules : list (bool * reason)) : ValidationVerdict :=
  match rules with
  | [] => Accepted
  | (true, r) :: _ => Rejected r
  | (false, _) :: rules' => first_match rules'
  end.

Definition whitespace_only (text : string) : bool := str_forall isspace text.

Definition mutating (text : string) : bool :=
  existsb (fun p => search p text) WRITE_PATTERNS.

Definition suspicious (text : string) : bool :=
  existsb (fun p => search p text) INJECTION_PATTERNS.

(** [needle] occurs in [hay] when case is ignored. *)
Definition icontains (needle hay : string) : bool :=
  contains (lower needle) (lower hay).

(** The characters words are made of: letters, digits, the
    underscore. *)
Definition word_character (c : ascii) : bool :=
  isalnum c || Ascii.eqb c "_".

Definition is_word_character (o : option ascii) : bool :=
  match o with Some c => word_character c | None => false end.

Definition first_char (s : string) : option ascii :=
  match s with EmptyString => None | String c _ => Some c end.

Fixpoint last_char (s : string) : option ascii :=
  match s with
  | EmptyString => None
  | String c s' =>
      match last_char s' with Some l => Some l | None => Some c end
  end.

(** [text] without its first [n] characters. *)
Fixpoint str_drop (n : nat) (text : string) : string :=
  match n, text with
  | S n', String _ text' => str_drop n' text'
  | _, _ => text
  end.

(** [text] begins with [name], letter case ignored. *)
Definition starts_ignoring_case (name text : string) : bool :=
  prefix (lower name) (lower text).

(** [name] stands at the head of [text] as a whole word: [text] begins
    with it, the character in front ([before], if any) is no word
    character, and neither is the character that follows it. *)
Definition word_here (name : string) (before : option ascii) (text : string)
  : bool :=
  starts_ignoring_case name text
  && negb (is_word_character before)
  && negb (is_word_character
             (first_char (str_drop (String.length name) text))).

Fixpoint whole_word_from (name : string) (before : option ascii)
  (text : string) : bool :=
  word_here name before text ||
  match text with
  | EmptyString => false
  | String c text' => whole_word_from name (Some c) text'
  end.

(** [text] refers to [name] as a whole word: somewhere in [text] the
    name stands with no word character directly before it and none
    directly after it.  A reference to a name does not depend on letter
    case. *)
Definition whole_word (name text : string) : bool :=
  whole_word_from name None text.

(** A name that begins and ends with a word character, as table names
    that are plain identifiers do. *)
Definition word_edged (name : string) : bool :=
  is_word_character (first_char name) && is_word_character (last_char name).

(** The ordered pipeline, with the test that its last rule applies to
    one blocked resource name left open. *)
Definition pipeline (refers : string -> string -> bool) (text : string)
  (policy : SecurityPolicy) : ValidationVerdict :=
  first_match [
    (whitespace_only text, EmptyRequest);
    ((maxRequestLength policy <? len text)%Z, TooLong);
    (readOnly policy && mutating text, WriteInReadOnlyMode);
    (suspicious text, SuspiciousPattern);
    (existsb (fun k => icontains k text) (blockedKeywords policy),
     BlockedKeyword);
    (existsb (fun n => refers n text) (blockedResourceNames policy),
     BlockedResource)
  ].

Definition Validate (text : string) (policy : SecurityPolicy)
  : ValidationVerdict :=
  first_match [
    (whitespace_only text, EmptyRequest);
    ((maxRequestLength policy <? len text)%Z, TooLong);
    (readOnly policy && mutating text, WriteInReadOnlyMode);
    (suspicious text, SuspiciousPattern);
    (existsb (fun k => icontains k text) (blockedKeywords policy),
     BlockedKeyword);
    (existsb (fun n => whole_word n text) (blockedResourceNames policy),
     BlockedResource)
  ].

(** The verdict that the result of [validate_query] stands for. *)
Definition reason_of (e : rejection) : reason :=
  match e with
  | EmptyQuery => EmptyRequest
  | QueryTooLong _ => TooLong
  | WriteInReadOnly => WriteInReadOnlyMode
  | DangerousPattern => SuspiciousPattern
  | BlockedKeywordFound _ => BlockedKeyword
  | BlockedTableFound _ => BlockedResource
  end.

Definition verdict (config : SecurityConfig) (query : string)
  : ValidationVerdict :=
  match validate_query_check config query with
  | None => Accepted
  | Some e => Rejected (reason_of e)
  end.

(** The mutating keyword DELETE as a whole word: [\bDELETE\b]. *)
Definition word_DELETE : regex := seq [WordB; lit "DELETE"; WordB].

(** Masking of one text value: first two characters, one mask character
    for each character in between, last two characters. *)
Definition Mask_text (s : string) : string :=
  let l := list_ascii_of_string s in
  let n := List.length l in
  string_of_list_ascii
    (firstn 2 l ++ repeat "*"%char (n - 4) ++ skipn (n - 2) l).

Definition sensitive_name (sensitive : list string) (name : string) : bool :=
  existsb (fun s => icontains s name) sensitive.

Definition Mask_field (sensitive : list string) (field : string * pyval)
  : string * pyval :=
  let (name, value) := field in
  if sensitive_name sensitive name then
    match value with
    | VNone => (name, VNone)
    | VStr s =>
        if (4 <? String.length s)%nat then (name, VStr (Mask_text s))
        else (name, VStr "****")
    | _ => (name, VStr "****")
    end
  else (name, value).

Definition Mask (row : dict) (sensitive : list string) : dict :=
  map (Mask_field sensitive) row.

(** The pool's bound: the counter is the number of idle and checked-out
    wrappers, and it is at most [max_size]. *)
Definition pool_bounded (w : Pool.World) : Prop :=
  (Pool.idle_count w + Pool.checked_out_count w
   = Pool._active_connections w)%Z
  /\ (Pool._active_connections w <= Pool.max_size (Pool.config w))%Z.

(** The bound alone: the idle and checked-out wrappers are no more than
    the counter, and the counter is at most [max_size]. *)
Definition pool_within (w : Pool.World) : Prop :=
  (Pool.idle_count w + Pool.checked_out_count w
   <= Pool._active_connections w)%Z
  /\ (Pool._active_connections w <= Pool.max_size (Pool.config w))%Z.

(** What the factory and the clock leave alone. *)
Definition same_manager (w w' : Pool.World) : Prop :=
  Pool.config w' = Pool.config w
  /\ Pool._pool w' = Pool._pool w
  /\ Pool._active_connections w' = Pool._active_connections w
  /\ Pool.checked_out w' = Pool.checked_out w.

(** A computation that returns or raises, and touches the backend
    only. *)
Definition backend_only {A} (m : Pool.M Pool.World A) : Prop :=
  forall w,
    match m w with
    | Pool.Ret _ w' | Pool.Raise _ w' => same_manager w w'
    | Pool.Block _ => False
    end.

(** The same inside a frame of [acquire] that holds a wrapper: the
    frame still holds one afterwards. *)
Definition holds_wrapper (f : Pool.Frame) : Prop :=
  exists p, Pool.pooled f = Some p.

Definition steady {A} (m : Pool.M Pool.Frame A) : Prop :=
  forall f,
    holds_wrapper f ->
    match m f with
    | Pool.Ret _ f' | Pool.Raise _ f' =>
        same_manager (Pool.world f) (Pool.world f') /\ holds_wrapper f'
    | Pool.Block _ => False
    end.

End Spec.

(* ================================================================== *)
(** ** base_server.py: what goes to the log *)

Module BaseServer.
Import Py Security.

Definition sensitive_keys : list string :=
  ["password"; "secret"; "token"; "key"; "credential"].

(** [any(s in k.lower() for s in sensitive_keys)]. *)
Definition is_sensitive_key (k : string) : bool :=
  existsb (fun s => contains s (lower k)) sensitive_keys.

(** The dict comprehension of [_sanitize_args], one item after the
    other. *)
Definition _sanitize_args (arguments : dict) : dict :=
  fold_left
    (fun acc (kv : string * pyval) =>
       dict_set (fst kv)
         (if is_sensitive_key (fst kv) then VStr "***" else snd kv) acc)
    arguments [].

(** [ServerConfig]: the fields and their [Field] bounds
    ([timeout_seconds]: ge=30, le=300; [pool_size]: ge=1, le=50). *)
Record ServerConfig : Type := {
  server_name : string;
  server_mode : string;
  timeout_seconds : Z;
  pool_size : Z;
  log_level : string;
  log_file : option string;
  console_logging : bool;
  server_read_only : bool;
  audit_queries : bool
}.

(** [ServerConfig(...)]; [None] stands for pydantic's
    [ValidationError]. *)
Definition ServerConfig_init (server_name server_mode : string)
  (timeout_seconds pool_size : Z) (log_level : string)
  (log_file : option string) (console_logging read_only audit_queries : bool)
  : option ServerConfig :=
  if ((30 <=? timeout_seconds) && (timeout_seconds <=? 300)
      && (1 <=? pool_size) && (pool_size <=? 50))%Z
  then Some {| server_name := server_name; server_mode := server_mode;
               timeout_seconds := timeout_seconds; pool_size := pool_size;
               log_level := log_level; log_file := log_file;
               console_logging := console_logging;
               server_read_only := read_only;
               audit_queries := audit_queries |}
  else None.

(** [logging_config.setup_logging(level, ...)], as far as the loggers
    of the standard library are concerned: the root logger gets the
    level [getattr(logging, level.upper(), logging.INFO)] through
    [logging.basicConfig(level=..., force=True)].  The upper-case names
    of the module [logging] are its levels and two names that are no
    levels, [BASIC_FORMAT] and [_STYLES], which no [setLevel] accepts,
    so that [setup_logging] raises ([None]); any other text gives INFO.
    The handlers, and a log file that cannot be opened, are outside the
    model. *)
Definition setup_logging (level : string) : option Z :=
  let name := upper level in
  if (name =? "CRITICAL")%string || (name =? "FATAL")%string then Some 50%Z
  else if (name =? "ERROR")%string then Some 40%Z
  else if (name =? "WARNING")%string || (name =? "WARN")%string
       then Some 30%Z
  else if (name =? "INFO")%string then Some 20%Z
  else if (name =? "DEBUG")%string then Some 10%Z
  else if (name =? "NOTSET")%string then Some 0%Z
  else if (name =? "BASIC_FORMAT")%string || (name =? "_STYLES")%string
       then None
  else Some 20%Z.

(** [logging.getLogger(__name__).isEnabledFor(logging.INFO)] for a
    logger that has no level of its own and inherits the root's. *)
Definition enabled_for_info (root_level : Z) : bool := (root_level <=? 20)%Z.

(** [BaseMCPServer.__init__], what [connect] depends on: the
    configuration, and the level [setup_logging] has left on the root
    logger.  [None]: the constructor raises. *)
Record Server : Type := {
  server_config : ServerConfig;
  root_level : Z
}.

Definition BaseMCPServer_init (config : ServerConfig) : option Server :=
  match setup_logging (log_level config) with
  | Some l => Some {| server_config := config; root_level := l |}
  | None => None
  end.

End BaseServer.

(* ================================================================== *)
(** ** adapters/postgresql.py: the adapter's use of pool and security

    The database driver is outside the repository: [fetch c query
    parameters] stands for [conn.fetch(query, *parameters)] on the
    connection [c], answering with the rows or with the text of the
    exception it raises.  The JSON text that [_execute_query] returns is
    modelled by the value it is dumped from ([reply]); the execution
    time, a clock reading, is left out. *)

Module PostgreSQL.
Import Py Security Pool BaseServer.
Open Scope pool_scope.

(** [connect]: the pool configuration built from the server and
    database configurations, with pydantic's verdict; the other fields
    of [PoolConfig] are at their defaults. *)
Definition connect_pool_config (config : ServerConfig)
  (db_connection_timeout : Z) : option PoolConfig :=
  PoolConfig_init 2 (pool_size config) 300 db_connection_timeout 60 3600.

(** [connect] of a constructed server on a backend given by its
    scripts: the manager is made and initialised, its logger under the
    root level that the server's constructor has set.  A rejected pool
    configuration raises before any manager exists ([None]).  The
    [self.logger.info("Connected to PostgreSQL", host=...)] that
    follows goes to the structlog logger of the server, which takes
    keyword arguments. *)
Definition connect (server : Server) (db_connection_timeout : Z)
  (creates healths : list bool) (now : Z) : option (outcome World unit) :=
  match connect_pool_config (server_config server) db_connection_timeout with
  | Some pool_config =>
      Some (initialize
              (set_logging (enabled_for_info (root_level server))
                 (new_manager pool_config creates healths now)))
  | None => None
  end.

(** [disconnect]: [if self._pool: await self._pool.close()]. *)
Definition disconnect : M World unit := close.

Inductive reply : Type :=
| ErrorReply (error : string)                        (* {"error": ...} *)
| ResultReply (columns : list string) (rows : list dict)
    (row_count : Z) (truncated : bool).              (* QueryResult *)

Section ExecuteQuery.

Variable fetch : conn -> string -> list pyval -> string + list dict.

(** The query as it is sent: a SELECT without the word LIMIT gets
    one. *)
Definition limited_query (query : string) (max_rows : Z) : string :=
  if startswith "SELECT" (upper (strip query))
     && negb (contains "LIMIT" (upper query))
  then query ++ " LIMIT " ++ str_of_int max_rows
  else query.

(** The [try] block inside [async with self._pool.acquire() as conn]. *)
Definition run_query (security : SecurityConfig) (c : conn) (query : string)
  (parameters : option (list pyval)) (max_rows : Z) : reply :=
  let query := limited_query query max_rows in
  let args := match parameters with Some ps => ps | None => [] end in
  match fetch c query args with
  | inl message => ErrorReply message
  | inr rows =>
      let columns := match rows with
                     | row :: _ => map fst row
                     | [] => []
                     end in
      let truncated := (Z.of_nat (length rows) =? max_rows)%Z in
      let result_rows :=
        map (fun row => mask_sensitive_data security row None) rows in
      ResultReply columns result_rows (Z.of_nat (length result_rows))
        truncated
  end.

(** [_execute_query]: validation first; then the query runs on an
    acquired connection, and leaving the [async with] block gives the
    connection back.  An exception of [acquire] itself is not caught
    here. *)
Definition _execute_query (security : SecurityConfig) (query : string)
  (parameters : option (list pyval)) (max_rows : Z) : M World reply :=
  match validate_query security query with
  | (false, error) =>
      ret (ErrorReply match error with
                      | Some e => e
                      | None => EmptyString
                      end)
  | (true, _) =>
      frame <- gets (fun w => length (checked_out w)) ;;
      c <- acquire_enter ;;
      let result := run_query security c query parameters max_rows in
      acquire_exit frame ;;;
      ret result
  end.

End ExecuteQuery.

End PostgreSQL.

(* ================================================================== *)
(** ** Predicates used in the statements below *)

Module Props.
Import Py Security Pool.

(** How often [c] occurs in [s]. *)
Fixpoint count_char (c : ascii) (s : string) : nat :=
  match s with
  | EmptyString => O
  | String x s' => (if Ascii.eqb x c then 1 else 0) + count_char c s'
  end.

(** The characters a built query is made of: identifier characters,
    the space, and the punctuation of the fixed text. *)
Definition builder_char (c : ascii) : bool :=
  ident_char c
  || existsb (Ascii.eqb c) [" "; ","; "*"; "="; "?"; "-"; "("; ")"]%char.

(** The queue of a manager respects its [maxsize]. *)
Definition queue_within_maxsize (w : World) : Prop :=
  (max_size (config w) <= 0
   \/ Z.of_nat (length (_pool w)) <= max_size (config w))%Z.

(** No coming creation fails. *)
Definition factory_delivers (w : World) : Prop :=
  forallb (fun b => b) (create_script w) = true.

(** Text over the ASCII range, where the character tables of this file
    are Python's. *)
Definition ascii_text (s : string) : bool :=
  Spec.str_forall (fun c => (Py.code c <? 128)%nat) s.

(** The test of [validate_query] for one blocked table:
    [re.search(rf"\b{re.escape(table)}\b", query, re.IGNORECASE)]. *)
Definition word_bounded (table text : string) : bool :=
  Re.search (table_pattern table) text.

(** The same configuration with another [read_only]. *)
Definition with_read_only (ro : bool) (config : SecurityConfig)
  : SecurityConfig :=
  {| read_only := ro;
     allow_ddl := allow_ddl config;
     allow_dml := allow_dml config;
     blocked_keywords := blocked_keywords config;
     allowed_schemas := allowed_schemas config;
     blocked_tables := blocked_tables config;
     sensitive_columns := sensitive_columns config;
     max_query_length := max_query_length config;
     max_rows_returned := max_rows_returned config |}.

(** The field-wise picture of [_sanitize_args]. *)
Definition redact_arg (kv : string * pyval) : string * pyval :=
  (fst kv,
   if BaseServer.is_sensitive_key (fst kv) then VStr "***" else snd kv).

End Props.

(* ================================================================== *)
(** ** Sample inputs *)

Module Samples.
Import Security Pool.

(** A writable configuration with nothing blocked. *)
Definition writable_config : SecurityConfig :=
  {| read_only := false; allow_ddl := false; allow_dml := false;
     blocked_keywords := []; allowed_schemas := None; blocked_tables := [];
     sensitive_columns := ["password"];
     max_query_length := 10000; max_rows_returned := 10000 |}.

(** Read-only, nothing blocked. *)
Definition read_only_config : SecurityConfig :=
  {| read_only := true; allow_ddl := false; allow_dml := false;
     blocked_keywords := []; allowed_schemas := None; blocked_tables := [];
     sensitive_columns := ["password"];
     max_query_length := 10000; max_rows_returned := 10000 |}.

(** [SecurityConfig(blocked_tables=[...])], the other fields at their
    defaults: a plain table name, a temporary table of SQL Server, a
    bracketed name. *)
Definition blocking (tables : list string) : SecurityConfig :=
  {| read_only := true; allow_ddl := false; allow_dml := false;
     blocked_keywords := blocked_keywords (default_config true);
     allowed_schemas := None; blocked_tables := tables;
     sensitive_columns := sensitive_columns (default_config true);
     max_query_length := 10000; max_rows_returned := 10000 |}.

Definition secrets_blocked : SecurityConfig := blocking ["secrets"].
Definition temp_table_blocked : SecurityConfig := blocking ["#temp"].
Definition bracketed_blocked : SecurityConfig := blocking ["[secrets]"].

(** [PoolConfig(min_size=1, max_size=1)] and
    [PoolConfig(min_size=2, max_size=5)]. *)
Definition one_slot : PoolConfig :=
  {| min_size := 1; max_size := 1; max_idle_time_seconds := 300;
     connection_timeout_seconds := 30; health_check_interval_seconds := 60;
     recycle_connections_seconds := 3600 |}.

Definition two_to_five : PoolConfig :=
  {| min_size := 2; max_size := 5; max_idle_time_seconds := 300;
     connection_timeout_seconds := 30; health_check_interval_seconds := 60;
     recycle_connections_seconds := 3600 |}.

(** A one-slot pool over a backend that never fails, at time 0. *)
Definition one_slot_pool : World := new_manager one_slot [] [] 0.

(** A pool over a backend whose second connection attempt fails. *)
Definition second_create_fails : World :=
  new_manager two_to_five [true; false] [] 0.

(** [PoolConfig(min_size=2, max_size=1)]: accepted, sizes out of
    order. *)
Definition two_over_one : PoolConfig :=
  {| min_size := 2; max_size := 1; max_idle_time_seconds := 300;
     connection_timeout_seconds := 30; health_check_interval_seconds := 60;
     recycle_connections_seconds := 3600 |}.

(** A one-slot pool whose factory fails from its second call on, with
    the first idle connection failing its next health check. *)
Definition flaky_pool : World := new_manager one_slot [true; false] [false] 0.

(** Arguments of a tool call. *)
Definition tool_arguments : dict :=
  [("query", VStr "select 1"); ("api_key", VStr "abc"); ("max_rows", VInt 5)].

(** A database that answers every query with no rows. *)
Definition no_rows (c : conn) (query : string) (parameters : list pyval)
  : string + list dict := inr [].

(** The row of the masking example. *)
Definition password_row : dict :=
  [("password", VStr "hunter2"); ("name", VStr "Ann")].

End Samples.

Import Py Re Security Pool Spec Samples BaseServer PostgreSQL Props.
Close Scope pool_scope.
Close Scope Z_scope.

(* ================================================================== *)
(** ** Identifier sanitising *)

Lemma re_sub_delete_twice (cls : ascii -> bool) (s : string) :
  re_sub_delete cls (re_sub_delete cls s) = re_sub_delete cls s.
Proof.
  induction s as [|c s IH]; simpl; [reflexivity|].
  destruct (cls c) eqn:E; simpl; [assumption|].
  rewrite E, IH. reflexivity.
Qed.

Lemma re_sub_delete_keeps (s : string) :
  str_forall ident_char (re_sub_delete (fun c => negb (ident_char c)) s) = true.
Proof.
  induction s as [|c s IH]; simpl; [reflexivity|].
  destruct (ident_char c) eqn:E; simpl; [|assumption].
  rewrite E. assumption.
Qed.

(** C2 (as stated, refuted): on "1secret;DROP" the code does not return
    "_secretDROP". *)
Lemma sanitize_1secret_is_not_secretDROP :
  sanitize_identifier "1secret;DROP" <> "_secretDROP".
Proof. vm_compute. discriminate. Qed.

(** C2 (amended): [sanitize_identifier "1secret;DROP"] is "_1secretDROP":
    the semicolon is deleted, the digit is kept, and an underscore is put
    in front because the kept text starts with a digit. *)
Theorem sanitize_1secret_keeps_the_digit :
  sanitize_identifier "1secret;DROP" = "_1secretDROP".
Proof. reflexivity. Qed.

(** C10: [sanitize_identifier] is idempotent, and its result holds only
    characters of [A-Za-z0-9_.] and does not start with a digit. *)
Theorem sanitize_identifier_idempotent (s : string) :
  sanitize_identifier (sanitize_identifier s) = sanitize_identifier s
  /\ str_forall ident_char (sanitize_identifier s) = true
  /\ starts_with_digit (sanitize_identifier s) = false.
Proof.
  unfold sanitize_identifier.
  pose proof (re_sub_delete_twice (fun c => negb (ident_char c)) s) as Hidem.
  pose proof (re_sub_delete_keeps s) as Hkeep.
  destruct (re_sub_delete (fun c => negb (ident_char c)) s) as [|c t] eqn:Et.
  - repeat split; reflexivity.
  - destruct (isdigit c) eqn:Ed.
    + change (re_sub_delete (fun c0 => negb (ident_char c0)) (String "_" (String c t)))
        with (String "_"%char
                (re_sub_delete (fun c0 => negb (ident_char c0)) (String c t))).
      rewrite Hidem.
      change (isdigit "_"%char) with false.
      cbn [starts_with_digit str_forall] in *.
      rewrite Hkeep.
      repeat split; reflexivity.
    + rewrite Hidem, Ed. cbn [starts_with_digit].
      repeat split; assumption.
Qed.

(* ================================================================== *)
(** ** Query validation *)

Section Characters.

Lemma lower_upper_char (c : ascii) : lower_char (upper_char c) = lower_char c.
Proof. destruct c as [[] [] [] [] [] [] [] []]; reflexivity. Qed.

Lemma upper_lower_char (c : ascii) : upper_char (lower_char c) = upper_char c.
Proof. destruct c as [[] [] [] [] [] [] [] []]; reflexivity. Qed.

Lemma same_upper_same_lower (a b : ascii) :
  upper_char a = upper_char b <-> lower_char a = lower_char b.
Proof.
  split; intros H.
  - rewrite <- (lower_upper_char a), <- (lower_upper_char b), H. reflexivity.
  - rewrite <- (upper_lower_char a), <- (upper_lower_char b), H. reflexivity.
Qed.

Lemma is_word_lower_char (c : ascii) : is_word (lower_char c) = is_word c.
Proof. destruct c as [[] [] [] [] [] [] [] []]; reflexivity. Qed.

Lemma same_lower_same_word (a b : ascii) :
  lower_char a = lower_char b -> is_word a = is_word b.
Proof.
  intros H. rewrite <- (is_word_lower_char a), H. apply is_word_lower_char.
Qed.

End Characters.

Lemma prefix_any_case (a b : string) :
  prefix (upper a) (upper b) = prefix (lower a) (lower b).
Proof.
  revert b. induction a as [|x a IH]; intros b;
    [destruct b; reflexivity|].
  destruct b as [|y b]; [reflexivity|].
  unfold upper, lower in *. cbn [str_map prefix].
  destruct (ascii_dec (upper_char x) (upper_char y)) as [E|E];
    destruct (ascii_dec (lower_char x) (lower_char y)) as [F|F];
    try apply IH; try reflexivity.
  - exfalso. apply F. apply same_upper_same_lower. exact E.
  - exfalso. apply E. apply same_upper_same_lower. exact F.
Qed.

(** The code's test [keyword.upper() in query.upper()] is containment
    with case ignored. *)
Lemma contains_any_case (a b : string) :
  contains (upper a) (upper b) = icontains a b.
Proof.
  unfold icontains.
  induction b as [|y b IH].
  - cbn [contains upper lower str_map]. rewrite !orb_false_r.
    apply (prefix_any_case a "").
  - change (upper (String y b)) with (String (upper_char y) (upper b)).
    change (lower (String y b)) with (String (lower_char y) (lower b)).
    cbn [contains]. rewrite IH. f_equal.
    apply (prefix_any_case a (String y b)).
Qed.

Lemma lstrip_spaces (s : string) :
  str_forall isspace s = true -> lstrip s = "".
Proof.
  induction s as [|c s IH]; simpl; [reflexivity|].
  destruct (isspace c); simpl; [assumption | discriminate].
Qed.

Lemma lstrip_finds_text (s : string) :
  str_forall isspace s = false ->
  exists c t, lstrip s = String c t /\ isspace c = false.
Proof.
  induction s as [|c s IH]; simpl; [discriminate|].
  destruct (isspace c) eqn:E; simpl; intros H.
  - apply IH. assumption.
  - exists c, s. split; [reflexivity | assumption].
Qed.

Lemma rstrip_keeps_text (c : ascii) (t : string) :
  isspace c = false -> truthy (rstrip (String c t)) = true.
Proof.
  intros H. cbn [rstrip]. rewrite H.
  destruct (rstrip t); reflexivity.
Qed.

(** The first test of [validate_query] holds exactly on text that is
    empty or made of white space. *)
Lemma empty_test_is_whitespace_only (query : string) :
  negb (truthy query) || negb (truthy (strip query)) = whitespace_only query.
Proof.
  unfold whitespace_only, strip.
  destruct (str_forall isspace query) eqn:E.
  - rewrite (lstrip_spaces _ E). simpl. apply orb_true_r.
  - destruct (lstrip_finds_text _ E) as (c & t & -> & Hc).
    rewrite (rstrip_keeps_text _ _ Hc).
    destruct query; [discriminate E | reflexivity].
Qed.

Lemma find_none_existsb {A} (f : A -> bool) (l : list A) :
  find f l = None -> existsb f l = false.
Proof.
  induction l as [|x l IH]; simpl; [reflexivity|].
  destruct (f x); [discriminate | exact IH].
Qed.

Lemma find_some_existsb {A} (f : A -> bool) (l : list A) (x : A) :
  find f l = Some x -> existsb f l = true.
Proof.
  induction l as [|y l IH]; simpl; [discriminate|].
  destruct (f y); [reflexivity | exact IH].
Qed.

Lemma existsb_same {A} (f g : A -> bool) (l : list A) :
  (forall x, f x = g x) -> existsb f l = existsb g l.
Proof.
  intros H. induction l as [|x l IH]; simpl; [reflexivity|].
  rewrite H, IH. reflexivity.
Qed.

(** [validate_query] is the ordered pipeline, with [\btable\b] as its
    test for a blocked table. *)
Lemma verdict_is_pipeline (config : SecurityConfig) (query : string) :
  verdict config query = pipeline word_bounded query (policy_of config).
Proof.
  unfold verdict, validate_query_check, pipeline, policy_of.
  cbn [readOnly blockedKeywords blockedResourceNames maxRequestLength
       first_match].
  rewrite empty_test_is_whitespace_only.
  destruct (whitespace_only query); [reflexivity|].
  rewrite Z.gtb_ltb.
  destruct (max_query_length config <? len query)%Z; [reflexivity|].
  fold (mutating query). fold (suspicious query).
  destruct (read_only config && mutating query); [reflexivity|].
  destruct (suspicious query); [reflexivity|].
  rewrite <- (existsb_same _ _ (blocked_keywords config)
                (fun k => contains_any_case k query)).
  destruct (find _ (blocked_keywords config)) as [k|] eqn:Ek.
  - rewrite (find_some_existsb _ _ _ Ek). reflexivity.
  - rewrite (find_none_existsb _ _ Ek).
    unfold word_bounded.
    destruct (find _ (blocked_tables config)) as [t|] eqn:Et.
    + rewrite (find_some_existsb _ _ _ Et). reflexivity.
    + rewrite (find_none_existsb _ _ Et). reflexivity.
Qed.

Lemma validate_query_flag (config : SecurityConfig) (query : string) :
  fst (validate_query config query) = is_accepted (verdict config query).
Proof.
  unfold validate_query, verdict.
  destruct (validate_query_check config query); reflexivity.
Qed.

(** *** [\bname\b] and whole words *)

(** The literal [name] and the [\b] after it, when the character that
    ends up in front of that [\b] is a word character: the text begins
    with the name and no word character follows. *)
Lemma lit_then_boundary (name : string) :
  forall (prev : option ascii) (text : string),
    word_opt (match last_char name with Some l => Some l | None => prev end)
    = true ->
    match_re (lit name) prev text (fun p s => at_boundary p s && true)
    = starts_ignoring_case name text
      && negb (is_word_character
                 (first_char (str_drop (String.length name) text))).
Proof.
  induction name as [|x name IH]; intros prev text Hlast.
  - cbn [last_char] in Hlast.
    cbn [lit match_re String.length str_drop].
    unfold at_boundary. rewrite Hlast, andb_true_r.
    unfold starts_ignoring_case. cbn [lower str_map prefix andb].
    destruct text; reflexivity.
  - cbn [lit match_re]. destruct text as [|c text]; [reflexivity|].
    cbn [atom_ok String.length str_drop]. unfold starts_ignoring_case.
    change (lower (String x name)) with (String (lower_char x) (lower name)).
    change (lower (String c text)) with (String (lower_char c) (lower text)).
    cbn [prefix].
    destruct (ascii_dec (lower_char x) (lower_char c)) as [E|E].
    + rewrite E, Ascii.eqb_refl. cbn [andb].
      apply IH. cbn [last_char] in Hlast.
      destruct (last_char name); [exact Hlast|].
      cbn [word_opt] in *.
      rewrite <- (same_lower_same_word x c E). exact Hlast.
    + replace (Ascii.eqb (lower_char x) (lower_char c)) with false
        by (symmetry; apply Ascii.eqb_neq; exact E).
      reflexivity.
Qed.

(** A text that begins with a name whose first character is a word
    character begins with a word character. *)
Lemma starts_with_word (name text : string) :
  is_word_character (first_char name) = true ->
  starts_ignoring_case name text = true ->
  word_opt (head text) = true.
Proof.
  destruct name as [|x name]; [discriminate|].
  destruct text as [|c text]; [discriminate|].
  unfold starts_ignoring_case.
  change (lower (String x name)) with (String (lower_char x) (lower name)).
  change (lower (String c text)) with (String (lower_char c) (lower text)).
  cbn [prefix first_char is_word_character head word_opt].
  destruct (ascii_dec (lower_char x) (lower_char c)) as [E|E];
    [|discriminate].
  intros Hx _. rewrite <- (same_lower_same_word x c E). exact Hx.
Qed.

(** At one position, for a name that begins and ends with a word
    character: [\bname\b] matches there exactly when the name stands
    there as a whole word. *)
Lemma word_bounded_here (name : string) (prev : option ascii) (text : string) :
  word_edged name = true ->
  match_re (table_pattern name) prev text (fun _ _ => true)
  = word_here name prev text.
Proof.
  intros Hedge. apply andb_prop in Hedge as [Hfirst Hlast].
  unfold table_pattern. cbn [seq match_re].
  rewrite lit_then_boundary.
  2: { destruct (last_char name) as [l|]; [exact Hlast | discriminate Hlast]. }
  unfold word_here.
  destruct (starts_ignoring_case name text) eqn:Es; cbn [andb].
  - unfold at_boundary. rewrite (starts_with_word name text Hfirst Es).
    rewrite xorb_true_r. reflexivity.
  - apply andb_false_r.
Qed.

Lemma word_bounded_from (name : string) :
  word_edged name = true ->
  forall (text : string) (prev : option ascii),
    search_from (table_pattern name) prev text
    = whole_word_from name prev text.
Proof.
  intros Hedge text.
  induction text as [|c text IH]; intros prev;
    cbn [search_from whole_word_from];
    rewrite (word_bounded_here name prev _ Hedge);
    [reflexivity | rewrite IH; reflexivity].
Qed.

(** For a name that begins and ends with a word character the code's
    test is the whole-word test. *)
Lemma word_bounded_is_whole_word (name text : string) :
  word_edged name = true -> word_bounded name text = whole_word name text.
Proof.
  intros Hedge. unfold word_bounded, search, whole_word.
  apply word_bounded_from. exact Hedge.
Qed.

Lemma existsb_same_in {A} (f g : A -> bool) (l : list A) :
  (forall x, In x l -> f x = g x) -> existsb f l = existsb g l.
Proof.
  induction l as [|x l IH]; intros H; [reflexivity|].
  cbn [existsb]. rewrite (H x (or_introl eq_refl)), IH; [reflexivity|].
  intros y Hy. apply H. right. exact Hy.
Qed.

(** [validate_query] against the ordered pipeline of the
    specification, when the blocked names begin and end with word
    characters. *)
Lemma verdict_is_Validate (config : SecurityConfig) (query : string) :
  forallb word_edged (blocked_tables config) = true ->
  verdict config query = Validate query (policy_of config).
Proof.
  intros Hnames. rewrite verdict_is_pipeline. unfold pipeline, Validate.
  cbn [policy_of blockedResourceNames].
  rewrite (existsb_same_in (fun n => word_bounded n query)
             (fun n => whole_word n query) (blocked_tables config));
    [reflexivity|].
  intros n Hn. apply word_bounded_is_whole_word.
  rewrite forallb_forall in Hnames. apply Hnames. exact Hn.
Qed.

(** The three sample texts through the pipeline. *)
Lemma pipeline_chained_comment (refers : string -> string -> bool)
  (policy : SecurityPolicy) :
  (23 <= maxRequestLength policy)%Z ->
  readOnly policy = true ->
  pipeline refers "SELECT * FROM users; --" policy
  = Rejected SuspiciousPattern.
Proof.
  intros Hlen Hro. unfold pipeline.
  change (whitespace_only "SELECT * FROM users; --") with false.
  change (len "SELECT * FROM users; --") with 23%Z.
  replace (maxRequestLength policy <? 23)%Z with false
    by (symmetry; apply Z.ltb_ge; exact Hlen).
  replace (mutating "SELECT * FROM users; --") with false
    by (vm_compute; reflexivity).
  replace (suspicious "SELECT * FROM users; --") with true
    by (vm_compute; reflexivity).
  rewrite andb_false_r. reflexivity.
Qed.

Lemma pipeline_delete_read_only (refers : string -> string -> bool)
  (policy : SecurityPolicy) :
  (17 <= maxRequestLength policy)%Z ->
  readOnly policy = true ->
  pipeline refers "DELETE FROM users" policy = Rejected WriteInReadOnlyMode.
Proof.
  intros Hlen Hro. unfold pipeline. rewrite Hro.
  change (whitespace_only "DELETE FROM users") with false.
  change (len "DELETE FROM users") with 17%Z.
  replace (maxRequestLength policy <? 17)%Z with false
    by (symmetry; apply Z.ltb_ge; exact Hlen).
  replace (mutating "DELETE FROM users") with true
    by (vm_compute; reflexivity).
  reflexivity.
Qed.

Lemma pipeline_delete_writable (refers : string -> string -> bool)
  (policy : SecurityPolicy) :
  (17 <= maxRequestLength policy)%Z ->
  readOnly policy = false ->
  blockedKeywords policy = [] ->
  blockedResourceNames policy = [] ->
  pipeline refers "DELETE FROM users" policy = Accepted.
Proof.
  intros Hlen Hro Hk Ht. unfold pipeline. rewrite Hro, Hk, Ht.
  change (whitespace_only "DELETE FROM users") with false.
  change (len "DELETE FROM users") with 17%Z.
  replace (maxRequestLength policy <? 17)%Z with false
    by (symmetry; apply Z.ltb_ge; exact Hlen).
  replace (suspicious "DELETE FROM users") with false
    by (vm_compute; reflexivity).
  reflexivity.
Qed.

(** C3: [validate_query] against the ordered pipeline of the
    specification (empty, too long, write in read-only mode, suspicious
    pattern, blocked keyword, blocked resource as a whole word, else
    accepted; the first rule that matches decides).  On ASCII text the
    code is that pipeline for every query whenever the blocked names
    begin and end with a word character, and it gives the three sample
    verdicts.  It leaves the pipeline at a blocked name with another
    character at an edge: with "#temp" blocked, "select * from #temp"
    refers to the name as a whole word, and the code accepts it. *)
Theorem validate_query_ordered_pipeline :
  (forall config query,
      ascii_text query = true ->
      forallb ascii_text (blocked_keywords config) = true ->
      forallb ascii_text (blocked_tables config) = true ->
      forallb word_edged (blocked_tables config) = true ->
      verdict config query = Validate query (policy_of config)
      /\ fst (validate_query config query)
         = is_accepted (Validate query (policy_of config)))
  /\ (forall config,
        (23 <= max_query_length config)%Z ->
        read_only config = true ->
        verdict config "SELECT * FROM users; --" = Rejected SuspiciousPattern)
  /\ (forall config,
        (17 <= max_query_length config)%Z ->
        read_only config = true ->
        verdict config "DELETE FROM users" = Rejected WriteInReadOnlyMode)
  /\ (forall config,
        (17 <= max_query_length config)%Z ->
        read_only config = false ->
        blocked_keywords config = [] ->
        blocked_tables config = [] ->
        verdict config "DELETE FROM users" = Accepted
        /\ validate_query config "DELETE FROM users" = (true, None))
  /\ (Validate "select * from #temp" (policy_of temp_table_blocked)
      = Rejected BlockedResource
      /\ verdict temp_table_blocked "select * from #temp" = Accepted
      /\ validate_query temp_table_blocked "select * from #temp"
         = (true, None)).
Proof.
  split; [|split; [|split; [|split]]].
  - intros config query _ _ _ Hnames.
    split; [apply verdict_is_Validate; exact Hnames|].
    rewrite validate_query_flag, verdict_is_Validate by exact Hnames.
    reflexivity.
  - intros config Hlen Hro. rewrite verdict_is_pipeline.
    apply pipeline_chained_comment; assumption.
  - intros config Hlen Hro. rewrite verdict_is_pipeline.
    apply pipeline_delete_read_only; assumption.
  - intros config Hlen Hro Hk Ht.
    assert (Hv : verdict config "DELETE FROM users" = Accepted).
    { rewrite verdict_is_pipeline.
      apply pipeline_delete_writable; assumption. }
    split; [exact Hv|].
    unfold verdict in Hv. unfold validate_query.
    destruct (validate_query_check config "DELETE FROM users");
      [discriminate Hv | reflexivity].
  - vm_compute. repeat split; reflexivity.
Qed.

Lemma validate_query_ordered_pipeline_witness :
  verdict secrets_blocked "SELECT * FROM Secrets"
    = Validate "SELECT * FROM Secrets" (policy_of secrets_blocked)
  /\ verdict (default_config true) "SELECT * FROM users; --"
     = Rejected SuspiciousPattern
  /\ verdict (default_config true) "DELETE FROM users"
     = Rejected WriteInReadOnlyMode
  /\ validate_query writable_config "DELETE FROM users" = (true, None).
Proof.
  destruct validate_query_ordered_pipeline as (H0 & H1 & H2 & H3 & _).
  split; [|split; [|split]].
  - apply (H0 secrets_blocked "SELECT * FROM Secrets"); reflexivity.
  - apply H1; [simpl; lia | reflexivity].
  - apply H2; [simpl; lia | reflexivity].
  - apply H3; [simpl; lia | reflexivity | reflexivity | reflexivity].
Defined.

(** The same slip the other way round: with "[secrets]" blocked, the
    text "select x[secrets]y" does not hold the name as a whole word,
    and the code turns it down: [\b] finds its boundaries between the
    brackets and the letters around them. *)
Lemma bracketed_name_is_found_inside_a_word :
  Validate "select x[secrets]y" (policy_of bracketed_blocked) = Accepted
  /\ verdict bracketed_blocked "select x[secrets]y" = Rejected BlockedResource
  /\ verdict bracketed_blocked "select * from [secrets]" = Accepted.
Proof. vm_compute. repeat split; reflexivity. Qed.

Lemma write_verdict_needs_pattern (refers : string -> string -> bool)
  (policy : SecurityPolicy) (text : string) :
  pipeline refers text policy = Rejected WriteInReadOnlyMode ->
  readOnly policy = true /\ mutating text = true.
Proof.
  unfold pipeline. cbn [first_match].
  destruct (whitespace_only text); [discriminate|].
  destruct (maxRequestLength policy <? len text)%Z; [discriminate|].
  destruct (readOnly policy); destruct (mutating text); cbn [andb];
    try (intros _; split; reflexivity).
  all: destruct (suspicious text); [discriminate|];
    destruct (existsb _ (blockedKeywords policy)); [discriminate|];
    destruct (existsb _ (blockedResourceNames policy)); discriminate.
Qed.

(** C9: in read-only mode the write check turns a text down only when
    one of [WRITE_PATTERNS] matches it; "DELETE 1" holds the keyword
    DELETE as a whole word, matches none of them, and with nothing
    blocked it is accepted. *)
Theorem delete_1_passes_read_only_check (config : SecurityConfig)
  (Hro : read_only config = true)
  (Hkeywords : blocked_keywords config = [])
  (Htables : blocked_tables config = [])
  (Hlen : (8 <= max_query_length config)%Z) :
  (forall query,
      verdict config query = Rejected WriteInReadOnlyMode ->
      existsb (fun p => search p query) WRITE_PATTERNS = true)
  /\ search word_DELETE "DELETE 1" = true
  /\ existsb (fun p => search p "DELETE 1") WRITE_PATTERNS = false
  /\ verdict config "DELETE 1" = Accepted
  /\ validate_query config "DELETE 1" = (true, None).
Proof.
  split; [|split; [|split]].
  - intros query H. rewrite verdict_is_pipeline in H.
    apply write_verdict_needs_pattern in H. apply H.
  - vm_compute. reflexivity.
  - vm_compute. reflexivity.
  - assert (Hv : verdict config "DELETE 1" = Accepted).
    { rewrite verdict_is_pipeline. unfold pipeline, policy_of.
      cbn [readOnly blockedKeywords blockedResourceNames maxRequestLength].
      rewrite Hkeywords, Htables.
      change (whitespace_only "DELETE 1") with false.
      change (len "DELETE 1") with 8%Z.
      replace (max_query_length config <? 8)%Z with false
        by (symmetry; apply Z.ltb_ge; exact Hlen).
      replace (mutating "DELETE 1") with false by (vm_compute; reflexivity).
      replace (suspicious "DELETE 1") with false by (vm_compute; reflexivity).
      rewrite andb_false_r. reflexivity. }
    split; [exact Hv|].
    unfold verdict in Hv. unfold validate_query.
    destruct (validate_query_check config "DELETE 1");
      [discriminate Hv | reflexivity].
Qed.

Lemma delete_1_passes_read_only_check_witness :
  validate_query read_only_config "DELETE 1" = (true, None).
Proof.
  apply (delete_1_passes_read_only_check read_only_config);
    [reflexivity | reflexivity | reflexivity | simpl; lia].
Defined.

(* ================================================================== *)
(** ** Masking of sensitive columns *)

Section Text.

Lemma length_chars (s : string) :
  List.length (list_ascii_of_string s) = String.length s.
Proof. induction s; simpl; congruence. Qed.

Lemma text_app (a b : list ascii) :
  string_of_list_ascii (a ++ b)
  = (string_of_list_ascii a ++ string_of_list_ascii b)%string.
Proof. induction a; simpl; congruence. Qed.

Lemma text_repeat (c : ascii) (n : nat) :
  string_of_list_ascii (repeat c n) = str_mul c n.
Proof. induction n; simpl; congruence. Qed.

Lemma substring_chars (k m : nat) (s : string) :
  substring k m s
  = string_of_list_ascii (firstn m (skipn k (list_ascii_of_string s))).
Proof.
  revert m s. induction k as [|k IHk]; intros m s.
  - revert s. induction m as [|m IHm]; intros s.
    + destruct s; reflexivity.
    + destruct s as [|c s]; [reflexivity|].
      cbn [substring list_ascii_of_string skipn firstn string_of_list_ascii].
      rewrite IHm. reflexivity.
  - destruct s as [|c s].
    + destruct m; reflexivity.
    + cbn [substring list_ascii_of_string skipn]. apply IHk.
Qed.

(** The code's slices and repetition build the masked text of the
    specification. *)
Lemma masked_text_is_Mask_text (s : string) :
  (slice_to 2 s ++ str_mul "*" (String.length s - 4) ++ slice_last 2 s)%string
  = Mask_text s.
Proof.
  unfold slice_to, slice_last, Mask_text.
  rewrite !substring_chars, !text_app, text_repeat, length_chars.
  cbn [skipn]. do 2 f_equal.
  rewrite firstn_all2; [reflexivity|].
  rewrite length_skipn, length_chars. lia.
Qed.

Lemma Mask_text_length (s : string) :
  4 < String.length s -> String.length (Mask_text s) = String.length s.
Proof.
  intros H. unfold Mask_text.
  rewrite <- (length_chars (string_of_list_ascii _)),
    list_ascii_of_string_of_list_ascii.
  rewrite !length_app, repeat_length, length_skipn, length_firstn,
    length_chars.
  lia.
Qed.

Lemma Mask_text_twice (s : string) :
  4 < String.length s -> Mask_text (Mask_text s) = Mask_text s.
Proof.
  intros H. pose proof (Mask_text_length s H) as Hlen.
  unfold Mask_text at 1. rewrite length_chars, Hlen.
  unfold Mask_text. rewrite list_ascii_of_string_of_list_ascii.
  rewrite length_chars.
  set (l := list_ascii_of_string s). set (n := String.length s).
  assert (Hn : List.length l = n) by apply length_chars.
  assert (H2 : List.length (firstn 2 l) = 2)
    by (rewrite length_firstn; lia).
  f_equal. f_equal; [|f_equal].
  - rewrite firstn_app, H2, Nat.sub_diag, firstn_O, app_nil_r, firstn_firstn.
    reflexivity.
  - rewrite app_assoc, skipn_app.
    rewrite length_app, H2, repeat_length.
    replace (n - 2 - (2 + (n - 4))) with 0 by lia.
    rewrite skipn_all2 by (rewrite length_app, H2, repeat_length; lia).
    reflexivity.
Qed.

End Text.

Lemma existsb_map {A B} (f : A -> B) (p : B -> bool) (l : list A) :
  existsb p (map f l) = existsb (fun x => p (f x)) l.
Proof. induction l as [|x l IH]; simpl; congruence. Qed.

(** The code's test on a column name is the specification's. *)
Lemma should_mask_is_sensitive_name (cols : list string) (key : string) :
  existsb (fun sensitive => contains sensitive (lower key)) (map lower cols)
  = sensitive_name cols key.
Proof. rewrite existsb_map. reflexivity. Qed.

Lemma len_gt_4 (s : string) : (len s >? 4)%Z = (4 <? String.length s)%nat.
Proof.
  unfold len. rewrite Z.gtb_ltb.
  destruct (4 <? String.length s)%nat eqn:E.
  - apply Nat.ltb_lt in E. apply Z.ltb_lt. lia.
  - apply Nat.ltb_ge in E. apply Z.ltb_ge. lia.
Qed.

(** One turn of the loop stores the field as [Mask_field] gives it. *)
Lemma mask_item_is_Mask_field (cols : list string) (masked : dict)
  (key : string) (value : pyval) :
  mask_item (map lower cols) masked (key, value)
  = dict_set key (snd (Mask_field cols (key, value))) masked.
Proof.
  unfold mask_item, Mask_field.
  rewrite should_mask_is_sensitive_name.
  destruct (sensitive_name cols key); cbn [andb]; [|reflexivity].
  destruct value as [|s|n|b|o]; cbn [is_none negb snd]; try reflexivity.
  rewrite len_gt_4, masked_text_is_Mask_text.
  destruct (4 <? String.length s)%nat; reflexivity.
Qed.

Lemma Mask_field_name (cols : list string) (field : string * pyval) :
  fst (Mask_field cols field) = fst field.
Proof.
  destruct field as [k v]. unfold Mask_field.
  destruct (sensitive_name cols k); [|reflexivity].
  destruct v as [|s|n|b|o]; try reflexivity.
  destruct (4 <? String.length s)%nat; reflexivity.
Qed.

Lemma Mask_field_twice (cols : list string) (field : string * pyval) :
  Mask_field cols (Mask_field cols field) = Mask_field cols field.
Proof.
  destruct field as [k v]. unfold Mask_field.
  destruct (sensitive_name cols k) eqn:E.
  - destruct v as [|s|n|b|o]; rewrite ?E; try reflexivity.
    destruct (4 <? String.length s)%nat eqn:L; rewrite E.
    + apply Nat.ltb_lt in L.
      rewrite (Mask_text_length s L).
      replace (4 <? String.length s)%nat with true
        by (symmetry; apply Nat.ltb_lt; exact L).
      rewrite (Mask_text_twice s L). reflexivity.
    + reflexivity.
  - rewrite E. reflexivity.
Qed.

Open Scope list_scope.

Section Dict.

Lemma dict_set_new (k : string) (v : pyval) (d : dict) :
  ~ In k (map fst d) -> dict_set k v d = d ++ [(k, v)].
Proof.
  induction d as [|[k' v'] d IH]; intros H; [reflexivity|].
  cbn [dict_set]. destruct (String.eqb_spec k' k) as [->|Hne].
  - exfalso. apply H. left. reflexivity.
  - cbn [app]. rewrite IH; [reflexivity|].
    intros Hin. apply H. right. exact Hin.
Qed.

Lemma dict_set_keys (k : string) (v : pyval) (d : dict) :
  map fst (dict_set k v d)
  = if in_dec string_dec k (map fst d) then map fst d else map fst d ++ [k].
Proof.
  induction d as [|[k' v'] d IH]; [reflexivity|].
  cbn [dict_set]. destruct (String.eqb_spec k' k) as [->|Hne].
  - destruct (in_dec string_dec k (map fst ((k, v') :: d))) as [_|n];
      [reflexivity|].
    exfalso. apply n. left. reflexivity.
  - cbn [map fst]. rewrite IH.
    destruct (in_dec string_dec k (map fst d)) as [i|n];
      destruct (in_dec string_dec k (k' :: map fst d)) as [i'|n'];
      try reflexivity.
    + exfalso. apply n'. right. exact i.
    + exfalso. destruct i' as [E|i']; [apply Hne; exact E | apply n; exact i'].
Qed.

Lemma dict_set_keys_nodup (k : string) (v : pyval) (d : dict) :
  NoDup (map fst d) -> NoDup (map fst (dict_set k v d)).
Proof.
  intros H. rewrite dict_set_keys.
  destruct (in_dec string_dec k (map fst d)) as [i|n]; [exact H|].
  apply NoDup_app; [exact H | repeat constructor; intros [] | ].
  intros x Hx [<-|[]]. apply n. exact Hx.
Qed.

Lemma dict_set_values (P : string * pyval -> Prop) (k : string) (v : pyval)
  (d : dict) :
  P (k, v) -> Forall P d -> Forall P (dict_set k v d).
Proof.
  intros Hkv. induction d as [|[k' v'] d IH]; intros H.
  - repeat constructor. exact Hkv.
  - inversion H as [|x l Hx Hl]; subst. cbn [dict_set].
    destruct (String.eqb_spec k' k) as [->|Hne].
    + constructor; assumption.
    + constructor; [assumption | apply IH; assumption].
Qed.

End Dict.

Section MaskLoop.

Variable cols : list string.

Let loop (data acc : dict) : dict :=
  fold_left (mask_item (map lower cols)) data acc.

(** On a row with distinct names the loop appends the masked fields in
    order. *)
Lemma mask_loop_distinct (data acc : dict) :
  NoDup (map fst acc ++ map fst data) ->
  loop data acc = acc ++ map (Mask_field cols) data.
Proof.
  unfold loop. revert acc.
  induction data as [|[k v] data IH]; intros acc H.
  - cbn. rewrite app_nil_r. reflexivity.
  - cbn [fold_left map]. rewrite mask_item_is_Mask_field.
    cbn [map fst] in H.
    rewrite dict_set_new.
    + rewrite IH.
      * rewrite <- app_assoc. cbn [app]. do 2 f_equal.
        apply injective_projections;
          [symmetry; apply (Mask_field_name cols (k, v)) | reflexivity].
      * rewrite map_app. cbn [map fst]. rewrite <- app_assoc. exact H.
    + apply NoDup_remove_2 in H. intros Hin. apply H.
      apply in_or_app. left. exact Hin.
Qed.

(** Whatever the row, the loop leaves distinct names, and fields that
    masking does not change any more. *)
Lemma mask_loop_keys (data acc : dict) :
  NoDup (map fst acc) -> NoDup (map fst (loop data acc)).
Proof.
  unfold loop. revert acc.
  induction data as [|[k v] data IH]; intros acc H; [exact H|].
  cbn [fold_left]. apply IH. rewrite mask_item_is_Mask_field.
  apply dict_set_keys_nodup. exact H.
Qed.

Lemma mask_loop_settled (data acc : dict) :
  Forall (fun f => Mask_field cols f = f) acc ->
  Forall (fun f => Mask_field cols f = f) (loop data acc).
Proof.
  unfold loop. revert acc.
  induction data as [|[k v] data IH]; intros acc H; [exact H|].
  cbn [fold_left]. apply IH. rewrite mask_item_is_Mask_field.
  apply dict_set_values; [|exact H].
  pose proof (Mask_field_twice cols (k, v)) as T.
  pose proof (Mask_field_name cols (k, v)) as N.
  destruct (Mask_field cols (k, v)) as [k' v']. cbn [fst snd] in *.
  subst k'. exact T.
Qed.

End MaskLoop.

Lemma map_settled {A} (f : A -> A) (l : list A) :
  Forall (fun x => f x = x) l -> map f l = l.
Proof.
  induction 1 as [|x l Hx _ IH]; [reflexivity|].
  cbn [map]. rewrite Hx, IH. reflexivity.
Qed.

Lemma mask_sensitive_data_is_Mask (config : SecurityConfig) (row : dict)
  (columns : option (list string)) :
  NoDup (map fst row) ->
  mask_sensitive_data config row columns = Mask row (sensitive_columns config).
Proof.
  intros H. unfold mask_sensitive_data, Mask.
  rewrite mask_loop_distinct; [reflexivity | exact H].
Qed.

(** C4: on a row (a dict: distinct names) [mask_sensitive_data] gives
    each field as the specification's [Mask] does: a non-null value
    under a sensitive name becomes first two characters, stars, last
    two characters when it is a text longer than 4 (same length as
    before), and "****" otherwise; every other field is unchanged.  The
    example row comes out as stated. *)
Theorem mask_sensitive_data_rule (config : SecurityConfig) (row : dict)
  (columns : option (list string)) (Hrow : NoDup (map fst row)) :
  mask_sensitive_data config row columns = Mask row (sensitive_columns config)
  /\ (forall name s,
        sensitive_name (sensitive_columns config) name = true ->
        4 < String.length s ->
        Mask_field (sensitive_columns config) (name, VStr s)
        = (name, VStr (slice_to 2 s ++ str_mul "*" (String.length s - 4)
                       ++ slice_last 2 s)%string)
        /\ String.length (slice_to 2 s ++ str_mul "*" (String.length s - 4)
                          ++ slice_last 2 s)%string = String.length s)
  /\ (forall name value,
        sensitive_name (sensitive_columns config) name = true ->
        value <> VNone ->
        (forall s, value = VStr s -> String.length s <= 4) ->
        Mask_field (sensitive_columns config) (name, value)
        = (name, VStr "****"))
  /\ (forall name value,
        sensitive_name (sensitive_columns config) name = false
        \/ value = VNone ->
        Mask_field (sensitive_columns config) (name, value) = (name, value))
  /\ (sensitive_columns config = ["password"] ->
      mask_sensitive_data config password_row columns
      = [("password", VStr "hu***r2"); ("name", VStr "Ann")]).
Proof.
  split; [apply mask_sensitive_data_is_Mask; exact Hrow|].
  split; [|split; [|split]].
  - intros name s Hn Hs. rewrite masked_text_is_Mask_text.
    split; [|apply Mask_text_length; exact Hs].
    unfold Mask_field. rewrite Hn.
    replace (4 <? String.length s)%nat with true
      by (symmetry; apply Nat.ltb_lt; exact Hs).
    reflexivity.
  - intros name value Hn Hv Hs. unfold Mask_field. rewrite Hn.
    destruct value as [|s|n|b|o]; try reflexivity; [contradiction|].
    replace (4 <? String.length s)%nat with false
      by (symmetry; apply Nat.ltb_ge; apply Hs; reflexivity).
    reflexivity.
  - intros name value [Hn|Hv]; unfold Mask_field.
    + rewrite Hn. reflexivity.
    + subst value. destruct (sensitive_name _ name); reflexivity.
  - intros Hc. unfold mask_sensitive_data. rewrite Hc. reflexivity.
Qed.

Lemma mask_sensitive_data_rule_witness :
  mask_sensitive_data read_only_config password_row None
  = [("password", VStr "hu***r2"); ("name", VStr "Ann")].
Proof.
  assert (Hrow : NoDup (map fst password_row)).
  { repeat constructor; simpl; intuition discriminate. }
  apply (mask_sensitive_data_rule read_only_config password_row None Hrow).
  reflexivity.
Defined.

(** C5: masking a masked row changes nothing, whatever the row and the
    sensitive names; both applications return. *)
Theorem mask_sensitive_data_idempotent (config : SecurityConfig) (row : dict)
  (columns : option (list string)) :
  mask_sensitive_data config (mask_sensitive_data config row columns) columns
  = mask_sensitive_data config row columns.
Proof.
  assert (Hkeys : NoDup (map fst (mask_sensitive_data config row columns))).
  { apply (mask_loop_keys (sensitive_columns config) row []). constructor. }
  assert (Hset : Forall (fun f => Mask_field (sensitive_columns config) f = f)
                   (mask_sensitive_data config row columns)).
  { apply (mask_loop_settled (sensitive_columns config) row []). constructor. }
  rewrite (mask_sensitive_data_is_Mask config _ columns Hkeys).
  apply map_settled. exact Hset.
Qed.

(* ================================================================== *)
(** ** The pool configuration *)

(** C8 (as stated, refuted): [PoolConfig(min_size=5, max_size=2)] is
    accepted. *)
Lemma PoolConfig_accepts_min_above_max :
  ~ (forall a b cfg,
        PoolConfig_sized a b = Some cfg -> (min_size cfg <= max_size cfg)%Z).
Proof.
  intros H. specialize (H 5%Z 2%Z _ eq_refl). simpl in H. lia.
Qed.

(** C8 (amended): an accepted configuration has [1 <= min_size <= 10]
    and [1 <= max_size <= 50]; the two sizes are taken as given and are
    not compared with each other. *)
Theorem PoolConfig_init_bounds (a b idle timeout interval recycle : Z)
  (cfg : PoolConfig)
  (Hok : PoolConfig_init a b idle timeout interval recycle = Some cfg) :
  (1 <= min_size cfg <= 10)%Z /\ (1 <= max_size cfg <= 50)%Z
  /\ min_size cfg = a /\ max_size cfg = b.
Proof.
  unfold PoolConfig_init in Hok.
  destruct ((1 <=? a)%Z && (a <=? 10)%Z && (1 <=? b)%Z && (b <=? 50)%Z)
    eqn:E; [|discriminate].
  injection Hok as <-. cbn [min_size max_size].
  apply andb_prop in E as [E E4]. apply andb_prop in E as [E E3].
  apply andb_prop in E as [E1 E2].
  apply Z.leb_le in E1, E2, E3, E4. lia.
Qed.

Lemma PoolConfig_init_bounds_witness :
  exists cfg, PoolConfig_sized 5 2 = Some cfg
              /\ min_size cfg = 5%Z /\ max_size cfg = 2%Z.
Proof.
  eexists. split; [reflexivity|].
  apply (PoolConfig_init_bounds 5 2 300 30 60 3600). reflexivity.
Defined.

(* ================================================================== *)
(** ** The pool manager *)

Open Scope Z_scope.

Lemma initialize_step_delivers (w : World) (cs : list bool) :
  create_script w = true :: cs ->
  qfull w = false ->
  exists w1,
    initialize_step w = Ret tt w1
    /\ config w1 = config w
    /\ _pool w1 = (_pool w ++ [new_pooled (next_conn w) (clock w) (clock w)])%list
    /\ _active_connections w1 = _active_connections w + 1
    /\ _health_check_task w1 = _health_check_task w
    /\ opened w1 = next_conn w :: opened w
    /\ closed w1 = closed w
    /\ next_conn w1 = S (next_conn w)
    /\ create_script w1 = cs
    /\ clock w1 = clock w.
Proof.
  intros Hs Hf.
  unfold initialize_step, bind, _create_connection, utcnow, gets, queue_put,
    incr_active, modify.
  rewrite Hs. cbn [tl].
  unfold qfull, qsize in *. cbn [set_backend config _pool] in *.
  rewrite Hf. eexists. split; [reflexivity|].
  cbn. repeat split; reflexivity.
Qed.

Lemma initialize_step_fails (w : World) (cs : list bool) :
  create_script w = false :: cs ->
  exists w1,
    initialize_step w = Raise ConnectError w1
    /\ config w1 = config w
    /\ _pool w1 = _pool w
    /\ _active_connections w1 = _active_connections w
    /\ _health_check_task w1 = _health_check_task w
    /\ opened w1 = opened w
    /\ closed w1 = closed w.
Proof.
  intros Hs. unfold initialize_step, bind, _create_connection.
  rewrite Hs. eexists. split; [reflexivity|].
  cbn. repeat split; reflexivity.
Qed.

(** The loop of [initialize] when the factory delivers [k] connections
    and then fails: the [k] wrappers are in the queue, counted, and
    their connections open. *)
Lemma initialize_loop_fails (k : nat) :
  forall (n : nat) (w : World) (rest : list bool),
    create_script w = (repeat true k ++ false :: rest)%list ->
    (k < n)%nat ->
    max_size (config w) <= 0
    \/ Z.of_nat (length (_pool w)) + Z.of_nat k <= max_size (config w) ->
    exists w',
      for_range n initialize_step w = Raise ConnectError w'
      /\ config w' = config w
      /\ _pool w'
         = (_pool w
            ++ map (fun c => new_pooled c (clock w) (clock w))
                 (List.seq (next_conn w) k))%list
      /\ _active_connections w' = _active_connections w + Z.of_nat k
      /\ _health_check_task w' = _health_check_task w
      /\ opened w' = (rev (List.seq (next_conn w) k) ++ opened w)%list
      /\ closed w' = closed w.
Proof.
  induction k as [|k IH]; intros n w rest Hs Hk Hroom;
    (destruct n as [|n]; [lia|]); cbn [for_range]; unfold bind.
  - destruct (initialize_step_fails w rest Hs)
      as (w1 & -> & Hc & Hp & Ha & Ht & Ho & Hcl).
    exists w1. split; [reflexivity|].
    cbn [List.seq map rev app]. rewrite app_nil_r, Z.add_0_r.
    repeat split; assumption.
  - assert (Hf : qfull w = false).
    { unfold qfull, qsize.
      destruct (max_size (config w) <=? 0) eqn:E; [reflexivity|].
      apply Z.leb_gt in E. apply Z.leb_gt. lia. }
    destruct (initialize_step_delivers w _ Hs Hf)
      as (w1 & -> & Hc & Hp & Ha & Ht & Ho & Hcl & Hn & Hs1 & Hck).
    destruct (IH n w1 rest Hs1 ltac:(lia)) as (w' & Hrun & H').
    { rewrite Hc, Hp, length_app. cbn [length].
      destruct Hroom as [Hroom|Hroom]; [left; exact Hroom | right; lia]. }
    exists w'. split; [exact Hrun|].
    destruct H' as (Hc' & Hp' & Ha' & Ht' & Ho' & Hcl').
    rewrite Hc', Hp', Ha', Ht', Ho', Hcl', Hc, Hp, Ha, Ht, Ho, Hcl, Hn, Hck.
    cbn [List.seq map rev]. rewrite <- !app_assoc. cbn [app].
    repeat split; try reflexivity. lia.
Qed.

(** C6 (as stated, refuted): when the second of two initial creations
    fails, the first connection stays open, idle and counted. *)
Lemma initialize_failure_leaves_partial_pool :
  ~ (forall w',
        initialize second_create_fails = Raise ConnectError w' ->
        opened w' = [] /\ _pool w' = [] /\ _active_connections w' = 0).
Proof.
  intros H. specialize (H _ eq_refl). destruct H as (H & _).
  vm_compute in H. discriminate H.
Qed.

(** C6 (amended): when the factory fails on the creation after [k]
    successful ones, [initialize] raises the factory's error and starts
    no health-check task; the [k] connections made before stay open, in
    the idle queue, and counted in [_active_connections]. *)
Theorem initialize_failure_keeps_earlier_connections
  (cfg : PoolConfig) (k : nat) (rest healths : list bool) (now : Z)
  (Hmin : Z.of_nat k < min_size cfg)
  (Hmax : Z.of_nat k <= max_size cfg) :
  exists w',
    initialize (new_manager cfg (repeat true k ++ false :: rest) healths now)
    = Raise ConnectError w'
    /\ _health_check_task w' = None
    /\ map connection (_pool w') = List.seq 0 k
    /\ opened w' = rev (List.seq 0 k)
    /\ closed w' = []
    /\ _active_connections w' = Z.of_nat k.
Proof.
  set (w := new_manager cfg (repeat true k ++ false :: rest)%list healths now).
  destruct (initialize_loop_fails k (Z.to_nat (min_size cfg)) w rest)
    as (w' & Hrun & Hc & Hp & Ha & Ht & Ho & Hcl).
  - reflexivity.
  - lia.
  - right. cbn. lia.
  - exists w'. split.
    + unfold initialize, logger_info_kwargs, bind, gets.
      cbn [config info_enabled w new_manager].
      fold w. rewrite Hrun. reflexivity.
    + rewrite Ht, Hp, Ho, Hcl, Ha. cbn [w new_manager _pool opened closed
        _active_connections _health_check_task next_conn app].
      rewrite app_nil_r, map_map. cbn [new_pooled connection].
      rewrite map_id. repeat split; reflexivity.
Qed.

Lemma initialize_failure_keeps_earlier_connections_witness :
  exists w',
    initialize second_create_fails = Raise ConnectError w'
    /\ _health_check_task w' = None
    /\ map connection (_pool w') = [0%nat]
    /\ opened w' = [0%nat]
    /\ closed w' = []
    /\ _active_connections w' = 1.
Proof.
  apply (initialize_failure_keeps_earlier_connections
           two_to_five 1 [] [] 0); simpl; lia.
Defined.

(** The draining loop of [close] with enough fuel: it returns, the
    queue is empty, and every idle connection was closed, oldest
    first. *)
Lemma close_loop_drains (fuel : nat) :
  forall w : World,
    (length (_pool w) <= fuel)%nat ->
    exists w',
      close_loop fuel w = Ret tt w'
      /\ _pool w' = []
      /\ config w' = config w
      /\ _health_check_task w' = _health_check_task w
      /\ closed w' = (rev (map connection (_pool w)) ++ closed w)%list
      /\ checked_out w' = checked_out w.
Proof.
  induction fuel as [|fuel IH]; intros w Hlen.
  - exists w. destruct (_pool w) eqn:E; [|cbn in Hlen; lia].
    cbn. repeat split; reflexivity.
  - cbn [close_loop]. unfold bind, gets, qsize.
    destruct (_pool w) as [|p q] eqn:E.
    + exists w. cbn. rewrite E. repeat split; reflexivity.
    + replace (Z.of_nat (length (p :: q)) =? 0) with false
        by (symmetry; apply Z.eqb_neq; cbn [length]; lia).
      unfold try_except, queue_get_nowait, _close_connection, modify.
      rewrite E.
      destruct (IH (set_backend (remove_conn (connection p)
                                   (opened (set_pool q w)))
                      (connection p :: closed (set_pool q w))
                      (next_conn (set_pool q w))
                      (create_script (set_pool q w))
                      (health_script (set_pool q w)) (set_pool q w)))
        as (w' & Hrun & Hp & Hc & Ht & Hcl & Hco).
      { cbn. cbn in Hlen. lia. }
      rewrite Hrun. exists w'. split; [reflexivity|].
      rewrite Hp, Hc, Ht, Hcl, Hco. cbn.
      rewrite <- app_assoc. repeat split; reflexivity.
Qed.

(** [close] returns, with the queue drained and the counter at 0; the
    wrappers held by callers are not touched. *)
Lemma close_returns (w : World) :
  exists w',
    close w = Ret tt w'
    /\ _pool w' = []
    /\ _active_connections w' = 0
    /\ config w' = config w
    /\ closed w' = (rev (map connection (_pool w)) ++ closed w)%list
    /\ checked_out w' = checked_out w.
Proof.
  assert (Hrest : forall w1,
             _pool w1 = _pool w -> config w1 = config w ->
             closed w1 = closed w -> checked_out w1 = checked_out w ->
             exists w',
               match close_loop (Z.to_nat (qsize w1)) w1 with
               | Ret _ s => modify (set_active 0) s
               | Raise e s => Raise e s
               | Block s => Block s
               end = Ret tt w'
               /\ _pool w' = []
               /\ _active_connections w' = 0
               /\ config w' = config w
               /\ closed w' = (rev (map connection (_pool w)) ++ closed w)%list
               /\ checked_out w' = checked_out w).
  { intros w1 Hp1 Hc1 Hcl1 Hco1.
    destruct (close_loop_drains (Z.to_nat (qsize w1)) w1)
      as (w2 & Hrun & Hp & Hc & Ht & Hcl & Hco).
    { unfold qsize. lia. }
    rewrite Hrun. unfold modify. eexists. split; [reflexivity|].
    cbn. rewrite Hp, Hc, Hcl, Hco, Hp1, Hc1, Hcl1, Hco1.
    repeat split; reflexivity. }
  unfold close, bind, gets.
  destruct (_health_check_task w); unfold modify, ret; cbv beta iota;
    apply Hrest; reflexivity.
Qed.

(** C7 (the code at the failing run): with one slot, after initialize,
    acquire, close and the caller's release, the connection handed out
    before [close] has never been closed: it sits in the queue of the
    closed pool, open, where nothing will close it. *)
Theorem release_after_close_does_not_close :
  let w := run [Initialize; Acquire; Shutdown; Release 0%nat] one_slot_pool in
  ~ In 0%nat (closed w)
  /\ map connection (_pool w) = [0%nat]
  /\ In 0%nat (opened w).
Proof.
  vm_compute. split; [intros [] | split; [reflexivity | left; reflexivity]].
Qed.

(** The release that follows [close] directly, in general: the
    wrapper goes back into the queue that [close] has just emptied,
    [_close_connection] is not called, and the counter stays at 0.  (A
    later release closes its connection only when the queue has been
    filled up again in the meantime.) *)
Lemma release_after_close_returns_to_queue
  (w : World) (i : nat) (p : PooledConnection)
  (Hheld : nth_error (checked_out w) i = Some p) :
  exists w1 w2,
    close w = Ret tt w1
    /\ acquire_exit i w1 = Ret tt w2
    /\ _pool w2 = [p]
    /\ closed w2 = closed w1
    /\ opened w2 = opened w1
    /\ _active_connections w2 = 0
    /\ checked_out w2 = remove_nth i (checked_out w).
Proof.
  destruct (close_returns w) as (w1 & Hclose & Hp & Ha & Hc & Hcl & Hco).
  exists w1. eexists. split; [exact Hclose|].
  unfold acquire_exit. rewrite Hco, Hheld.
  unfold acquire_finally, try_except, queue_put_nowait, qfull, qsize.
  cbn [set_checked_out config _pool]. rewrite Hp. cbn [length Z.of_nat].
  replace (if max_size (config w1) <=? 0 then false
           else max_size (config w1) <=? 0) with false
    by (destruct (max_size (config w1) <=? 0); reflexivity).
  split; [reflexivity|]. cbn. rewrite Ha.
  repeat split; reflexivity.
Qed.

(** C1 (the code at the failing run): with [max_size = 1], after
    initialize, acquire, close, acquire, two connections are open and
    checked out: [close] has set the counter back to 0 while the first
    one was still out, so the second acquire creates another. *)
Theorem close_lets_acquire_exceed_max_size :
  let w := run [Initialize; Acquire; Shutdown; Acquire] one_slot_pool in
  max_size (config w) = 1
  /\ idle_count w + checked_out_count w = 2
  /\ live_count w = 2
  /\ _active_connections w = 1.
Proof. vm_compute. repeat split; reflexivity. Qed.

(** *** The bound between start-up and shutdown *)

Lemma same_manager_refl (w : World) : same_manager w w.
Proof. repeat split; reflexivity. Qed.

Lemma same_manager_trans (w1 w2 w3 : World) :
  same_manager w1 w2 -> same_manager w2 w3 -> same_manager w1 w3.
Proof.
  intros (A1 & A2 & A3 & A4) (B1 & B2 & B3 & B4).
  repeat split; congruence.
Qed.

Lemma same_manager_bounded (w w' : World) :
  same_manager w w' -> pool_bounded w -> pool_bounded w'.
Proof.
  intros (A1 & A2 & A3 & A4).
  unfold pool_bounded, idle_count, checked_out_count.
  rewrite A1, A2, A3, A4. tauto.
Qed.

Section Steady.

Lemma backend_only_create : backend_only _create_connection.
Proof.
  intros w. unfold _create_connection.
  destruct (create_script w) as [|[] ?]; (repeat split; reflexivity).
Qed.

Lemma backend_only_close (c : conn) : backend_only (_close_connection c).
Proof. intros w. (repeat split; reflexivity). Qed.

Lemma backend_only_healthy (c : conn) :
  backend_only (_is_connection_healthy c).
Proof.
  intros w. unfold _is_connection_healthy.
  destruct (health_script w) as [|[] ?]; (repeat split; reflexivity).
Qed.

Lemma backend_only_utcnow : backend_only utcnow.
Proof. intros w. (repeat split; reflexivity). Qed.

Lemma backend_only_should_recycle (p : PooledConnection) :
  backend_only (_should_recycle p).
Proof. intros w. (repeat split; reflexivity). Qed.

Lemma steady_lift {A} (m : M World A) : backend_only m -> steady (lift m).
Proof.
  intros H f Hf. unfold lift. specialize (H (world f)).
  destruct (m (world f)); cbn [world pooled];
    try (split; [exact H | exact Hf]); exact H.
Qed.

Lemma steady_ret {A} (a : A) : steady (ret a).
Proof. intros f Hf. split; [apply same_manager_refl | exact Hf]. Qed.

Lemma steady_bind {A B} (m : M Frame A) (k : A -> M Frame B) :
  steady m -> (forall a, steady (k a)) -> steady (bind m k).
Proof.
  intros Hm Hk f Hf. unfold bind. specialize (Hm f Hf).
  destruct (m f) as [a f1|e f1|f1]; [|exact Hm|exact Hm].
  destruct Hm as (Hs & Hw). specialize (Hk a f1 Hw).
  destruct (k a f1) as [b f2|e f2|f2]; [| |exact Hk];
    (split; [eapply same_manager_trans; [exact Hs | apply Hk] | apply Hk]).
Qed.

Lemma steady_set_pooled (p : PooledConnection) : steady (set_pooled p).
Proof.
  intros f _. split; [apply same_manager_refl | exists p; reflexivity].
Qed.

Lemma steady_the_pooled : steady the_pooled.
Proof.
  intros f Hf. unfold the_pooled. destruct (pooled f) eqn:E;
    (split; [apply same_manager_refl | exact Hf]).
Qed.

Lemma steady_fresh_pooled : steady fresh_pooled.
Proof.
  unfold fresh_pooled.
  apply steady_bind; [apply steady_lift, backend_only_create | intros c].
  apply steady_bind; [apply steady_lift, backend_only_utcnow | intros t1].
  apply steady_bind; [apply steady_lift, backend_only_utcnow | intros t2].
  apply steady_set_pooled.
Qed.

Lemma steady_replace (b : bool) (c : conn) :
  steady (if b then bind (lift (_close_connection c)) (fun _ => fresh_pooled)
          else ret tt).
Proof.
  destruct b; [|apply steady_ret].
  apply steady_bind; [apply steady_lift, backend_only_close | intros _].
  apply steady_fresh_pooled.
Qed.

(** Recycling, the health check and the stamps work on the backend and
    on the local [pooled] only; they return or raise with a wrapper in
    [pooled]. *)
Lemma steady_acquire_prepare : steady acquire_prepare.
Proof.
  unfold acquire_prepare.
  apply steady_bind; [apply steady_the_pooled | intros p].
  apply steady_bind;
    [apply steady_lift, backend_only_should_recycle | intros r].
  apply steady_bind; [apply steady_replace | intros _].
  apply steady_bind; [apply steady_the_pooled | intros p1].
  apply steady_bind; [apply steady_lift, backend_only_healthy | intros h].
  apply steady_bind; [apply steady_replace | intros _].
  apply steady_bind; [apply steady_the_pooled | intros p2].
  apply steady_bind; [apply steady_lift, backend_only_utcnow | intros now].
  apply steady_bind; [apply steady_set_pooled | intros _].
  apply steady_ret.
Qed.

End Steady.

Ltac fields :=
  unfold idle_count, checked_out_count in *;
  cbv beta;
  cbn [world pooled config _pool _active_connections _health_check_task
       info_enabled
       opened closed next_conn create_script health_script clock checked_out
       set_pool set_active set_task set_backend set_clock set_checked_out
       set_logging]
    in *.

(** The overflow block of [acquire] on a frame without a wrapper. *)
Lemma acquire_overflow_cases (w : World) :
  match acquire_overflow {| world := w; pooled := None |} with
  | Ret _ f =>
      holds_wrapper f
      /\ config (world f) = config w
      /\ _pool (world f) = _pool w
      /\ checked_out (world f) = checked_out w
      /\ _active_connections (world f) = _active_connections w + 1
      /\ _active_connections w < max_size (config w)
  | Raise _ f => pooled f = None /\ same_manager w (world f)
  | Block _ => False
  end.
Proof.
  unfold acquire_overflow, fresh_pooled, set_pooled, incr_active,
    _create_connection, utcnow, raise.
  unfold bind, lift, gets, modify, holds_wrapper, same_manager.
  fields.
  destruct (_active_connections w <? max_size (config w)) eqn:E; fields.
  - apply Z.ltb_lt in E.
    destruct (create_script w) as [|[] ?]; fields.
    + split; [eexists; reflexivity | repeat split; (reflexivity || exact E)].
    + split; [eexists; reflexivity | repeat split; (reflexivity || exact E)].
    + split; [reflexivity | repeat split; reflexivity].
  - split; [reflexivity | repeat split; reflexivity].
Qed.

(** The first part of [acquire] ends with a wrapper in the caller's
    hand that is not yet in [checked_out], or raises with none. *)
Lemma acquire_obtain_cases (w : World) :
  pool_bounded w ->
  match acquire_obtain {| world := w; pooled := None |} with
  | Ret _ f =>
      holds_wrapper f
      /\ idle_count (world f) + checked_out_count (world f) + 1
         = _active_connections (world f)
      /\ _active_connections (world f) <= max_size (config (world f))
  | Raise _ f => pooled f = None /\ same_manager w (world f)
  | Block _ => False
  end.
Proof.
  intros (Hsum & Hmax).
  pose proof (acquire_overflow_cases w) as Hover.
  assert (Hcase :
            match acquire_overflow {| world := w; pooled := None |} with
            | Ret _ f =>
                holds_wrapper f
                /\ idle_count (world f) + checked_out_count (world f) + 1
                   = _active_connections (world f)
                /\ _active_connections (world f) <= max_size (config (world f))
            | Raise _ f => pooled f = None /\ same_manager w (world f)
            | Block _ => False
            end).
  { destruct (acquire_overflow {| world := w; pooled := None |})
      as [[] f|e f|f]; [|exact Hover|exact Hover].
    destruct Hover as (Hf & Hc & Hp & Hco & Ha & E).
    unfold idle_count, checked_out_count in *.
    rewrite Hc, Hp, Hco, Ha. split; [exact Hf | lia]. }
  unfold acquire_obtain, queue_get_wait_for, set_pooled.
  unfold bind at 1. unfold lift at 1. unfold gets at 1. fields.
  unfold try_except, bind, lift, modify. fields.
  destruct (connection_timeout_seconds (config w) <=? 0); [exact Hcase|].
  destruct (_pool w) as [|p q] eqn:Ep; [exact Hcase|].
  fields. cbn [length] in Hsum.
  split; [eexists; reflexivity | lia].
Qed.

Lemma put_back_bounded (w : World) (p : PooledConnection) :
  idle_count w + checked_out_count w + 1 = _active_connections w ->
  _active_connections w <= max_size (config w) ->
  match acquire_finally (Some p) w with
  | Ret _ w' | Raise _ w' => pool_bounded w'
  | Block _ => False
  end.
Proof.
  intros Hsum Hmax.
  unfold acquire_finally, try_except, queue_put_nowait, qfull, qsize, bind,
    _close_connection, incr_active, modify, pool_bounded, idle_count,
    checked_out_count in *.
  destruct (max_size (config w) <=? 0) eqn:E0.
  - cbn. rewrite length_app. cbn [length]. lia.
  - destruct (max_size (config w) <=? Z.of_nat (length (_pool w))) eqn:E1.
    + cbn. lia.
    + cbn. rewrite length_app. cbn [length]. lia.
Qed.

(** Entering [acquire] keeps the bound, whether it hands out a
    connection or raises. *)
Lemma acquire_enter_bounded (w : World) :
  pool_bounded w ->
  match acquire_enter w with
  | Ret _ w' | Raise _ w' => pool_bounded w'
  | Block _ => False
  end.
Proof.
  intros Hw. pose proof (acquire_obtain_cases w Hw) as Ho.
  unfold acquire_enter, acquire_body, bind.
  destruct (acquire_obtain {| world := w; pooled := None |})
    as [[] f|e f|f]; [| |exact Ho].
  - destruct Ho as (Hf & Hsum & Hmax).
    pose proof (steady_acquire_prepare f Hf) as Hp.
    destruct (acquire_prepare f) as [c f'|e f'|f']; [| |exact Hp].
    + destruct Hp as ((C1 & C2 & C3 & C4) & (p & Hp)). rewrite Hp.
      unfold pool_bounded, idle_count, checked_out_count in *. cbn.
      rewrite length_app, C1, C2, C3, C4. cbn [length]. lia.
    + destruct Hp as ((C1 & C2 & C3 & C4) & (p & Hp)). rewrite Hp.
      assert (Hput := put_back_bounded (world f') p).
      destruct (acquire_finally (Some p) (world f'));
        apply Hput; unfold idle_count, checked_out_count in *;
        rewrite ?C1, ?C2, ?C3, ?C4; assumption.
  - destruct Ho as (Hn & Hs). rewrite Hn. cbn.
    apply (same_manager_bounded w); assumption.
Qed.

Lemma remove_nth_length {A} (i : nat) (l : list A) (x : A) :
  nth_error l i = Some x -> length l = S (length (remove_nth i l)).
Proof.
  revert i. induction l as [|y l IH]; intros [|i] H; try discriminate.
  - reflexivity.
  - cbn [remove_nth length]. f_equal. apply IH. exact H.
Qed.

(** Leaving [acquire] keeps the bound. *)
Lemma acquire_exit_bounded (i : nat) (w : World) :
  pool_bounded w ->
  match acquire_exit i w with
  | Ret _ w' | Raise _ w' => pool_bounded w'
  | Block _ => False
  end.
Proof.
  intros Hw. unfold acquire_exit.
  destruct (nth_error (checked_out w) i) as [p|] eqn:E; [|exact Hw].
  apply remove_nth_length in E. destruct Hw as (Hsum & Hmax).
  apply put_back_bounded;
    unfold idle_count, checked_out_count in *; cbn; [|exact Hmax].
  rewrite E in Hsum. lia.
Qed.

(** One turn of the loop of [initialize] on a pool with room for one
    more. *)
Lemma initialize_step_bounded (w : World) :
  pool_bounded w ->
  _active_connections w + 1 <= max_size (config w) ->
  match initialize_step w with
  | Ret _ w' =>
      pool_bounded w'
      /\ config w' = config w
      /\ _active_connections w' = _active_connections w + 1
  | Raise _ w' => same_manager w w'
  | Block _ => False
  end.
Proof.
  intros (Hsum & Hmax) Hroom.
  unfold initialize_step, queue_put, incr_active, _create_connection, utcnow,
    qfull, qsize.
  unfold bind, gets, modify, pool_bounded, same_manager in *.
  fields.
  assert (Hfull : (if max_size (config w) <=? 0 then false
                   else max_size (config w) <=? Z.of_nat (length (_pool w)))
                  = false).
  { destruct (max_size (config w) <=? 0); [reflexivity|].
    apply Z.leb_gt. lia. }
  destruct (create_script w) as [|[] ?]; fields; rewrite ?Hfull; fields;
    rewrite ?length_app; cbn [length];
    repeat split; try reflexivity; lia.
Qed.

(** The loop of [initialize] on a pool with room for [n] more: it
    returns or raises, within the bound. *)
Lemma initialize_loop_bounded (n : nat) :
  forall w : World,
    pool_bounded w ->
    _active_connections w + Z.of_nat n <= max_size (config w) ->
    match for_range n initialize_step w with
    | Ret _ w' | Raise _ w' => pool_bounded w'
    | Block _ => False
    end.
Proof.
  induction n as [|n IH]; intros w Hw Hroom; [exact Hw|].
  cbn [for_range]. unfold bind.
  pose proof (initialize_step_bounded w Hw ltac:(lia)) as Hstep.
  destruct (initialize_step w) as [[] w1|e w1|w1]; [| |exact Hstep].
  - destruct Hstep as (Hb & Hc & Ha). apply IH; [exact Hb|].
    rewrite Hc, Ha. lia.
  - apply (same_manager_bounded w); assumption.
Qed.

Lemma initialize_bounded (w : World) :
  pool_bounded w ->
  _active_connections w + Z.of_nat (Z.to_nat (min_size (config w)))
  <= max_size (config w) ->
  match initialize w with
  | Ret _ w' | Raise _ w' => pool_bounded w'
  | Block _ => False
  end.
Proof.
  intros Hw Hroom. unfold initialize, logger_info_kwargs, bind, gets, modify.
  destruct (info_enabled w); [exact Hw|].
  pose proof (initialize_loop_bounded _ w Hw Hroom) as Hloop.
  destruct (for_range _ initialize_step w) as [[] w1|e w1|w1];
    try exact Hloop.
  destruct (info_enabled (set_task (Some TaskRunning) w1)); exact Hloop.
Qed.

Lemma step_traffic_bounded (o : op) (w : World) :
  traffic o = true ->
  pool_bounded w ->
  match step o w with
  | Ret _ w' | Raise _ w' => pool_bounded w'
  | Block _ => False
  end.
Proof.
  intros Ho Hw. destruct o as [| |i| |dt|]; try discriminate Ho; cbn [step].
  - unfold discard, bind, ret.
    pose proof (acquire_enter_bounded w Hw) as H.
    destruct (acquire_enter w); exact H.
  - apply acquire_exit_bounded. exact Hw.
  - exact Hw.
Qed.

Lemma run_traffic_bounded (ops : list op) :
  forall w : World,
    forallb traffic ops = true ->
    pool_bounded w ->
    pool_bounded (run ops w).
Proof.
  induction ops as [|o ops IH]; intros w Hops Hw; [exact Hw|].
  cbn [forallb] in Hops. apply andb_prop in Hops as [Ho Hops].
  cbn [run]. pose proof (step_traffic_bounded o w Ho Hw) as H.
  destruct (step o w) as [[] w'|e w'|w']; [| |contradiction];
    apply IH; assumption.
Qed.

(** The bound that C1 states does hold on the runs that the defect
    does not touch: one [initialize] on a new manager whose sizes are
    in order, then any traffic of the callers (acquire, release, the
    clock moving on) with no pass of the health-check task in between,
    whatever the factory does. *)
Lemma pool_bounded_from_initialize_to_close
  (cfg : PoolConfig) (creates healths : list bool) (now : Z) (ops : list op) :
  min_size cfg <= max_size cfg ->
  0 <= max_size cfg ->
  forallb traffic ops = true ->
  let w := run (Initialize :: ops) (new_manager cfg creates healths now) in
  idle_count w + checked_out_count w <= max_size (config w)
  /\ pool_bounded w.
Proof.
  intros Hmin Hmax Hops w.
  assert (Hw : pool_bounded w).
  { unfold w. cbn [run step].
    set (w0 := new_manager cfg creates healths now).
    assert (H0 : pool_bounded w0) by (split; cbn; lia).
    pose proof (initialize_bounded w0 H0) as Hinit.
    destruct (initialize w0) as [[] w1|e w1|w1].
    - apply run_traffic_bounded; [exact Hops | apply Hinit; cbn; lia].
    - apply run_traffic_bounded; [exact Hops | apply Hinit; cbn; lia].
    - exfalso. apply Hinit; cbn; lia. }
  split; [|exact Hw]. destruct Hw as (Hsum & Hle). lia.
Qed.

(* ================================================================== *)
(** ** More on the pool manager *)

(** One turn of the loop of [initialize] when the coming creation does
    not fail and the queue has room. *)
Lemma initialize_step_returns (w : World) :
  hd true (create_script w) = true ->
  qfull w = false ->
  exists w1,
    initialize_step w = Ret tt w1
    /\ config w1 = config w
    /\ _pool w1 = _pool w ++ [new_pooled (next_conn w) (clock w) (clock w)]
    /\ _active_connections w1 = _active_connections w + 1
    /\ _health_check_task w1 = _health_check_task w
    /\ opened w1 = next_conn w :: opened w
    /\ closed w1 = closed w
    /\ next_conn w1 = S (next_conn w)
    /\ create_script w1 = tl (create_script w)
    /\ clock w1 = clock w
    /\ checked_out w1 = checked_out w.
Proof.
  intros Hs Hf.
  unfold initialize_step, bind, _create_connection, utcnow, gets, queue_put,
    incr_active, modify.
  unfold qfull, qsize in *.
  destruct (create_script w) as [|[] cs]; [| |discriminate Hs];
    cbn [set_backend config _pool tl] in *; rewrite Hf;
    (eexists; split; [reflexivity|]); cbn; repeat split; reflexivity.
Qed.

Lemma initialize_loop_returns (n : nat) :
  forall w : World,
    forallb (fun b => b) (firstn n (create_script w)) = true ->
    max_size (config w) <= 0
    \/ Z.of_nat (length (_pool w)) + Z.of_nat n <= max_size (config w) ->
    exists w',
      for_range n initialize_step w = Ret tt w'
      /\ config w' = config w
      /\ _pool w'
         = _pool w
           ++ map (fun c => new_pooled c (clock w) (clock w))
                (List.seq (next_conn w) n)
      /\ _active_connections w' = _active_connections w + Z.of_nat n
      /\ _health_check_task w' = _health_check_task w
      /\ opened w' = rev (List.seq (next_conn w) n) ++ opened w
      /\ closed w' = closed w
      /\ checked_out w' = checked_out w.
Proof.
  induction n as [|n IH]; intros w Hs Hroom.
  - exists w. cbn. rewrite app_nil_r, Z.add_0_r. repeat split; reflexivity.
  - cbn [for_range]. unfold bind.
    assert (Hf : qfull w = false).
    { unfold qfull, qsize.
      destruct (max_size (config w) <=? 0) eqn:E; [reflexivity|].
      apply Z.leb_gt in E. apply Z.leb_gt. lia. }
    assert (Hhd : hd true (create_script w) = true
                  /\ forallb (fun b => b) (firstn n (tl (create_script w)))
                     = true).
    { destruct (create_script w) as [|b cs]; cbn in *.
      - split; [reflexivity | destruct n; reflexivity].
      - apply andb_prop in Hs. exact Hs. }
    destruct Hhd as (Hhd & Htl).
    destruct (initialize_step_returns w Hhd Hf)
      as (w1 & -> & Hc & Hp & Ha & Ht & Ho & Hcl & Hn & Hs1 & Hck & Hco).
    destruct (IH w1) as (w' & Hrun & Hc' & Hp' & Ha' & Ht' & Ho' & Hcl' & Hco').
    { rewrite Hs1. exact Htl. }
    { rewrite Hc, Hp, length_app. cbn [length].
      destruct Hroom as [Hroom|Hroom]; [left; exact Hroom | right; lia]. }
    exists w'. split; [exact Hrun|].
    rewrite Hc', Hp', Ha', Ht', Ho', Hcl', Hco', Hc, Hp, Ha, Ht, Ho, Hcl, Hn,
      Hck, Hco.
    cbn [List.seq map rev]. rewrite <- !app_assoc. cbn [app].
    repeat split; try reflexivity. lia.
Qed.

(** With the logger enabled for INFO, [initialize] stops at its first
    statement: the [info] call raises, and nothing has been done. *)
Lemma initialize_raises_on_info (w : World) :
  info_enabled w = true -> initialize w = Raise TypeError w.
Proof.
  intros H. unfold initialize, logger_info_kwargs, bind.
  rewrite H. reflexivity.
Qed.

(** The loop of [initialize] does not touch the logger. *)
Lemma initialize_step_logging (w : World) :
  info_enabled (state_of (initialize_step w)) = info_enabled w.
Proof.
  unfold initialize_step, bind, _create_connection, utcnow, gets, queue_put,
    incr_active, modify.
  destruct (create_script w) as [|[] cs]; cbn [state_of set_backend];
    try reflexivity;
    match goal with |- context [qfull ?x] => destruct (qfull x) end;
    reflexivity.
Qed.

Lemma initialize_loop_logging (n : nat) :
  forall w : World,
    info_enabled (state_of (for_range n initialize_step w)) = info_enabled w.
Proof.
  induction n as [|n IH]; intros w; [reflexivity|].
  cbn [for_range]. unfold bind.
  pose proof (initialize_step_logging w) as Hstep.
  destruct (initialize_step w) as [[] w1|e w1|w1]; cbn [state_of] in *;
    try exact Hstep.
  rewrite IH. exact Hstep.
Qed.

(** X1.  [initialize] on a new manager.  With the logger enabled for
    INFO it raises [TypeError] at its first statement and leaves the
    manager as it was.  Otherwise, when the factory delivers, the queue
    holds [min_size] wrappers afterwards, nothing is checked out, the
    counter is [min_size], every connection made is open, and the
    health-check task runs. *)
Theorem initialize_fills_to_min_size
  (cfg : PoolConfig) (creates healths : list bool) (now : Z) (info : bool)
  (Hcreates : forallb (fun b => b)
                (firstn (Z.to_nat (min_size cfg)) creates) = true)
  (Hsizes : max_size cfg <= 0 \/ min_size cfg <= max_size cfg) :
  let w := set_logging info (new_manager cfg creates healths now) in
  (info = true -> initialize w = Raise TypeError w)
  /\ (info = false ->
      exists w',
        initialize w = Ret tt w'
        /\ idle_count w' = Z.max 0 (min_size cfg)
        /\ checked_out w' = []
        /\ _active_connections w' = Z.max 0 (min_size cfg)
        /\ map connection (_pool w') = List.seq 0 (Z.to_nat (min_size cfg))
        /\ opened w' = rev (List.seq 0 (Z.to_nat (min_size cfg)))
        /\ closed w' = []
        /\ _health_check_task w' = Some TaskRunning).
Proof.
  intros w. split.
  { intros ->. apply initialize_raises_on_info. reflexivity. }
  intros ->.
  destruct (initialize_loop_returns (Z.to_nat (min_size cfg)) w)
    as (w' & Hrun & Hc & Hp & Ha & Ht & Ho & Hcl & Hco).
  - exact Hcreates.
  - unfold w. cbn [new_manager set_logging config _pool length].
    destruct (Z.le_gt_cases (max_size cfg) 0); [left | right]; lia.
  - pose proof (initialize_loop_logging (Z.to_nat (min_size cfg)) w) as Hlog.
    rewrite Hrun in Hlog. cbn [state_of] in Hlog.
    eexists. split.
    + unfold initialize, logger_info_kwargs, bind, gets, modify.
      change (info_enabled w) with false. cbv iota.
      change (config w) with cfg. rewrite Hrun.
      cbn [info_enabled set_task]. rewrite Hlog.
      change (info_enabled w) with false. reflexivity.
    + unfold idle_count. cbn [set_task _pool checked_out _active_connections
        opened closed _health_check_task].
      rewrite Hp, Ha, Ho, Hcl, Hco.
      cbn [w new_manager set_logging _pool opened closed _active_connections
           checked_out next_conn app].
      rewrite app_nil_r, map_map, length_map, length_seq. cbn [new_pooled connection].
      rewrite map_id. repeat split; try reflexivity; lia.
Qed.

Lemma initialize_fills_to_min_size_witness :
  initialize (set_logging true (new_manager two_to_five [] [] 0))
  = Raise TypeError (set_logging true (new_manager two_to_five [] [] 0))
  /\ exists w',
       initialize (set_logging false (new_manager two_to_five [] [] 0))
       = Ret tt w'
       /\ idle_count w' = 2
       /\ _active_connections w' = 2
       /\ _health_check_task w' = Some TaskRunning.
Proof.
  split.
  - apply (initialize_fills_to_min_size two_to_five [] [] 0 true);
      [reflexivity | right; simpl; lia | reflexivity].
  - destruct (initialize_fills_to_min_size two_to_five [] [] 0 false)
      as (_ & H).
    + reflexivity.
    + right. simpl. lia.
    + destruct (H eq_refl) as (w' & H1 & H2 & _ & H4 & _ & _ & _ & H8).
      exists w'. repeat split; assumption.
Defined.

(** The loop of [initialize] when the queue fills up before the loop is
    done: the connection made next has no place and the loop waits. *)
Lemma initialize_loop_blocks (k : nat) :
  forall (n : nat) (w : World),
    (k < n)%nat ->
    forallb (fun b => b) (firstn (S k) (create_script w)) = true ->
    0 < max_size (config w) ->
    Z.of_nat (length (_pool w)) + Z.of_nat k = max_size (config w) ->
    exists w',
      for_range n initialize_step w = Block w'
      /\ Z.of_nat (length (_pool w')) = max_size (config w)
      /\ _active_connections w' = _active_connections w + Z.of_nat k
      /\ _health_check_task w' = _health_check_task w
      /\ length (opened w') = (length (opened w) + S k)%nat
      /\ closed w' = closed w.
Proof.
  induction k as [|k IH]; intros n w Hk Hs Hmax Hlen;
    (destruct n as [|n]; [lia|]); cbn [for_range]; unfold bind.
  - unfold initialize_step, bind, _create_connection, utcnow, gets, queue_put,
      qfull, qsize.
    assert (Hhd : hd true (create_script w) = true).
    { destruct (create_script w) as [|b cs]; [reflexivity|].
      cbn in Hs. rewrite andb_true_r in Hs. exact Hs. }
    destruct (create_script w) as [|[] cs]; [| |discriminate Hhd];
      cbn [set_backend config _pool];
      replace (max_size (config w) <=? 0) with false
        by (symmetry; apply Z.leb_gt; lia);
      replace (max_size (config w) <=? Z.of_nat (length (_pool w))) with true
        by (symmetry; apply Z.leb_le; lia);
      (eexists; split; [reflexivity|]); cbn;
      repeat split; try reflexivity; lia.
  - assert (Hf : qfull w = false).
    { unfold qfull, qsize.
      replace (max_size (config w) <=? 0) with false
        by (symmetry; apply Z.leb_gt; lia).
      apply Z.leb_gt. lia. }
    assert (Hhd : hd true (create_script w) = true
                  /\ forallb (fun b => b)
                       (firstn (S k) (tl (create_script w))) = true).
    { destruct (create_script w) as [|b cs].
      - split; reflexivity.
      - cbn [firstn forallb] in Hs. apply andb_prop in Hs. exact Hs. }
    destruct Hhd as (Hhd & Htl).
    destruct (initialize_step_returns w Hhd Hf)
      as (w1 & -> & Hc & Hp & Ha & Ht & Ho & Hcl & Hn & Hs1 & Hck & Hco).
    destruct (IH n w1) as (w' & Hrun & Hl' & Ha' & Ht' & Ho' & Hcl').
    + lia.
    + rewrite Hs1. exact Htl.
    + rewrite Hc. exact Hmax.
    + rewrite Hc, Hp, length_app. cbn [length]. lia.
    + exists w'. split; [exact Hrun|].
      rewrite Hl', Ha', Ht', Ho', Hcl', Hc, Ha, Ht, Ho, Hcl.
      cbn [length]. repeat split; try reflexivity; lia.
Qed.

(** X2.  With [min_size] above [max_size], [initialize] on a new
    manager never returns normally.  With the logger enabled for INFO
    it raises [TypeError] at once.  Otherwise, when the factory
    delivers: once [max_size] wrappers are queued, the next connection
    is made and the [put] waits for room; that connection is open but
    neither queued nor counted, and no health-check task is started. *)
Theorem initialize_blocks_when_min_exceeds_max
  (cfg : PoolConfig) (creates healths : list bool) (now : Z) (info : bool)
  (Hmax : 0 < max_size cfg)
  (Hmin : max_size cfg < min_size cfg)
  (Hcreates : forallb (fun b => b)
                (firstn (S (Z.to_nat (max_size cfg))) creates) = true) :
  let w := set_logging info (new_manager cfg creates healths now) in
  (info = true -> initialize w = Raise TypeError w)
  /\ (info = false ->
      exists w',
        initialize w = Block w'
        /\ idle_count w' = max_size cfg
        /\ _active_connections w' = max_size cfg
        /\ live_count w' = max_size cfg + 1
        /\ _health_check_task w' = None).
Proof.
  intros w. split.
  { intros ->. apply initialize_raises_on_info. reflexivity. }
  intros ->.
  destruct (initialize_loop_blocks (Z.to_nat (max_size cfg))
              (Z.to_nat (min_size cfg)) w)
    as (w' & Hrun & Hl & Ha & Ht & Ho & Hcl).
  - lia.
  - exact Hcreates.
  - exact Hmax.
  - cbn. lia.
  - exists w'. split.
    + unfold initialize, logger_info_kwargs, bind, gets.
      change (info_enabled w) with false. cbv iota.
      change (config w) with cfg. rewrite Hrun. reflexivity.
    + unfold idle_count, live_count. rewrite Hl, Ha, Ht, Ho.
      cbn [w new_manager set_logging config _active_connections
           _health_check_task opened length].
      repeat split; try reflexivity; lia.
Qed.

(** Unfolding of the methods down to the state. *)
Ltac unfold_pool :=
  unfold acquire_enter, acquire_exit, acquire_body, acquire_obtain,
    acquire_overflow, acquire_prepare, acquire_finally, fresh_pooled,
    the_pooled, set_pooled, _should_recycle, incr_active,
    health_check_pass, health_check_one,
    queue_get_wait_for, queue_get_nowait, queue_put_nowait, queue_put,
    _create_connection, _close_connection, _is_connection_healthy, utcnow,
    qfull, qsize, try_except, raise, ret, lift, bind, gets, modify in *.

Ltac pool_simpl :=
  cbv beta;
  cbn [world pooled config _pool _active_connections _health_check_task
       info_enabled
       opened closed next_conn create_script health_script clock checked_out
       set_pool set_active set_task set_backend set_clock set_checked_out
       set_logging
       connection created_at last_used_at use_count is_healthy new_pooled
       tl hd negb] in *.

Ltac pool_with tac := repeat (progress (pool_simpl; try tac)).

(** X4.  With nothing idle (or a timeout that cannot wait) and the
    counter at [max_size], [acquire] raises "pool exhausted" and leaves
    the manager and the backend exactly as they were. *)
Theorem acquire_exhausted_changes_nothing (w : World)
  (Hidle : _pool w = [] \/ connection_timeout_seconds (config w) <= 0)
  (Hfull : max_size (config w) <= _active_connections w) :
  acquire_enter w = Raise PoolExhausted w.
Proof.
  assert (Hlt : (_active_connections w <? max_size (config w)) = false)
    by (apply Z.ltb_ge; exact Hfull).
  unfold_pool.
  destruct Hidle as [Hidle|Hidle].
  - pool_with ltac:(rewrite ?Hidle, ?Hlt).
    destruct (connection_timeout_seconds (config w) <=? 0);
      pool_with ltac:(rewrite ?Hidle, ?Hlt); reflexivity.
  - apply Z.leb_le in Hidle.
    pool_with ltac:(rewrite ?Hidle, ?Hlt). reflexivity.
Qed.

(** X5.  A wrapper older than [recycle_connections_seconds] is not
    handed out: its connection is closed, and the caller gets a
    connection made at that moment, in a wrapper created now and used
    once; the counter does not move. *)
Theorem acquire_recycles_old_connection
  (w : World) (p : PooledConnection) (q : list PooledConnection)
  (Hpool : _pool w = p :: q)
  (Htimeout : 0 < connection_timeout_seconds (config w))
  (Hold : recycle_connections_seconds (config w) < clock w - created_at p)
  (Hcreate : hd true (create_script w) = true)
  (Hhealth : hd true (health_script w) = true) :
  exists w',
    acquire_enter w = Ret (next_conn w) w'
    /\ checked_out w'
       = checked_out w
         ++ [{| connection := next_conn w; created_at := clock w;
                last_used_at := clock w; use_count := 1;
                is_healthy := true |}]
    /\ _pool w' = q
    /\ closed w' = connection p :: closed w
    /\ opened w' = next_conn w :: remove_conn (connection p) (opened w)
    /\ _active_connections w' = _active_connections w.
Proof.
  assert (Ht : (connection_timeout_seconds (config w) <=? 0) = false)
    by (apply Z.leb_gt; exact Htimeout).
  assert (Ho : (clock w - created_at p
                >? recycle_connections_seconds (config w)) = true)
    by (rewrite Z.gtb_ltb; apply Z.ltb_lt; exact Hold).
  unfold_pool.
  pool_with ltac:(rewrite ?Ht, ?Hpool, ?Ho).
  destruct (create_script w) as [|[] cs]; [| |discriminate Hcreate];
    pool_with idtac;
    (destruct (health_script w) as [|[] hs]; [| |discriminate Hhealth]);
    pool_with idtac;
    (eexists; split; [reflexivity|]); pool_with idtac;
    repeat split; reflexivity.
Qed.

(** X6.  When the replacement for an old wrapper cannot be made,
    [acquire] raises the factory's error and its [finally] block puts
    the old wrapper back: the idle queue then holds a wrapper whose
    connection has been closed, still counted as active. *)
Theorem failed_recycle_requeues_closed_connection
  (w : World) (p : PooledConnection) (q : list PooledConnection)
  (cs : list bool)
  (Hpool : _pool w = p :: q)
  (Htimeout : 0 < connection_timeout_seconds (config w))
  (Hold : recycle_connections_seconds (config w) < clock w - created_at p)
  (Hcreate : create_script w = false :: cs)
  (Hroom : queue_within_maxsize w) :
  exists w',
    acquire_enter w = Raise ConnectError w'
    /\ _pool w' = q ++ [p]
    /\ closed w' = connection p :: closed w
    /\ ~ In (connection p) (opened w')
    /\ _active_connections w' = _active_connections w
    /\ checked_out w' = checked_out w.
Proof.
  assert (Ht : (connection_timeout_seconds (config w) <=? 0) = false)
    by (apply Z.leb_gt; exact Htimeout).
  assert (Ho : (clock w - created_at p
                >? recycle_connections_seconds (config w)) = true)
    by (rewrite Z.gtb_ltb; apply Z.ltb_lt; exact Hold).
  assert (Hfull : (if max_size (config w) <=? 0 then false
                   else max_size (config w) <=? Z.of_nat (length q)) = false).
  { unfold queue_within_maxsize in Hroom. rewrite Hpool in Hroom.
    cbn [length] in Hroom.
    destruct (max_size (config w) <=? 0) eqn:E; [reflexivity|].
    apply Z.leb_gt in E. apply Z.leb_gt. lia. }
  unfold_pool.
  pool_with ltac:(rewrite ?Ht, ?Hpool, ?Ho, ?Hcreate, ?Hfull).
  eexists. split; [reflexivity|]. pool_with idtac.
  repeat split; try reflexivity.
  unfold remove_conn. intros Hin. apply filter_In in Hin as [_ Hin].
  rewrite Nat.eqb_refl in Hin. discriminate Hin.
Qed.

(** Releasing into a full queue closes the connection and takes
    it off the counter; the queue is left as it is. *)
Lemma release_into_full_queue_closes
  (w : World) (i : nat) (p : PooledConnection)
  (Hheld : nth_error (checked_out w) i = Some p)
  (Hfull : qfull w = true) :
  exists w',
    acquire_exit i w = Ret tt w'
    /\ _pool w' = _pool w
    /\ closed w' = connection p :: closed w
    /\ ~ In (connection p) (opened w')
    /\ _active_connections w' = _active_connections w - 1
    /\ checked_out w' = remove_nth i (checked_out w).
Proof.
  unfold_pool. pool_with ltac:(rewrite ?Hheld, ?Hfull).
  eexists. split; [reflexivity|]. pool_with idtac.
  repeat split; try reflexivity.
  unfold remove_conn. intros Hin. apply filter_In in Hin as [_ Hin].
  rewrite Nat.eqb_refl in Hin. discriminate Hin.
Qed.

Lemma remove_nth_last {A} (l : list A) (x : A) :
  remove_nth (length l) (l ++ [x]) = l.
Proof.
  induction l as [|y l IH]; [reflexivity|].
  cbn [length app remove_nth]. rewrite IH. reflexivity.
Qed.

Lemma nth_error_last {A} (l : list A) (x : A) :
  nth_error (l ++ [x]) (length l) = Some x.
Proof.
  induction l as [|y l IH]; [reflexivity|]. exact IH.
Qed.

(** X7.  Acquire and release of a young, healthy idle wrapper: the
    caller gets the oldest idle connection, and after the release the
    wrapper is at the back of the queue with its use count raised and
    its last use stamped; nothing was closed or created, and the
    counter and the other callers are as before. *)
Theorem acquire_release_rotates_queue
  (w : World) (p : PooledConnection) (q : list PooledConnection)
  (Hpool : _pool w = p :: q)
  (Htimeout : 0 < connection_timeout_seconds (config w))
  (Hyoung : clock w - created_at p <= recycle_connections_seconds (config w))
  (Hhealth : hd true (health_script w) = true)
  (Hroom : queue_within_maxsize w) :
  exists w1 w2,
    acquire_enter w = Ret (connection p) w1
    /\ acquire_exit (length (checked_out w)) w1 = Ret tt w2
    /\ _pool w2
       = q ++ [{| connection := connection p; created_at := created_at p;
                  last_used_at := clock w; use_count := use_count p + 1;
                  is_healthy := is_healthy p |}]
    /\ checked_out w2 = checked_out w
    /\ _active_connections w2 = _active_connections w
    /\ opened w2 = opened w
    /\ closed w2 = closed w.
Proof.
  assert (Ht : (connection_timeout_seconds (config w) <=? 0) = false)
    by (apply Z.leb_gt; exact Htimeout).
  assert (Ho : (clock w - created_at p
                >? recycle_connections_seconds (config w)) = false)
    by (rewrite Z.gtb_ltb; apply Z.ltb_ge; exact Hyoung).
  assert (Hfull : (if max_size (config w) <=? 0 then false
                   else max_size (config w) <=? Z.of_nat (length q)) = false).
  { unfold queue_within_maxsize in Hroom. rewrite Hpool in Hroom.
    cbn [length] in Hroom.
    destruct (max_size (config w) <=? 0) eqn:E; [reflexivity|].
    apply Z.leb_gt in E. apply Z.leb_gt. lia. }
  unfold_pool.
  pool_with ltac:(rewrite ?Ht, ?Hpool, ?Ho).
  destruct (health_script w) as [|[] hs]; [| |discriminate Hhealth];
    pool_with idtac;
    (eexists; eexists; split; [reflexivity|]);
    pool_with ltac:(rewrite ?nth_error_last, ?remove_nth_last, ?Hfull);
    repeat split; reflexivity.
Qed.

Lemma close_loop_opened (fuel : nat) :
  forall w : World,
    (length (_pool w) <= fuel)%nat ->
    exists w',
      close_loop fuel w = Ret tt w'
      /\ opened w'
         = fold_left (fun o p => remove_conn (connection p) o) (_pool w)
             (opened w).
Proof.
  induction fuel as [|fuel IH]; intros w Hlen.
  - exists w. destruct (_pool w) eqn:E; [|cbn in Hlen; lia].
    split; reflexivity.
  - cbn [close_loop]. unfold bind, gets, qsize.
    destruct (_pool w) as [|p q] eqn:E.
    + exists w. cbn. split; reflexivity.
    + replace (Z.of_nat (length (p :: q)) =? 0) with false
        by (symmetry; apply Z.eqb_neq; cbn [length]; lia).
      unfold try_except, queue_get_nowait, _close_connection, modify.
      rewrite E.
      destruct (IH (set_backend (remove_conn (connection p)
                                   (opened (set_pool q w)))
                      (connection p :: closed (set_pool q w))
                      (next_conn (set_pool q w))
                      (create_script (set_pool q w))
                      (health_script (set_pool q w)) (set_pool q w)))
        as (w' & Hrun & Ho).
      { cbn. cbn in Hlen. lia. }
      rewrite Hrun. exists w'. split; [reflexivity|].
      rewrite Ho. reflexivity.
Qed.

Lemma in_after_removals (c : conn) (q : list PooledConnection) :
  forall o : list conn,
    In c (fold_left (fun o p => remove_conn (connection p) o) q o)
    <-> In c o /\ ~ In c (map connection q).
Proof.
  induction q as [|p q IH]; intros o; cbn [fold_left map In].
  - tauto.
  - rewrite IH. unfold remove_conn. rewrite filter_In.
    destruct (Nat.eqb_spec c (connection p)) as [->|Hne]; cbn [negb].
    + split; [intros [[_ H] _]; discriminate H | intros [_ H]].
      exfalso. apply H. left. reflexivity.
    + split.
      * intros [[H _] Hq]. split; [exact H|].
        intros [E|Hin]; [apply Hne; symmetry; exact E | apply Hq; exact Hin].
      * intros [H Hq]. split; [split; [exact H | reflexivity]|].
        intros Hin. apply Hq. right. exact Hin.
Qed.

(** X3.  [close] always returns.  Afterwards the queue is empty, the
    counter is 0, a running health-check task is cancelled, every
    connection that was idle has been closed and is open no more, and
    the connections that are open are those that were open and not
    idle (the ones checked out among them). *)
Theorem close_closes_every_idle_connection (w : World) :
  exists w',
    close w = Ret tt w'
    /\ _pool w' = []
    /\ _active_connections w' = 0
    /\ _health_check_task w'
       = match _health_check_task w with
         | Some _ => Some TaskCancelled
         | None => None
         end
    /\ closed w' = rev (map connection (_pool w)) ++ closed w
    /\ (forall c, In c (opened w')
                  <-> In c (opened w) /\ ~ In c (map connection (_pool w)))
    /\ checked_out w' = checked_out w.
Proof.
  assert (Hrest : forall w1,
             _pool w1 = _pool w -> opened w1 = opened w ->
             closed w1 = closed w -> checked_out w1 = checked_out w ->
             exists w',
               match close_loop (Z.to_nat (qsize w1)) w1 with
               | Ret _ s => modify (set_active 0) s
               | Raise e s => Raise e s
               | Block s => Block s
               end = Ret tt w'
               /\ _pool w' = []
               /\ _active_connections w' = 0
               /\ _health_check_task w' = _health_check_task w1
               /\ closed w' = rev (map connection (_pool w)) ++ closed w
               /\ (forall c,
                      In c (opened w')
                      <-> In c (opened w)
                          /\ ~ In c (map connection (_pool w)))
               /\ checked_out w' = checked_out w).
  { intros w1 Hp1 Ho1 Hcl1 Hco1.
    assert (Hlen : (length (_pool w1) <= Z.to_nat (qsize w1))%nat)
      by (unfold qsize; lia).
    destruct (close_loop_drains (Z.to_nat (qsize w1)) w1 Hlen)
      as (w2 & Hrun & Hp & Hc & Ht & Hcl & Hco).
    destruct (close_loop_opened _ w1 Hlen) as (w3 & Hrun' & Ho).
    rewrite Hrun in Hrun'. injection Hrun' as <-.
    rewrite Hrun. unfold modify. eexists. split; [reflexivity|].
    cbn [set_active _pool _active_connections _health_check_task closed
         opened checked_out].
    rewrite Hp, Ht, Hcl, Hco, Ho, Hp1, Ho1, Hcl1, Hco1.
    do 4 (split; [reflexivity|]).
    split; [intros c; apply in_after_removals | reflexivity]. }
  unfold close, bind, gets.
  destruct (_health_check_task w) eqn:Et; unfold modify, ret; cbv beta iota.
  - destruct (Hrest (set_task (Some TaskCancelled) w))
      as (w' & H); try reflexivity.
    exists w'. exact H.
  - destruct (Hrest w) as (w' & H); try reflexivity.
    exists w'. rewrite Et in H. exact H.
Qed.

(** *** The health-check pass *)

Lemma not_full_after_get (w : World) (p : PooledConnection)
  (q : list PooledConnection) :
  queue_within_maxsize w ->
  _pool w = p :: q ->
  (if max_size (config w) <=? 0 then false
   else max_size (config w) <=? Z.of_nat (length q)) = false.
Proof.
  intros Hroom Hpool. unfold queue_within_maxsize in Hroom.
  rewrite Hpool in Hroom. cbn [length] in Hroom.
  destruct (max_size (config w) <=? 0) eqn:E; [reflexivity|].
  apply Z.leb_gt in E. apply Z.leb_gt. lia.
Qed.

(** One turn of the pass on a wrapper found healthy: it goes to the
    back of the queue. *)
Lemma health_check_one_healthy (w : World) (p : PooledConnection)
  (q : list PooledConnection) :
  _pool w = p :: q ->
  hd true (health_script w) = true ->
  queue_within_maxsize w ->
  health_check_one w
  = Ret tt (set_pool (q ++ [p])
              (set_backend (opened w) (closed w) (next_conn w)
                 (create_script w) (tl (health_script w)) w)).
Proof.
  intros Hpool Hh Hroom.
  pose proof (not_full_after_get w p q Hroom Hpool) as Hfull.
  unfold_pool. pool_with ltac:(rewrite ?Hpool).
  destruct (health_script w) as [|[] hs]; [| |discriminate Hh];
    pool_with ltac:(rewrite ?Hfull); reflexivity.
Qed.

Lemma healthy_pass_loop (n : nat) :
  forall w : World,
    (n <= length (_pool w))%nat ->
    forallb (fun b => b) (firstn n (health_script w)) = true ->
    queue_within_maxsize w ->
    exists w',
      health_check_while n w = Ret tt w'
      /\ _pool w' = skipn n (_pool w) ++ firstn n (_pool w)
      /\ config w' = config w
      /\ _active_connections w' = _active_connections w
      /\ opened w' = opened w
      /\ closed w' = closed w
      /\ create_script w' = create_script w
      /\ checked_out w' = checked_out w.
Proof.
  induction n as [|n IH]; intros w Hn Hh Hroom.
  - exists w. cbn. rewrite app_nil_r. repeat split; reflexivity.
  - destruct (_pool w) as [|p q] eqn:Hpool; [cbn in Hn; lia|].
    assert (Hhd : hd true (health_script w) = true
                  /\ forallb (fun b => b) (firstn n (tl (health_script w)))
                     = true).
    { destruct (health_script w) as [|b hs]; cbn in *.
      - split; [reflexivity | destruct n; reflexivity].
      - apply andb_prop in Hh. exact Hh. }
    destruct Hhd as (Hhd & Htl).
    cbn [health_check_while]. unfold bind at 1. unfold try_except.
    unfold bind at 1.
    rewrite (health_check_one_healthy w p q Hpool Hhd Hroom).
    unfold ret at 1. cbv beta iota.
    match goal with
    | |- exists w', health_check_while n ?w1 = _ /\ _ =>
        destruct (IH w1) as (w' & Hrun & Hp & Hc & Ha & Ho & Hcl & Hcs & Hco)
    end.
    + cbn. rewrite length_app. cbn in *. lia.
    + exact Htl.
    + unfold queue_within_maxsize in *. cbn.
      rewrite length_app. rewrite Hpool in Hroom. cbn in *. lia.
    + exists w'. split; [exact Hrun|].
      rewrite Hp, Hc, Ha, Ho, Hcl, Hcs, Hco.
      cbn [set_pool set_backend _pool config _active_connections opened
           closed create_script checked_out skipn firstn].
      cbn in Hn.
      rewrite skipn_app, firstn_app.
      replace (n - length q)%nat with 0%nat by lia.
      cbn [skipn firstn]. rewrite app_nil_r, <- app_assoc.
      repeat split; reflexivity.
Qed.

(** X8.  A health-check pass over idle wrappers that are all found
    healthy leaves the manager as it found it: the same wrappers in
    the same order, nothing closed, nothing created, the counter and
    the callers untouched. *)
Theorem health_check_pass_keeps_healthy_pool (w : World)
  (Hhealthy : forallb (fun b => b)
                (firstn (length (_pool w)) (health_script w)) = true)
  (Hroom : queue_within_maxsize w) :
  exists w',
    health_check_pass w = Ret tt w'
    /\ _pool w' = _pool w
    /\ _active_connections w' = _active_connections w
    /\ opened w' = opened w
    /\ closed w' = closed w
    /\ checked_out w' = checked_out w.
Proof.
  destruct (healthy_pass_loop (length (_pool w)) w (le_n _) Hhealthy Hroom)
    as (w' & Hrun & Hp & Hc & Ha & Ho & Hcl & Hcs & Hco).
  exists w'. split.
  - unfold health_check_pass, bind, gets, try_except, qsize.
    rewrite Nat2Z.id, Hrun. reflexivity.
  - rewrite Hp, Ha, Ho, Hcl, Hco, skipn_all, firstn_all.
    repeat split; reflexivity.
Qed.

(** X9.  When the wrapper at the head of the queue fails its health
    check and the factory cannot replace it, the pass ends there and
    only logs: the connection is closed, the queue is one wrapper
    short, and the counter still counts it.  The slot is not given
    back. *)
Theorem failed_replacement_loses_slot
  (w : World) (p : PooledConnection) (q : list PooledConnection)
  (hs cs : list bool)
  (Hpool : _pool w = p :: q)
  (Hhealth : health_script w = false :: hs)
  (Hcreate : create_script w = false :: cs) :
  exists w',
    health_check_pass w = Ret tt w'
    /\ _pool w' = q
    /\ closed w' = connection p :: closed w
    /\ ~ In (connection p) (opened w')
    /\ _active_connections w' = _active_connections w
    /\ checked_out w' = checked_out w
    /\ idle_count w' + checked_out_count w'
       = idle_count w + checked_out_count w - 1.
Proof.
  unfold health_check_pass, bind at 1, gets at 1, qsize.
  rewrite Hpool. cbn [length]. rewrite Nat2Z.id.
  cbn [health_check_while].
  unfold_pool. pool_with ltac:(rewrite ?Hpool, ?Hhealth, ?Hcreate).
  eexists. split; [reflexivity|]. pool_with idtac.
  unfold idle_count, checked_out_count. pool_with ltac:(rewrite ?Hpool).
  cbn [length].
  repeat split; try reflexivity; try lia.
  unfold remove_conn. intros Hin. apply filter_In in Hin as [_ Hin].
  rewrite Nat.eqb_refl in Hin. discriminate Hin.
Qed.

(** One turn of the pass when no coming creation fails: a wrapper is
    taken and a wrapper is put, the old one or a new one. *)
Lemma health_check_one_delivers (w : World) (p : PooledConnection)
  (q : list PooledConnection) :
  _pool w = p :: q ->
  factory_delivers w ->
  queue_within_maxsize w ->
  exists w1,
    health_check_one w = Ret tt w1
    /\ length (_pool w1) = length (_pool w)
    /\ config w1 = config w
    /\ _active_connections w1 = _active_connections w
    /\ checked_out w1 = checked_out w
    /\ factory_delivers w1.
Proof.
  intros Hpool Hd Hroom.
  pose proof (not_full_after_get w p q Hroom Hpool) as Hfull.
  unfold factory_delivers in *.
  unfold_pool. pool_with ltac:(rewrite ?Hpool).
  destruct (health_script w) as [|[] hs]; pool_with ltac:(rewrite ?Hfull);
    try (eexists; split; [reflexivity|]; pool_with idtac;
         rewrite ?length_app; cbn [length];
         repeat split; try reflexivity; try exact Hd; lia).
  destruct (create_script w) as [|[] cs]; [| |discriminate Hd];
    pool_with ltac:(rewrite ?Hfull);
    (eexists; split; [reflexivity|]); pool_with idtac;
    rewrite ?length_app; cbn [length];
    repeat split; try reflexivity; try exact Hd; lia.
Qed.

Lemma delivering_pass_loop (n : nat) :
  forall w : World,
    factory_delivers w ->
    queue_within_maxsize w ->
    exists w',
      health_check_while n w = Ret tt w'
      /\ length (_pool w') = length (_pool w)
      /\ config w' = config w
      /\ _active_connections w' = _active_connections w
      /\ checked_out w' = checked_out w.
Proof.
  induction n as [|n IH]; intros w Hd Hroom.
  - exists w. repeat split; reflexivity.
  - cbn [health_check_while]. unfold bind at 1. unfold try_except.
    unfold bind at 1.
    destruct (_pool w) as [|p q] eqn:Hpool.
    + exists w. unfold health_check_one, bind, queue_get_nowait.
      rewrite Hpool. cbn. rewrite ?Hpool. repeat split; reflexivity.
    + destruct (health_check_one_delivers w p q Hpool Hd Hroom)
        as (w1 & -> & Hl & Hc & Ha & Hco & Hd1).
      unfold ret at 1. cbv beta iota.
      destruct (IH w1 Hd1) as (w' & Hrun & Hl' & Hc' & Ha' & Hco').
      { unfold queue_within_maxsize in *. rewrite Hc, Hl. exact Hroom. }
      exists w'. split; [exact Hrun|].
      rewrite Hl', Hc', Ha', Hco', Hl, Hc, Ha, Hco, ?Hpool.
      repeat split; reflexivity.
Qed.

(** X10.  As long as the factory delivers, a health-check pass keeps
    the number of idle wrappers, the counter and the callers' wrappers,
    whatever the health checks say; the pool's bound is kept with
    them. *)
Theorem health_check_pass_keeps_size (w : World)
  (Hdelivers : factory_delivers w)
  (Hroom : queue_within_maxsize w) :
  exists w',
    health_check_pass w = Ret tt w'
    /\ idle_count w' = idle_count w
    /\ _active_connections w' = _active_connections w
    /\ checked_out w' = checked_out w
    /\ (pool_bounded w -> pool_bounded w').
Proof.
  destruct (delivering_pass_loop (Z.to_nat (qsize w)) w Hdelivers Hroom)
    as (w' & Hrun & Hl & Hc & Ha & Hco).
  exists w'. split.
  - unfold health_check_pass, bind, gets, try_except.
    rewrite Hrun. reflexivity.
  - unfold pool_bounded, idle_count, checked_out_count.
    rewrite Hl, Hc, Ha, Hco. repeat split; try reflexivity; tauto.
Qed.

(** *** What [acquire] hands out *)

Ltac innermost_test t :=
  lazymatch t with
  | context [match ?y with _ => _ end] => innermost_test y
  | _ => t
  end.

Ltac split_test H :=
  match type of H with
  | context [match ?x with _ => _ end] =>
      let y := innermost_test x in
      destruct y eqn:?
  end.

(** X11.  Whenever [acquire] hands out a connection (with a recycle
    age that is not negative), the wrapper added to the callers' side
    carries that connection, is stamped with the present time, and is
    not older than [recycle_connections_seconds]: an idle wrapper past
    that age never reaches a caller. *)
Theorem acquire_hands_out_young_wrapper (w : World) (c : conn) (w' : World)
  (Hrecycle : 0 <= recycle_connections_seconds (config w))
  (Hret : acquire_enter w = Ret c w') :
  exists p,
    checked_out w' = checked_out w ++ [p]
    /\ connection p = c
    /\ clock w' - created_at p <= recycle_connections_seconds (config w')
    /\ last_used_at p = clock w'.
Proof.
  unfold_pool.
  repeat (pool_simpl; split_test Hret); pool_simpl; try discriminate Hret.
  all: injection Hret as <- <-; eexists; (split; [reflexivity|]);
    pool_simpl; repeat split; try reflexivity;
    repeat match goal with
      | H : (_ >? _) = true |- _ =>
          rewrite Z.gtb_ltb in H; apply Z.ltb_lt in H
      | H : (_ >? _) = false |- _ =>
          rewrite Z.gtb_ltb in H; apply Z.ltb_ge in H
      end;
    lia.
Qed.

(** The outcomes of [acquire]: a wrapper with the connection handed
    out joins the callers' side, or an error is raised and the
    callers' side is as before. *)
Lemma acquire_enter_outcomes (w : World) :
  match acquire_enter w with
  | Ret c w' =>
      exists p, checked_out w' = checked_out w ++ [p] /\ connection p = c
  | Raise e w' =>
      (e = ConnectError \/ e = PoolExhausted)
      /\ checked_out w' = checked_out w
  | Block _ => False
  end.
Proof.
  destruct (acquire_enter w) as [c w'|e w'|w'] eqn:Hrun;
    unfold_pool;
    repeat (pool_simpl; split_test Hrun); pool_simpl;
    try discriminate Hrun;
    injection Hrun as <- <-; pool_simpl;
    first [ eexists; split; reflexivity
          | split; [first [left; reflexivity | right; reflexivity]
                   | reflexivity] ].
Qed.

(** X12.  [acquire] does not wait for ever; when it raises, the error
    is the factory's or "pool exhausted", and no caller's wrapper has
    been added or taken away. *)
Theorem acquire_failure_modes (w : World) :
  match acquire_enter w with
  | Ret _ _ => True
  | Raise e w' =>
      (e = ConnectError \/ e = PoolExhausted)
      /\ checked_out w' = checked_out w
  | Block _ => False
  end.
Proof.
  pose proof (acquire_enter_outcomes w) as H.
  destruct (acquire_enter w); [exact I | exact H | exact H].
Qed.

(** Leaving [acquire]: the two ways the [finally] block can go. *)
Lemma acquire_exit_outcome
  (w : World) (i : nat) (p : PooledConnection) :
  nth_error (checked_out w) i = Some p ->
  exists w',
    acquire_exit i w = Ret tt w'
    /\ checked_out w' = remove_nth i (checked_out w)
    /\ ((qfull w = false
         /\ _pool w' = _pool w ++ [p]
         /\ closed w' = closed w
         /\ opened w' = opened w
         /\ _active_connections w' = _active_connections w)
        \/ (qfull w = true
            /\ _pool w' = _pool w
            /\ closed w' = connection p :: closed w
            /\ opened w' = remove_conn (connection p) (opened w)
            /\ _active_connections w' = _active_connections w - 1)).
Proof.
  intros Hheld.
  unfold_pool. pool_with ltac:(rewrite ?Hheld).
  destruct (max_size (config w) <=? 0);
    [|destruct (max_size (config w) <=? Z.of_nat (length (_pool w)))];
    pool_simpl; (eexists; split; [reflexivity|]); pool_simpl;
    (split; [reflexivity|]);
    first [left; repeat split; reflexivity | right; repeat split; reflexivity].
Qed.

(** X13.  Leaving [acquire] never fails and never waits.  The caller's
    wrapper leaves the callers' side, and it is not lost: either it is
    idle again at the back of the queue, with nothing closed and the
    counter as it was, or (the queue being full) its connection is
    closed and the counter is one less. *)
Theorem release_never_loses_wrapper
  (w : World) (i : nat) (p : PooledConnection)
  (Hheld : nth_error (checked_out w) i = Some p) :
  exists w',
    acquire_exit i w = Ret tt w'
    /\ checked_out w' = remove_nth i (checked_out w)
    /\ ((qfull w = false
         /\ _pool w' = _pool w ++ [p]
         /\ closed w' = closed w
         /\ opened w' = opened w
         /\ _active_connections w' = _active_connections w)
        \/ (qfull w = true
            /\ _pool w' = _pool w
            /\ closed w' = connection p :: closed w
            /\ opened w' = remove_conn (connection p) (opened w)
            /\ _active_connections w' = _active_connections w - 1)).
Proof. exact (acquire_exit_outcome w i p Hheld). Qed.

(** *** The bound with the health-check task at work *)

Lemma pool_bounded_within (w : World) : pool_bounded w -> pool_within w.
Proof. intros (Hsum & Hmax). split; [rewrite Hsum; apply Z.le_refl | exact Hmax]. Qed.

Lemma same_manager_within (w w' : World) :
  same_manager w w' -> pool_within w -> pool_within w'.
Proof.
  intros (A1 & A2 & A3 & A4).
  unfold pool_within, idle_count, checked_out_count.
  rewrite A1, A2, A3, A4. tauto.
Qed.

Lemma acquire_obtain_within (w : World) :
  pool_within w ->
  match acquire_obtain {| world := w; pooled := None |} with
  | Ret _ f =>
      holds_wrapper f
      /\ idle_count (world f) + checked_out_count (world f) + 1
         <= _active_connections (world f)
      /\ _active_connections (world f) <= max_size (config (world f))
  | Raise _ f => pooled f = None /\ same_manager w (world f)
  | Block _ => False
  end.
Proof.
  intros (Hsum & Hmax).
  pose proof (acquire_overflow_cases w) as Hover.
  assert (Hcase :
            match acquire_overflow {| world := w; pooled := None |} with
            | Ret _ f =>
                holds_wrapper f
                /\ idle_count (world f) + checked_out_count (world f) + 1
                   <= _active_connections (world f)
                /\ _active_connections (world f) <= max_size (config (world f))
            | Raise _ f => pooled f = None /\ same_manager w (world f)
            | Block _ => False
            end).
  { destruct (acquire_overflow {| world := w; pooled := None |})
      as [[] f|e f|f]; [|exact Hover|exact Hover].
    destruct Hover as (Hf & Hc & Hp & Hco & Ha & E).
    unfold idle_count, checked_out_count in *.
    rewrite Hc, Hp, Hco, Ha. split; [exact Hf | lia]. }
  unfold acquire_obtain, queue_get_wait_for, set_pooled.
  unfold bind at 1. unfold lift at 1. unfold gets at 1. fields.
  unfold try_except, bind, lift, modify. fields.
  destruct (connection_timeout_seconds (config w) <=? 0); [exact Hcase|].
  destruct (_pool w) as [|p q] eqn:Ep; [exact Hcase|].
  fields. cbn [length] in Hsum.
  split; [eexists; reflexivity | lia].
Qed.

Lemma put_back_within (w : World) (p : PooledConnection) :
  idle_count w + checked_out_count w + 1 <= _active_connections w ->
  _active_connections w <= max_size (config w) ->
  match acquire_finally (Some p) w with
  | Ret _ w' | Raise _ w' => pool_within w'
  | Block _ => False
  end.
Proof.
  intros Hsum Hmax.
  unfold acquire_finally, try_except, queue_put_nowait, qfull, qsize, bind,
    _close_connection, incr_active, modify, pool_within, idle_count,
    checked_out_count in *.
  destruct (max_size (config w) <=? 0) eqn:E0.
  - cbn. rewrite length_app. cbn [length]. lia.
  - destruct (max_size (config w) <=? Z.of_nat (length (_pool w))) eqn:E1.
    + cbn. lia.
    + cbn. rewrite length_app. cbn [length]. lia.
Qed.

Lemma acquire_enter_within (w : World) :
  pool_within w ->
  match acquire_enter w with
  | Ret _ w' | Raise _ w' => pool_within w'
  | Block _ => False
  end.
Proof.
  intros Hw. pose proof (acquire_obtain_within w Hw) as Ho.
  unfold acquire_enter, acquire_body, bind.
  destruct (acquire_obtain {| world := w; pooled := None |})
    as [[] f|e f|f]; [| |exact Ho].
  - destruct Ho as (Hf & Hsum & Hmax).
    pose proof (steady_acquire_prepare f Hf) as Hp.
    destruct (acquire_prepare f) as [c f'|e f'|f']; [| |exact Hp].
    + destruct Hp as ((C1 & C2 & C3 & C4) & (p & Hp)). rewrite Hp.
      unfold pool_within, idle_count, checked_out_count in *. cbn.
      rewrite length_app, C1, C2, C3, C4. cbn [length]. lia.
    + destruct Hp as ((C1 & C2 & C3 & C4) & (p & Hp)). rewrite Hp.
      assert (Hput := put_back_within (world f') p).
      destruct (acquire_finally (Some p) (world f'));
        apply Hput; unfold idle_count, checked_out_count in *;
        rewrite ?C1, ?C2, ?C3, ?C4; assumption.
  - destruct Ho as (Hn & Hs). rewrite Hn. cbn.
    apply (same_manager_within w); assumption.
Qed.

Lemma acquire_exit_within (i : nat) (w : World) :
  pool_within w ->
  match acquire_exit i w with
  | Ret _ w' | Raise _ w' => pool_within w'
  | Block _ => False
  end.
Proof.
  intros Hw. unfold acquire_exit.
  destruct (nth_error (checked_out w) i) as [p|] eqn:E; [|exact Hw].
  apply remove_nth_length in E. destruct Hw as (Hsum & Hmax).
  apply put_back_within;
    unfold idle_count, checked_out_count in *; cbn; [|exact Hmax].
  rewrite E in Hsum. lia.
Qed.

(** One turn of the health-check loop works on the queue and the
    backend: it returns or raises, and the queue has not grown. *)
Lemma health_check_one_shrinks (w : World) :
  match health_check_one w with
  | Ret _ w' | Raise _ w' =>
      config w' = config w
      /\ _active_connections w' = _active_connections w
      /\ checked_out w' = checked_out w
      /\ (length (_pool w') <= length (_pool w))%nat
  | Block _ => False
  end.
Proof.
  unfold_pool.
  destruct (_pool w) as [|p q] eqn:Ep; pool_simpl.
  { rewrite Ep. repeat split; reflexivity || apply Nat.le_refl. }
  destruct (health_script w) as [|[] hs]; pool_simpl.
  1, 2: destruct (max_size (config w) <=? 0);
    [|destruct (max_size (config w) <=? Z.of_nat (length q))];
    pool_simpl; rewrite ?length_app; cbn [length];
    repeat split; try reflexivity; lia.
  destruct (create_script w) as [|[] cs]; pool_simpl.
  1, 2: destruct (max_size (config w) <=? 0);
    [|destruct (max_size (config w) <=? Z.of_nat (length q))];
    pool_simpl; rewrite ?length_app; cbn [length];
    repeat split; try reflexivity; lia.
  repeat split; try reflexivity. cbn [length]. lia.
Qed.

Lemma health_check_while_shrinks (n : nat) :
  forall w : World,
    match health_check_while n w with
    | Ret _ w' | Raise _ w' =>
        config w' = config w
        /\ _active_connections w' = _active_connections w
        /\ checked_out w' = checked_out w
        /\ (length (_pool w') <= length (_pool w))%nat
    | Block _ => False
    end.
Proof.
  induction n as [|n IH]; intros w.
  { cbn. repeat split; reflexivity || apply Nat.le_refl. }
  cbn [health_check_while]. unfold bind, try_except, ret.
  pose proof (health_check_one_shrinks w) as Hone.
  destruct (health_check_one w) as [[] w1|e w1|w1]; [| |exact Hone].
  - specialize (IH w1).
    destruct (health_check_while n w1) as [[] w2|e w2|w2]; [| |exact IH];
      destruct Hone as (A1 & A2 & A3 & A4), IH as (B1 & B2 & B3 & B4);
      (repeat split; [congruence | congruence | congruence | lia]).
  - destruct e; exact Hone.
Qed.

(** A pass of the health-check task always comes to its end, and
    leaves the bound in place: wrappers may be lost to the queue, never
    gained. *)
Lemma health_check_pass_within (w : World) :
  pool_within w ->
  match health_check_pass w with
  | Ret _ w' => pool_within w'
  | Raise _ _ | Block _ => False
  end.
Proof.
  intros (Hsum & Hmax).
  unfold health_check_pass, bind, gets, try_except.
  pose proof (health_check_while_shrinks (Z.to_nat (qsize w)) w) as H.
  destruct (health_check_while (Z.to_nat (qsize w)) w) as [[] w1|e w1|w1];
    [| |exact H];
    destruct H as (A1 & A2 & A3 & A4);
    unfold ret, pool_within, idle_count, checked_out_count in *;
    rewrite A1, A2, A3; split; lia.
Qed.

Lemma step_running_within (o : op) (w : World) :
  running o = true ->
  pool_within w ->
  match step o w with
  | Ret _ w' | Raise _ w' => pool_within w'
  | Block _ => False
  end.
Proof.
  intros Ho Hw. destruct o as [| |i| |dt|]; try discriminate Ho; cbn [step].
  - unfold discard, bind, ret.
    pose proof (acquire_enter_within w Hw) as H.
    destruct (acquire_enter w); exact H.
  - apply acquire_exit_within. exact Hw.
  - exact Hw.
  - unfold bind, gets, ret.
    pose proof (health_check_pass_within w Hw) as H.
    destruct (_health_check_task w) as [[]|]; try exact Hw.
    destruct (health_check_pass w); [exact H | contradiction | exact H].
Qed.

Lemma run_running_within (ops : list op) :
  forall w : World,
    forallb running ops = true ->
    pool_within w ->
    pool_within (run ops w).
Proof.
  induction ops as [|o ops IH]; intros w Hops Hw; [exact Hw|].
  cbn [forallb] in Hops. apply andb_prop in Hops as [Ho Hops].
  cbn [run]. pose proof (step_running_within o w Ho Hw) as H.
  destruct (step o w) as [[] w'|e w'|w']; [| |contradiction];
    apply IH; assumption.
Qed.

(** X14.  The bound that C1 states does hold on the runs that the
    defect does not touch: one [initialize] on a new manager whose
    sizes are in order, then acquire and release by the callers, the
    clock moving on, and passes of the health-check task in any order,
    whatever the factory does and whether or not the logger lets
    [initialize] through.  Idle and checked-out wrappers together are
    never more than the counter, and the counter is never more than
    [max_size]; a pass whose replacement fails loses a wrapper without
    lowering the counter, so the counter equals the number of wrappers
    only on runs without such passes. *)
Theorem pool_within_max_size_while_running
  (cfg : PoolConfig) (creates healths : list bool) (now : Z) (info : bool)
  (ops : list op) :
  min_size cfg <= max_size cfg ->
  0 <= max_size cfg ->
  forallb running ops = true ->
  let w := run (Initialize :: ops)
             (set_logging info (new_manager cfg creates healths now)) in
  pool_within w
  /\ idle_count w + checked_out_count w <= max_size (config w)
  /\ (forallb traffic ops = true -> pool_bounded w).
Proof.
  intros Hmin Hmax Hops w.
  set (w0 := set_logging info (new_manager cfg creates healths now)).
  assert (H0 : pool_bounded w0) by (split; cbn; lia).
  pose proof (initialize_bounded w0 H0) as Hinit.
  assert (Hroom : _active_connections w0
                  + Z.of_nat (Z.to_nat (min_size (config w0)))
                  <= max_size (config w0)) by (cbn; lia).
  assert (Hw : pool_within w).
  { unfold w. cbn [run step]. fold w0.
    destruct (initialize w0) as [[] w1|e w1|w1].
    - apply run_running_within;
        [exact Hops | apply pool_bounded_within, Hinit, Hroom].
    - apply run_running_within;
        [exact Hops | apply pool_bounded_within, Hinit, Hroom].
    - exfalso. apply Hinit, Hroom. }
  split; [exact Hw|]. split.
  - destruct Hw as (Hsum & Hle). lia.
  - intros Htraffic. unfold w. cbn [run step]. fold w0.
    destruct (initialize w0) as [[] w1|e w1|w1].
    + apply run_traffic_bounded; [exact Htraffic | apply Hinit, Hroom].
    + apply run_traffic_bounded; [exact Htraffic | apply Hinit, Hroom].
    + exfalso. apply Hinit, Hroom.
Qed.

(* ================================================================== *)
(** ** More on the security manager *)

Close Scope Z_scope.

Section CaseFolding.

Lemma lower_lower_char (c : ascii) : lower_char (lower_char c) = lower_char c.
Proof. destruct c as [[] [] [] [] [] [] [] []]; reflexivity. Qed.

Lemma upper_upper_char (c : ascii) : upper_char (upper_char c) = upper_char c.
Proof. destruct c as [[] [] [] [] [] [] [] []]; reflexivity. Qed.

Lemma isspace_lower_char (c : ascii) : isspace (lower_char c) = isspace c.
Proof. destruct c as [[] [] [] [] [] [] [] []]; reflexivity. Qed.

Lemma lower_lower (s : string) : lower (lower s) = lower s.
Proof.
  unfold lower. induction s as [|c s IH]; [reflexivity|].
  cbn [str_map]. rewrite lower_lower_char, IH. reflexivity.
Qed.

Lemma upper_of_lower (s : string) : upper (lower s) = upper s.
Proof.
  unfold lower, upper. induction s as [|c s IH]; [reflexivity|].
  cbn [str_map]. rewrite upper_lower_char, IH. reflexivity.
Qed.

Lemma lower_of_upper (s : string) : lower (upper s) = lower s.
Proof.
  unfold lower, upper. induction s as [|c s IH]; [reflexivity|].
  cbn [str_map]. rewrite lower_upper_char, IH. reflexivity.
Qed.

Lemma length_lower (s : string) : String.length (lower s) = String.length s.
Proof.
  unfold lower. induction s as [|c s IH]; [reflexivity|].
  cbn [str_map String.length]. rewrite IH. reflexivity.
Qed.

Lemma whitespace_only_lower (s : string) :
  whitespace_only (lower s) = whitespace_only s.
Proof.
  unfold whitespace_only, lower. induction s as [|c s IH]; [reflexivity|].
  cbn [str_map str_forall]. rewrite isspace_lower_char, IH. reflexivity.
Qed.

Lemma atom_ok_lower (a : atom) (c : ascii) :
  atom_ok a (lower_char c) = atom_ok a c.
Proof.
  destruct a; cbn [atom_ok].
  - rewrite lower_lower_char. reflexivity.
  - apply isspace_lower_char.
  - apply is_word_lower_char.
Qed.

Lemma at_boundary_lower (prev : option ascii) (s : string) :
  at_boundary (option_map lower_char prev) (lower s) = at_boundary prev s.
Proof.
  unfold at_boundary. f_equal.
  - destruct prev; [apply is_word_lower_char | reflexivity].
  - destruct s; [reflexivity | apply is_word_lower_char].
Qed.

Ltac rewrite_some H :=
  let H' := fresh in
  pose proof H as H'; cbn [option_map] in H'; rewrite H'; clear H'.

(** A continuation that does not look at letter case. *)
Let case_blind (k' k : cont) : Prop :=
  forall p t, k' (option_map lower_char p) (lower t) = k p t.

Lemma match_star_lower (a : atom) (k' k : cont) :
  case_blind k' k ->
  forall s prev,
    match_star a (option_map lower_char prev) (lower s) k'
    = match_star a prev s k.
Proof.
  intros Hk. induction s as [|c s IH]; intros prev.
  - pose proof (Hk prev "") as H0. change (lower "") with "" in *.
    cbn [match_star]. rewrite H0. reflexivity.
  - pose proof (Hk prev (String c s)) as H0.
    change (lower (String c s)) with (String (lower_char c) (lower s)) in *.
    cbn [match_star].
    rewrite H0, atom_ok_lower.
    rewrite_some (IH (Some c)). reflexivity.
Qed.

Lemma match_re_lower (r : regex) :
  forall (k' k : cont),
    case_blind k' k ->
    forall s prev,
      match_re r (option_map lower_char prev) (lower s) k'
      = match_re r prev s k.
Proof.
  induction r as [|a|r1 IH1 r2 IH2|r1 IH1 r2 IH2|r IH|a|a|];
    intros k' k Hk s prev; cbn [match_re].
  - apply Hk.
  - destruct s as [|c s]; [reflexivity|].
    change (lower (String c s)) with (String (lower_char c) (lower s)).
    cbv iota. rewrite atom_ok_lower. rewrite_some (Hk (Some c) s).
    reflexivity.
  - apply IH1. intros p t. apply IH2. exact Hk.
  - rewrite (IH1 k' k Hk), (IH2 k' k Hk). reflexivity.
  - rewrite (IH k' k Hk), (Hk prev s). reflexivity.
  - apply match_star_lower. exact Hk.
  - destruct s as [|c s]; [reflexivity|].
    change (lower (String c s)) with (String (lower_char c) (lower s)).
    cbv iota. rewrite atom_ok_lower.
    rewrite_some (match_star_lower a k' k Hk s (Some c)). reflexivity.
  - rewrite at_boundary_lower, (Hk prev s). reflexivity.
Qed.

Lemma search_from_lower (r : regex) (s : string) :
  forall prev,
    search_from r (option_map lower_char prev) (lower s)
    = search_from r prev s.
Proof.
  induction s as [|c s IH]; intros prev.
  - pose proof (match_re_lower r (fun _ _ => true) (fun _ _ => true)
                  ltac:(intros p t; reflexivity) "" prev) as H0.
    change (lower "") with "" in *.
    cbn [search_from]. rewrite H0. reflexivity.
  - pose proof (match_re_lower r (fun _ _ => true) (fun _ _ => true)
                  ltac:(intros p t; reflexivity) (String c s) prev) as H0.
    change (lower (String c s)) with (String (lower_char c) (lower s)) in *.
    cbn [search_from]. rewrite H0. rewrite_some (IH (Some c)).
    reflexivity.
Qed.

(** Searching a pattern of the security manager does not depend on the
    case of the text. *)
Lemma search_lower (r : regex) (s : string) :
  search r (lower s) = search r s.
Proof. apply (search_from_lower r s None). Qed.

End CaseFolding.

Lemma find_same {A} (f g : A -> bool) (l : list A) :
  (forall x, f x = g x) -> find f l = find g l.
Proof.
  intros H. induction l as [|x l IH]; cbn [find]; [reflexivity|].
  rewrite H, IH. reflexivity.
Qed.

Lemma validate_query_check_lower (config : SecurityConfig) (query : string) :
  validate_query_check config (lower query)
  = validate_query_check config query.
Proof.
  unfold validate_query_check.
  rewrite !empty_test_is_whitespace_only, whitespace_only_lower.
  unfold len. rewrite length_lower.
  rewrite (existsb_same (fun p => search p (lower query))
             (fun p => search p query) WRITE_PATTERNS)
    by (intros p; apply search_lower).
  rewrite (existsb_same (fun p => search p (lower query))
             (fun p => search p query) INJECTION_PATTERNS)
    by (intros p; apply search_lower).
  rewrite upper_of_lower.
  rewrite (find_same (fun table => search (table_pattern table) (lower query))
             (fun table => search (table_pattern table) query))
    by (intros t; apply search_lower).
  reflexivity.
Qed.

(** X15.  [validate_query] cannot be steered by letter case: two
    queries that differ only in the case of their letters get the same
    answer, flag and message. *)
Theorem validate_query_ignores_case (config : SecurityConfig)
  (query query' : string) (Hsame : lower query = lower query') :
  validate_query config query = validate_query config query'.
Proof.
  unfold validate_query.
  rewrite <- (validate_query_check_lower config query),
    <- (validate_query_check_lower config query'), Hsame.
  reflexivity.
Qed.

(** X16.  Read-only mode only adds rejections: a query accepted in
    read-only mode is accepted with writing allowed, and a query turned
    down with writing allowed is turned down in read-only mode too, for
    the same reason or as a write operation. *)
Theorem read_only_only_adds_rejections (config : SecurityConfig)
  (query : string) :
  (verdict (with_read_only true config) query = Accepted ->
   verdict (with_read_only false config) query = Accepted)
  /\ (forall r,
        verdict (with_read_only false config) query = Rejected r ->
        verdict (with_read_only true config) query = Rejected r
        \/ verdict (with_read_only true config) query
           = Rejected WriteInReadOnlyMode).
Proof.
  rewrite !verdict_is_pipeline. unfold pipeline, policy_of.
  cbn [with_read_only read_only blocked_keywords blocked_tables
       sensitive_columns max_query_length readOnly blockedKeywords
       blockedResourceNames maxRequestLength first_match andb].
  destruct (whitespace_only query);
    [split; [discriminate | intros r H; left; exact H]|].
  destruct (max_query_length config <? len query)%Z;
    [split; [discriminate | intros r H; left; exact H]|].
  destruct (mutating query);
    [split; [discriminate | intros r H; right; reflexivity]|].
  split; [intros H; exact H | intros r H; left; exact H].
Qed.

(** *** Identifiers *)

Lemma re_sub_delete_clean (s : string) :
  str_forall ident_char s = true ->
  re_sub_delete (fun c => negb (ident_char c)) s = s.
Proof.
  induction s as [|c s IH]; cbn [str_forall re_sub_delete]; [reflexivity|].
  intros H. apply andb_prop in H as [Hc Hs].
  rewrite Hc. cbn [negb]. rewrite (IH Hs). reflexivity.
Qed.

Lemma sanitize_identifier_clean (s : string) :
  clean_identifier (sanitize_identifier s) = true.
Proof.
  unfold clean_identifier, sanitize_identifier.
  pose proof (re_sub_delete_keeps s) as Hkeep.
  destruct (re_sub_delete (fun c => negb (ident_char c)) s) as [|c t];
    [reflexivity|].
  destruct (isdigit c) eqn:Ed.
  - cbn [str_forall starts_with_digit] in *. rewrite Hkeep. reflexivity.
  - rewrite Hkeep. cbn [starts_with_digit]. rewrite Ed. reflexivity.
Qed.

(** X17.  [sanitize_identifier] changes exactly the names that need
    it: it returns its argument unchanged if and only if the argument
    is made of characters of [A-Za-z0-9_.] and does not start with a
    digit. *)
Theorem sanitize_identifier_fixes_exactly_clean_names (s : string) :
  sanitize_identifier s = s <-> clean_identifier s = true.
Proof.
  split.
  - intros H. rewrite <- H. apply sanitize_identifier_clean.
  - unfold clean_identifier, sanitize_identifier. intros H.
    apply andb_prop in H as [Hall Hd].
    rewrite (re_sub_delete_clean s Hall).
    destruct s as [|c t]; [reflexivity|].
    cbn [starts_with_digit] in Hd.
    destruct (isdigit c); [discriminate Hd | reflexivity].
Qed.

(** *** The type of a query *)

Section Strip.

Variable f : ascii -> ascii.
Hypothesis f_space : forall c, isspace (f c) = isspace c.

Lemma lstrip_map (s : string) : lstrip (str_map f s) = str_map f (lstrip s).
Proof.
  induction s as [|c s IH]; [reflexivity|].
  cbn [str_map lstrip]. rewrite f_space.
  destruct (isspace c); [exact IH | reflexivity].
Qed.

Lemma rstrip_map (s : string) : rstrip (str_map f s) = str_map f (rstrip s).
Proof.
  induction s as [|c s IH]; [reflexivity|].
  cbn [str_map rstrip]. rewrite IH, f_space.
  destruct (rstrip s); cbn [str_map]; [|reflexivity].
  destruct (isspace c); reflexivity.
Qed.

Lemma strip_map (s : string) : strip (str_map f s) = str_map f (strip s).
Proof. unfold strip. rewrite lstrip_map, rstrip_map. reflexivity. Qed.

End Strip.

Lemma lstrip_head (s : string) :
  match lstrip s with
  | EmptyString => True
  | String c _ => isspace c = false
  end.
Proof.
  induction s as [|c s IH]; [exact I|].
  cbn [lstrip]. destruct (isspace c) eqn:E; [exact IH | exact E].
Qed.

Lemma rstrip_head (s : string) :
  match s with
  | EmptyString => True
  | String c _ => isspace c = false
  end ->
  match rstrip s with
  | EmptyString => True
  | String c _ => isspace c = false
  end.
Proof.
  destruct s as [|c s]; [intros _; exact I|].
  intros H. cbn [rstrip]. rewrite H. destruct (rstrip s); exact H.
Qed.

Lemma lstrip_of_head (s : string) :
  match s with
  | EmptyString => True
  | String c _ => isspace c = false
  end ->
  lstrip s = s.
Proof.
  destruct s as [|c s]; [reflexivity|].
  intros H. cbn [lstrip]. rewrite H. reflexivity.
Qed.

Lemma rstrip_rstrip (s : string) : rstrip (rstrip s) = rstrip s.
Proof.
  induction s as [|c s IH]; [reflexivity|].
  cbn [rstrip]. destruct (rstrip s) as [|d r] eqn:E.
  - destruct (isspace c) eqn:Ec; [reflexivity|].
    cbn [rstrip]. rewrite Ec. reflexivity.
  - cbn [rstrip]. cbn [rstrip] in IH.
    destruct (match rstrip r with
              | EmptyString =>
                  if isspace d then EmptyString else String d EmptyString
              | String a s0 => String d (String a s0)
              end) as [|d' r'] eqn:E'; [discriminate IH|].
    rewrite IH. reflexivity.
Qed.

Lemma strip_strip (s : string) : strip (strip s) = strip s.
Proof.
  unfold strip.
  rewrite (lstrip_of_head (rstrip (lstrip s)))
    by (apply rstrip_head, lstrip_head).
  apply rstrip_rstrip.
Qed.

(** X18.  [get_query_type] looks at the text without the white space
    around it and without regard to letter case: stripping the query,
    or changing the case of its letters, does not change its type. *)
Theorem get_query_type_ignores_case_and_margin (query query' : string)
  (Hsame : lower (strip query) = lower (strip query')) :
  get_query_type query = get_query_type query'
  /\ get_query_type (strip query) = get_query_type query
  /\ get_query_type (lower query) = get_query_type query
  /\ get_query_type (upper query) = get_query_type query.
Proof.
  assert (Hkey : forall q q', lower (strip q) = lower (strip q') ->
                              get_query_type q = get_query_type q').
  { intros q q' H. unfold get_query_type.
    rewrite <- (upper_of_lower (strip q)), <- (upper_of_lower (strip q')), H.
    reflexivity. }
  split; [apply Hkey; exact Hsame|].
  split; [apply Hkey; rewrite strip_strip; reflexivity|].
  split; apply Hkey.
  - unfold lower at 2. rewrite (strip_map lower_char isspace_lower_char).
    apply lower_lower.
  - unfold upper at 1. rewrite strip_map.
    + apply lower_of_upper.
    + intros c. destruct c as [[] [] [] [] [] [] [] []]; reflexivity.
Qed.

(** *** The audit record *)

Lemma slice_to_length (n : nat) (s : string) :
  String.length (slice_to n s) = Nat.min n (String.length s).
Proof.
  unfold slice_to. rewrite substring_chars. cbn [skipn].
  rewrite <- length_chars, list_ascii_of_string_of_list_ascii.
  rewrite length_firstn, length_chars. reflexivity.
Qed.

Lemma length_append (a b : string) :
  String.length (a ++ b) = (String.length a + String.length b)%nat.
Proof.
  induction a as [|c a IH]; [reflexivity|].
  cbn [append String.length]. rewrite IH. reflexivity.
Qed.

Lemma append_empty_r (a : string) : (a ++ "")%string = a.
Proof. induction a as [|c a IH]; cbn; congruence. Qed.

Lemma slice_to_append (n : nat) (a b : string) :
  String.length a = n -> slice_to n (a ++ b) = a.
Proof.
  unfold slice_to. revert n. induction a as [|c a IH]; intros n H.
  - cbn in H. subst n. cbn. destruct b; reflexivity.
  - cbn in H. subst n. cbn [append substring]. rewrite IH; reflexivity.
Qed.

(** X19.  The audit record never carries more of a query than its
    first 100 characters: a query of at most 100 characters is kept as
    it is, a longer one is cut to its first 100 characters followed by
    three dots; and the digest kept is at most 16 characters of the
    SHA-256 text. *)
Theorem audit_record_bounds_what_it_keeps
  (sha256_hex : string -> string) (timestamp query : string)
  (user : option string) (success : bool) (error : option string)
  (rows_affected : Z) :
  let record := create_audit_record sha256_hex timestamp query user success
                  error rows_affected in
  (exists preview,
      dict_get "query_preview" record = Some (VStr preview)
      /\ String.length preview <= 103
      /\ slice_to 100 preview = slice_to 100 query
      /\ (String.length query <= 100 -> preview = query)
      /\ (100 < String.length query ->
          preview = (slice_to 100 query ++ "...")%string))
  /\ (exists digest,
        dict_get "query_hash" record = Some (VStr digest)
        /\ String.length digest <= 16
        /\ digest = slice_to 16 (sha256_hex query))
  /\ dict_get "query_type" record = Some (VStr (get_query_type query)).
Proof.
  cbn zeta. unfold create_audit_record.
  split; [|split].
  - eexists. split; [reflexivity|].
    destruct (len query >? 100)%Z eqn:E.
    + rewrite Z.gtb_ltb in E. apply Z.ltb_lt in E. unfold len in E.
      assert (Hl : String.length (slice_to 100 query) = 100)
        by (rewrite slice_to_length; lia).
      split; [rewrite length_append, Hl; cbn; lia|].
      split; [apply slice_to_append; exact Hl|].
      split; [intros H; lia | intros _; reflexivity].
    + rewrite Z.gtb_ltb in E. apply Z.ltb_ge in E. unfold len in E.
      split; [lia|]. split; [reflexivity|].
      split; [intros _; reflexivity | intros H; lia].
  - eexists. split; [reflexivity|].
    split; [rewrite slice_to_length; lia | reflexivity].
  - reflexivity.
Qed.

(** *** The query builder *)

Section Builder.

Lemma count_char_append (c : ascii) (a b : string) :
  count_char c (a ++ b) = (count_char c a + count_char c b)%nat.
Proof.
  induction a as [|x a IH]; [reflexivity|].
  cbn [append count_char]. rewrite IH. lia.
Qed.

Lemma str_forall_append (p : ascii -> bool) (a b : string) :
  str_forall p (a ++ b) = str_forall p a && str_forall p b.
Proof.
  induction a as [|x a IH]; [reflexivity|].
  cbn [append str_forall]. rewrite IH. apply andb_assoc.
Qed.

Lemma count_char_absent (p : ascii -> bool) (c : ascii) (s : string) :
  p c = false -> str_forall p s = true -> count_char c s = 0.
Proof.
  intros Hc. induction s as [|x s IH]; [reflexivity|].
  cbn [str_forall count_char]. intros H. apply andb_prop in H as [Hx Hs].
  rewrite (IH Hs). destruct (Ascii.eqb_spec x c) as [->|_]; [|reflexivity].
  rewrite Hc in Hx. discriminate Hx.
Qed.

Lemma str_forall_weaken (p q : ascii -> bool) (s : string) :
  (forall c, p c = true -> q c = true) ->
  str_forall p s = true -> str_forall q s = true.
Proof.
  intros Hpq. induction s as [|x s IH]; [reflexivity|].
  cbn [str_forall]. intros H. apply andb_prop in H as [Hx Hs].
  rewrite (Hpq x Hx), (IH Hs). reflexivity.
Qed.

Lemma sanitize_identifier_chars (s : string) :
  str_forall ident_char (sanitize_identifier s) = true.
Proof.
  pose proof (sanitize_identifier_clean s) as H. unfold clean_identifier in H.
  apply andb_prop in H. apply H.
Qed.

Lemma sanitize_identifier_builder (s : string) :
  str_forall builder_char (sanitize_identifier s) = true.
Proof.
  apply (str_forall_weaken ident_char); [|apply sanitize_identifier_chars].
  intros c H. unfold builder_char. rewrite H. reflexivity.
Qed.

Lemma sanitize_identifier_no_mark (s : string) :
  count_char "?" (sanitize_identifier s) = 0.
Proof.
  apply (count_char_absent ident_char);
    [reflexivity | apply sanitize_identifier_chars].
Qed.

Lemma uint_chars (d : Decimal.uint) :
  str_forall isdigit (NilEmpty.string_of_uint d) = true.
Proof. induction d; cbn; try rewrite IHd; reflexivity. Qed.

Lemma str_of_int_chars (n : Z) :
  str_forall (fun c => isdigit c || Ascii.eqb c "-") (str_of_int n) = true.
Proof.
  assert (Hu : forall d, str_forall (fun c => isdigit c || Ascii.eqb c "-")
                           (NilZero.string_of_uint d) = true).
  { intros d.
    apply (str_forall_weaken isdigit);
      [intros c H; rewrite H; reflexivity|].
    destruct d; try apply uint_chars. reflexivity. }
  unfold str_of_int, NilZero.string_of_int.
  destruct (Z.to_int n); [apply Hu|].
  cbn [str_forall]. rewrite Hu. reflexivity.
Qed.

Lemma str_of_int_builder (n : Z) :
  str_forall builder_char (str_of_int n) = true.
Proof.
  apply (str_forall_weaken (fun c => isdigit c || Ascii.eqb c "-"));
    [|apply str_of_int_chars].
  intros c H. apply orb_prop in H as [H|H].
  - unfold builder_char, ident_char. rewrite H.
    rewrite !orb_true_r. reflexivity.
  - apply Ascii.eqb_eq in H. subst c. reflexivity.
Qed.

Lemma str_of_int_no_mark (n : Z) : count_char "?" (str_of_int n) = 0.
Proof.
  apply (count_char_absent (fun c => isdigit c || Ascii.eqb c "-"));
    [reflexivity | apply str_of_int_chars].
Qed.

(** Text joined from parts. *)
Lemma join_forall (p : ascii -> bool) (sep : string) (parts : list string) :
  str_forall p sep = true ->
  Forall (fun x => str_forall p x = true) parts ->
  str_forall p (join sep parts) = true.
Proof.
  intros Hsep. induction 1 as [|x parts Hx _ IH]; [reflexivity|].
  cbn [join]. destruct parts as [|y parts]; [exact Hx|].
  rewrite !str_forall_append, Hx, Hsep, IH. reflexivity.
Qed.

Lemma join_count (c : ascii) (sep : string) (parts : list string) (k : nat) :
  count_char c sep = 0 ->
  Forall (fun x => count_char c x = k) parts ->
  count_char c (join sep parts) = (k * length parts)%nat.
Proof.
  intros Hsep. induction 1 as [|x parts Hx _ IH]; [cbn; lia|].
  cbn [join]. destruct parts as [|y parts]; [cbn; lia|].
  rewrite !count_char_append, Hx, Hsep, IH. cbn [length]. lia.
Qed.

Lemma sanitized_builder (names : list string) :
  Forall (fun x => str_forall builder_char x = true)
    (map sanitize_identifier names).
Proof.
  apply Forall_map, Forall_forall. intros x _.
  apply sanitize_identifier_builder.
Qed.

Lemma sanitized_no_mark (names : list string) :
  Forall (fun x => count_char "?" x = 0) (map sanitize_identifier names).
Proof.
  apply Forall_map, Forall_forall. intros x _.
  apply sanitize_identifier_no_mark.
Qed.

Lemma full_table_name_builder (table : string) (schema : option string) :
  str_forall builder_char (full_table_name table schema) = true
  /\ count_char "?" (full_table_name table schema) = 0.
Proof.
  unfold full_table_name.
  destruct schema as [sch|]; [destruct (truthy sch)|];
    rewrite ?str_forall_append, ?count_char_append,
      ?sanitize_identifier_builder, ?sanitize_identifier_no_mark;
    split; reflexivity.
Qed.

(** The [WHERE] part: as many marks as parameters, the parameters
    being the values of [where] in order. *)
Lemma where_clause_marks (where_ : option dict) :
  count_char "?" (fst (where_clause where_)) = length (snd (where_clause where_))
  /\ str_forall builder_char (fst (where_clause where_)) = true
  /\ snd (where_clause where_)
     = match where_ with Some items => map snd items | None => [] end.
Proof.
  unfold where_clause.
  destruct where_ as [[|item items]|]; try (repeat split; reflexivity).
  cbn [fst snd]. split; [|split; [|reflexivity]].
  - rewrite count_char_append.
    rewrite (join_count "?" " AND " _ 1); [|reflexivity|].
    + rewrite !length_map. cbn. lia.
    + apply Forall_map, Forall_forall. intros x _.
      rewrite count_char_append, sanitize_identifier_no_mark. reflexivity.
  - rewrite str_forall_append. apply andb_true_intro.
    split; [reflexivity|].
    apply join_forall; [reflexivity|].
    apply Forall_map, Forall_forall. intros x _.
    rewrite str_forall_append, sanitize_identifier_builder. reflexivity.
Qed.

End Builder.

(** X20.  [build_select] gives a query with exactly one [?] for each
    parameter, the parameters being the values of [where] in order;
    the text is made of identifier characters, spaces and the
    punctuation [, * = ? - ( )] only, so it holds no quote and no
    semicolon whatever the names passed in. *)
Theorem build_select_marks_and_characters
  (table : string) (columns : option (list string)) (where_ : option dict)
  (order_by : option (list string)) (limit : Z) (schema : option string) :
  let (query, params) :=
    build_select table columns where_ order_by limit schema in
  count_char "?" query = length params
  /\ params = match where_ with Some items => map snd items | None => [] end
  /\ str_forall builder_char query = true
  /\ count_char ";" query = 0
  /\ count_char "'" query = 0.
Proof.
  unfold build_select.
  pose proof (where_clause_marks where_) as (Hm & Hb & Hp).
  destruct (where_clause where_) as [clause params]. cbn [fst snd] in *.
  pose proof (full_table_name_builder table schema) as (Htb & Htm).
  assert (Hcols : forall names,
             str_forall builder_char
               (join ", " (map sanitize_identifier names)) = true
             /\ count_char "?" (join ", " (map sanitize_identifier names)) = 0).
  { intros names. split.
    - apply join_forall; [reflexivity | apply sanitized_builder].
    - rewrite (join_count "?" ", " _ 0);
        [reflexivity | reflexivity | apply sanitized_no_mark]. }
  assert (Hall :
            str_forall builder_char
              (((("SELECT "
                  ++ match columns with
                     | Some (c :: cs) =>
                         join ", " (map sanitize_identifier (c :: cs))
                     | _ => "*"
                     end ++ " FROM " ++ full_table_name table schema)
                 ++ clause)
                ++ match order_by with
                   | Some (o :: os) =>
                       " ORDER BY "
                       ++ join ", " (map sanitize_identifier (o :: os))
                   | _ => ""
                   end) ++ " LIMIT " ++ str_of_int limit)%string = true
            /\ count_char "?"
                 (((("SELECT "
                     ++ match columns with
                        | Some (c :: cs) =>
                            join ", " (map sanitize_identifier (c :: cs))
                        | _ => "*"
                        end ++ " FROM " ++ full_table_name table schema)
                    ++ clause)
                   ++ match order_by with
                      | Some (o :: os) =>
                          " ORDER BY "
                          ++ join ", " (map sanitize_identifier (o :: os))
                      | _ => ""
                      end) ++ " LIMIT " ++ str_of_int limit)%string
               = length params).
  { rewrite !str_forall_append, !count_char_append, Hb, Htb, Htm, Hm,
      str_of_int_builder, str_of_int_no_mark.
    destruct columns as [[|c cs]|]; destruct order_by as [[|o os]|];
      rewrite ?str_forall_append, ?count_char_append,
        ?(proj1 (Hcols _)), ?(proj2 (Hcols _));
      split; cbn; try reflexivity; lia. }
  assert (Hquery :
            forall q : string,
              str_forall builder_char q = true ->
              count_char ";" q = 0 /\ count_char "'" q = 0).
  { intros q H. split; apply (count_char_absent builder_char);
      (reflexivity || exact H). }
  destruct order_by as [[|o os]|];
    rewrite ?append_empty_r in Hall; destruct Hall as (Hall & Hcount);
    (split; [exact Hcount|]); (split; [exact Hp|]);
    (split; [exact Hall|]); apply Hquery; exact Hall.
Qed.

(** X21.  [build_count] likewise: one [?] for each parameter, the
    parameters are the values of [where] in order, and the text holds
    no quote and no semicolon. *)
Theorem build_count_marks_and_characters
  (table : string) (where_ : option dict) (schema : option string) :
  let (query, params) := build_count table where_ schema in
  count_char "?" query = length params
  /\ params = match where_ with Some items => map snd items | None => [] end
  /\ str_forall builder_char query = true
  /\ count_char ";" query = 0
  /\ count_char "'" query = 0.
Proof.
  unfold build_count.
  pose proof (where_clause_marks where_) as (Hm & Hb & Hp).
  destruct (where_clause where_) as [clause params]. cbn [fst snd] in *.
  pose proof (full_table_name_builder table schema) as (Htb & Htm).
  assert (Hall :
            str_forall builder_char
              (("SELECT COUNT(*) as row_count FROM "
                ++ full_table_name table schema) ++ clause)%string = true)
    by (rewrite !str_forall_append, Hb, Htb; reflexivity).
  split; [rewrite !count_char_append, Hm, Htm; reflexivity|].
  split; [exact Hp|]. split; [exact Hall|].
  split; apply (count_char_absent builder_char);
    (reflexivity || exact Hall).
Qed.

(** *** What goes to the log *)

Lemma redact_arg_twice (kv : string * pyval) :
  redact_arg (redact_arg kv) = redact_arg kv.
Proof.
  unfold redact_arg. cbn [fst snd].
  destruct (is_sensitive_key (fst kv)); reflexivity.
Qed.

Lemma redact_loop_distinct (arguments acc : dict) :
  NoDup (map fst acc ++ map fst arguments) ->
  fold_left
    (fun acc (kv : string * pyval) =>
       dict_set (fst kv)
         (if is_sensitive_key (fst kv) then VStr "***" else snd kv) acc)
    arguments acc
  = acc ++ map redact_arg arguments.
Proof.
  revert acc.
  induction arguments as [|kv arguments IH]; intros acc H.
  - cbn. rewrite app_nil_r. reflexivity.
  - cbn [fold_left map]. cbn [map fst] in H.
    rewrite dict_set_new.
    + rewrite IH.
      * rewrite <- app_assoc. reflexivity.
      * rewrite map_app. cbn [map fst]. rewrite <- app_assoc. exact H.
    + apply NoDup_remove_2 in H. intros Hin. apply H.
      apply in_or_app. left. exact Hin.
Qed.

Lemma redact_loop_keys (arguments acc : dict) :
  NoDup (map fst acc) -> NoDup (map fst (fold_left
    (fun acc (kv : string * pyval) =>
       dict_set (fst kv)
         (if is_sensitive_key (fst kv) then VStr "***" else snd kv) acc)
    arguments acc)).
Proof.
  revert acc.
  induction arguments as [|kv arguments IH]; intros acc H; [exact H|].
  cbn [fold_left]. apply IH. apply dict_set_keys_nodup. exact H.
Qed.

Lemma redact_loop_settled (arguments acc : dict) :
  Forall (fun kv => redact_arg kv = kv) acc ->
  Forall (fun kv => redact_arg kv = kv)
    (fold_left
    (fun acc (kv : string * pyval) =>
       dict_set (fst kv)
         (if is_sensitive_key (fst kv) then VStr "***" else snd kv) acc)
    arguments acc).
Proof.
  revert acc.
  induction arguments as [|kv arguments IH]; intros acc H; [exact H|].
  cbn [fold_left]. apply IH. apply dict_set_values; [|exact H].
  apply (redact_arg_twice kv).
Qed.

(** X22.  [_sanitize_args] on the arguments of a tool call (a dict:
    distinct names) keeps every name in its place, puts "***" under
    every name that contains one of the sensitive words in any case,
    and leaves the other values alone; sanitising again changes
    nothing. *)
Theorem sanitize_args_redacts (arguments : dict)
  (Hnames : NoDup (map fst arguments)) :
  _sanitize_args arguments = map redact_arg arguments
  /\ map fst (_sanitize_args arguments) = map fst arguments
  /\ (forall k v,
        In (k, v) (_sanitize_args arguments) ->
        is_sensitive_key k = true -> v = VStr "***")
  /\ (forall k v,
        In (k, v) arguments ->
        is_sensitive_key k = false -> In (k, v) (_sanitize_args arguments))
  /\ _sanitize_args (_sanitize_args arguments) = _sanitize_args arguments.
Proof.
  assert (Heq : _sanitize_args arguments = map redact_arg arguments)
    by (apply (redact_loop_distinct arguments []); exact Hnames).
  split; [exact Heq|]. split; [|split; [|split]].
  - rewrite Heq, map_map. reflexivity.
  - intros k v Hin Hk. rewrite Heq in Hin. apply in_map_iff in Hin.
    destruct Hin as ([k' v'] & E & _). unfold redact_arg in E.
    cbn [fst snd] in E. injection E as <- <-. rewrite Hk. reflexivity.
  - intros k v Hin Hk. rewrite Heq. apply in_map_iff.
    exists (k, v). split; [|exact Hin].
    unfold redact_arg. cbn [fst snd]. rewrite Hk. reflexivity.
  - assert (Hkeys : NoDup (map fst (_sanitize_args arguments)))
      by (apply (redact_loop_keys arguments []); constructor).
    assert (Hset : Forall (fun kv => redact_arg kv = kv)
                     (_sanitize_args arguments))
      by (apply (redact_loop_settled arguments []); constructor).
    pose proof (redact_loop_distinct (_sanitize_args arguments) [] Hkeys)
      as Hagain.
    cbn [app] in Hagain.
    unfold _sanitize_args at 1. rewrite Hagain.
    apply map_settled. exact Hset.
Qed.

(* ================================================================== *)
(** ** The adapter: validation, pool and masking together *)

Open Scope Z_scope.

(** X23.  A query that [validate_query] turns down reaches neither the
    pool nor the database: [_execute_query] answers with the error
    message, the manager and the backend are exactly as before, and the
    answer does not depend on what the database would have said. *)
Theorem rejected_query_touches_nothing
  (fetch fetch' : conn -> string -> list pyval -> string + list dict)
  (security : SecurityConfig) (query : string)
  (parameters : option (list pyval)) (max_rows : Z) (w : World)
  (Hrejected : fst (validate_query security query) = false) :
  exists message,
    snd (validate_query security query) = Some message
    /\ _execute_query fetch security query parameters max_rows w
       = Ret (ErrorReply message) w
    /\ _execute_query fetch' security query parameters max_rows w
       = Ret (ErrorReply message) w.
Proof.
  unfold _execute_query, validate_query in *.
  destruct (validate_query_check security query) as [e|];
    [|discriminate Hrejected].
  exists (error_message e). repeat split; reflexivity.
Qed.

(** X24.  [_execute_query] always gives its connection back and never
    waits for ever: whether it returns a reply or [acquire] raises, the
    wrappers held by callers are the same as before; and the only
    exceptions are the factory's and "pool exhausted". *)
Theorem execute_query_gives_connection_back
  (fetch : conn -> string -> list pyval -> string + list dict)
  (security : SecurityConfig) (query : string)
  (parameters : option (list pyval)) (max_rows : Z) (w : World) :
  match _execute_query fetch security query parameters max_rows w with
  | Ret _ w' => checked_out w' = checked_out w
  | Raise e w' =>
      checked_out w' = checked_out w
      /\ (e = ConnectError \/ e = PoolExhausted)
  | Block _ => False
  end.
Proof.
  unfold _execute_query.
  destruct (validate_query security query) as [[] error]; [|reflexivity].
  unfold bind, gets, ret.
  pose proof (acquire_enter_outcomes w) as Henter.
  destruct (acquire_enter w) as [c w1|e w1|w1]; [| |exact Henter].
  - destruct Henter as (p & Hco & _).
    destruct (acquire_exit_outcome w1 (length (checked_out w)) p)
      as (w2 & -> & Hco2 & _).
    + rewrite Hco. apply nth_error_last.
    + rewrite Hco2, Hco. apply remove_nth_last.
  - destruct Henter as (He & Hco). split; assumption.
Qed.

(** X25.  What [connect] does, for a server built from a
    configuration that passed validation and a factory that delivers:
    the pool configuration is always accepted.  When the configured log
    level lets INFO through (the default "INFO", "DEBUG"), the
    [initialize] of the pool raises [TypeError] before any connection
    is made.  Under a higher level: with [pool_size >= 2] the pool
    starts with two idle connections and its health-check task; with
    [pool_size = 1] the start-up never returns, one connection idle and
    a second one open with no place in the queue. *)
Theorem connect_depends_on_pool_size
  (name mode level : string) (timeout size : Z) (file : option string)
  (console read_only audit : bool) (config : ServerConfig) (server : Server)
  (db_timeout : Z) (creates healths : list bool) (now : Z)
  (Hconfig : ServerConfig_init name mode timeout size level file console
               read_only audit = Some config)
  (Hserver : BaseMCPServer_init config = Some server)
  (Hcreates : forallb (fun b => b) (firstn 2 creates) = true) :
  exists r,
    connect server db_timeout creates healths now = Some r
    /\ (root_level server <= 20 ->
        exists w, r = Raise TypeError w
                  /\ idle_count w = 0
                  /\ _active_connections w = 0
                  /\ live_count w = 0
                  /\ _health_check_task w = None)
    /\ (20 < root_level server -> 2 <= pool_size config ->
        exists w', r = Ret tt w'
                   /\ idle_count w' = 2
                   /\ _active_connections w' = 2
                   /\ live_count w' = 2
                   /\ _health_check_task w' = Some TaskRunning)
    /\ (20 < root_level server -> pool_size config = 1 ->
        exists w', r = Block w'
                   /\ idle_count w' = 1
                   /\ _active_connections w' = 1
                   /\ live_count w' = 2
                   /\ _health_check_task w' = None).
Proof.
  unfold ServerConfig_init in Hconfig.
  destruct ((30 <=? timeout) && (timeout <=? 300)
            && (1 <=? size) && (size <=? 50)) eqn:E; [|discriminate Hconfig].
  injection Hconfig as <-.
  apply andb_prop in E as [E E4]. apply andb_prop in E as [_ E3].
  apply Z.leb_le in E3, E4.
  unfold BaseMCPServer_init in Hserver. cbn [log_level] in Hserver.
  destruct (setup_logging level) as [l|]; [|discriminate Hserver].
  injection Hserver as <-.
  unfold connect, connect_pool_config, PoolConfig_init.
  cbn [pool_size server_config root_level].
  replace ((1 <=? 2) && (2 <=? 10) && (1 <=? size) && (size <=? 50))
    with true
    by (symmetry; cbn [andb Z.leb Z.compare Pos.compare Pos.compare_cont];
        apply andb_true_intro; split; apply Z.leb_le; assumption).
  eexists. split; [reflexivity|].
  match goal with
  | |- context [new_manager ?c _ _ _] => set (cfg := c)
  end.
  split; [|split].
  - intros Hl. unfold enabled_for_info.
    replace (l <=? 20) with true by (symmetry; apply Z.leb_le; exact Hl).
    eexists. split.
    + apply initialize_raises_on_info. reflexivity.
    + repeat split; reflexivity.
  - intros Hl Hsize. unfold enabled_for_info.
    replace (l <=? 20) with false by (symmetry; apply Z.leb_gt; exact Hl).
    set (w := set_logging false (new_manager cfg creates healths now)).
    destruct (initialize_loop_returns 2 w Hcreates)
      as (w' & Hrun & Hc & Hp & Ha & Ht & Ho & Hcl & Hco).
    { right. cbn. lia. }
    pose proof (initialize_loop_logging 2 w) as Hlog.
    rewrite Hrun in Hlog. cbn [state_of] in Hlog.
    eexists. split.
    + unfold initialize, logger_info_kwargs, bind, gets, modify.
      change (info_enabled w) with false. cbv iota.
      change (Z.to_nat (min_size (config w))) with 2%nat.
      rewrite Hrun. cbn [info_enabled set_task]. rewrite Hlog.
      change (info_enabled w) with false. reflexivity.
    + unfold idle_count, live_count.
      cbn [set_task _pool _active_connections opened _health_check_task].
      rewrite Hp, Ha, Ho. cbn. repeat split; reflexivity.
  - intros Hl Hsize. unfold enabled_for_info.
    replace (l <=? 20) with false by (symmetry; apply Z.leb_gt; exact Hl).
    set (w := set_logging false (new_manager cfg creates healths now)).
    destruct (initialize_loop_blocks 1 2 w)
      as (w' & Hrun & Hl' & Ha & Ht & Ho & Hcl).
    + lia.
    + exact Hcreates.
    + cbn. lia.
    + cbn. lia.
    + exists w'. split.
      * unfold initialize, logger_info_kwargs, bind, gets.
        change (info_enabled w) with false. cbv iota.
        change (Z.to_nat (min_size (config w))) with 2%nat.
        rewrite Hrun. reflexivity.
      * unfold idle_count, live_count. rewrite Hl', Ha, Ht, Ho.
        cbn. repeat split; try reflexivity; lia.
Qed.

(* ================================================================== *)
(** ** The properties above at sample inputs *)

Lemma initialize_blocks_when_min_exceeds_max_witness :
  initialize (set_logging true (new_manager two_over_one [] [] 0))
  = Raise TypeError (set_logging true (new_manager two_over_one [] [] 0))
  /\ exists w',
       initialize (set_logging false (new_manager two_over_one [] [] 0))
       = Block w'
       /\ idle_count w' = 1
       /\ _active_connections w' = 1
       /\ live_count w' = 2
       /\ _health_check_task w' = None.
Proof.
  split.
  - apply (initialize_blocks_when_min_exceeds_max two_over_one [] [] 0 true);
      [simpl; lia | simpl; lia | reflexivity | reflexivity].
  - apply (initialize_blocks_when_min_exceeds_max two_over_one [] [] 0 false);
      [simpl; lia | simpl; lia | reflexivity | reflexivity].
Defined.

Lemma acquire_exhausted_changes_nothing_witness :
  acquire_enter (run [Initialize; Acquire] one_slot_pool)
  = Raise PoolExhausted (run [Initialize; Acquire] one_slot_pool).
Proof.
  apply (acquire_exhausted_changes_nothing
           (run [Initialize; Acquire] one_slot_pool));
    [left; reflexivity | vm_compute; discriminate].
Defined.

Lemma acquire_recycles_old_connection_witness :
  exists w',
    acquire_enter (run [Initialize; Elapse 4000] one_slot_pool) = Ret 1%nat w'
    /\ map connection (checked_out w') = [1%nat]
    /\ closed w' = [0%nat]
    /\ _active_connections w' = 1.
Proof.
  destruct (acquire_recycles_old_connection
              (run [Initialize; Elapse 4000] one_slot_pool)
              (new_pooled 0%nat 0 0) [])
    as (w' & H1 & H2 & _ & H4 & _ & H6);
    [reflexivity | simpl; lia | simpl; lia | reflexivity | reflexivity|].
  exists w'. rewrite H2, H4, H6. repeat split; try reflexivity.
  exact H1.
Defined.

Lemma failed_recycle_requeues_closed_connection_witness :
  exists w',
    acquire_enter (run [Initialize; Elapse 4000] flaky_pool)
    = Raise ConnectError w'
    /\ map connection (_pool w') = [0%nat]
    /\ closed w' = [0%nat]
    /\ ~ In 0%nat (opened w').
Proof.
  destruct (failed_recycle_requeues_closed_connection
              (run [Initialize; Elapse 4000] flaky_pool)
              (new_pooled 0%nat 0 0) [] [])
    as (w' & H1 & H2 & H3 & H4 & _);
    [reflexivity | simpl; lia | simpl; lia | reflexivity
    | right; simpl; lia |].
  exists w'. rewrite H2, H3. repeat split; try reflexivity; assumption.
Defined.

Lemma acquire_release_rotates_queue_witness :
  exists w1 w2,
    acquire_enter (run [Initialize] one_slot_pool) = Ret 0%nat w1
    /\ acquire_exit 0%nat w1 = Ret tt w2
    /\ map connection (_pool w2) = [0%nat]
    /\ map use_count (_pool w2) = [1]
    /\ closed w2 = [].
Proof.
  destruct (acquire_release_rotates_queue
              (run [Initialize] one_slot_pool) (new_pooled 0%nat 0 0) [])
    as (w1 & w2 & H1 & H2 & H3 & _ & _ & _ & H7);
    [reflexivity | simpl; lia | simpl; lia | reflexivity
    | right; simpl; lia |].
  exists w1, w2. rewrite H3, H7. repeat split; try reflexivity; assumption.
Defined.

Lemma health_check_pass_keeps_healthy_pool_witness :
  exists w',
    health_check_pass (run [Initialize] (new_manager two_to_five [] [] 0))
    = Ret tt w'
    /\ map connection (_pool w') = [0%nat; 1%nat]
    /\ closed w' = [].
Proof.
  destruct (health_check_pass_keeps_healthy_pool
              (run [Initialize] (new_manager two_to_five [] [] 0)))
    as (w' & H1 & H2 & _ & _ & H5 & _);
    [reflexivity | right; simpl; lia |].
  exists w'. rewrite H2, H5. repeat split; try reflexivity. exact H1.
Defined.

Lemma failed_replacement_loses_slot_witness :
  exists w',
    health_check_pass (run [Initialize] flaky_pool) = Ret tt w'
    /\ _pool w' = []
    /\ closed w' = [0%nat]
    /\ _active_connections w' = 1.
Proof.
  destruct (failed_replacement_loses_slot
              (run [Initialize] flaky_pool) (new_pooled 0%nat 0 0) [] [] [])
    as (w' & H1 & H2 & H3 & _ & H5 & _);
    [reflexivity | reflexivity | reflexivity |].
  exists w'. rewrite H2, H3, H5. repeat split; try reflexivity. exact H1.
Defined.

Lemma health_check_pass_keeps_size_witness :
  exists w',
    health_check_pass
      (run [Initialize] (new_manager two_to_five [] [false; true] 0))
    = Ret tt w'
    /\ idle_count w' = 2
    /\ _active_connections w' = 2.
Proof.
  destruct (health_check_pass_keeps_size
              (run [Initialize] (new_manager two_to_five [] [false; true] 0)))
    as (w' & H1 & H2 & H3 & _);
    [reflexivity | right; simpl; lia |].
  exists w'. rewrite H2, H3. repeat split; try reflexivity. exact H1.
Defined.

Lemma acquire_hands_out_young_wrapper_witness :
  exists p,
    checked_out (run [Initialize; Acquire] one_slot_pool) = [] ++ [p]
    /\ connection p = 0%nat.
Proof.
  destruct (acquire_hands_out_young_wrapper
              (run [Initialize] one_slot_pool) 0%nat
              (run [Initialize; Acquire] one_slot_pool))
    as (p & H1 & H2 & _);
    [simpl; lia | reflexivity |].
  exists p. split; assumption.
Defined.

Lemma release_never_loses_wrapper_witness :
  exists w',
    acquire_exit 0%nat (run [Initialize; Acquire] one_slot_pool) = Ret tt w'
    /\ checked_out w' = [].
Proof.
  destruct (release_never_loses_wrapper
              (run [Initialize; Acquire] one_slot_pool) 0%nat
              {| connection := 0%nat; created_at := 0; last_used_at := 0;
                 use_count := 1; is_healthy := true |} eq_refl)
    as (w' & H1 & H2 & _).
  exists w'. split; assumption.
Defined.

Lemma pool_within_max_size_while_running_witness :
  let w := run [Initialize; HealthCheck; Acquire; Release 0%nat] flaky_pool in
  pool_within w
  /\ idle_count w + checked_out_count w <= max_size (config w).
Proof.
  destruct (pool_within_max_size_while_running one_slot [true; false] [false]
              0 false [HealthCheck; Acquire; Release 0%nat])
    as (H1 & H2 & _);
    [simpl; lia | simpl; lia | reflexivity |].
  split; [exact H1 | exact H2].
Defined.

Lemma validate_query_ignores_case_witness :
  validate_query (default_config true) "delete from users"
  = validate_query (default_config true) "DELETE FROM Users".
Proof.
  apply (validate_query_ignores_case (default_config true)
           "delete from users" "DELETE FROM Users").
  reflexivity.
Defined.

Lemma get_query_type_ignores_case_and_margin_witness :
  get_query_type "  select 1 " = get_query_type "SELECT 1".
Proof.
  apply (get_query_type_ignores_case_and_margin "  select 1 " "SELECT 1").
  reflexivity.
Defined.

Lemma sanitize_args_redacts_witness :
  _sanitize_args tool_arguments
  = [("query", VStr "select 1"); ("api_key", VStr "***");
     ("max_rows", VInt 5)].
Proof.
  assert (Hnames : NoDup (map fst tool_arguments)).
  { repeat constructor; simpl; intuition discriminate. }
  destruct (sanitize_args_redacts tool_arguments Hnames) as (H & _).
  rewrite H. reflexivity.
Defined.

Lemma rejected_query_touches_nothing_witness :
  exists message,
    _execute_query no_rows (default_config true) "DROP TABLE users" None 1000
      one_slot_pool
    = Ret (ErrorReply message) one_slot_pool.
Proof.
  destruct (rejected_query_touches_nothing no_rows no_rows
              (default_config true) "DROP TABLE users" None 1000
              one_slot_pool eq_refl)
    as (message & _ & H & _).
  exists message. exact H.
Defined.

Lemma connect_depends_on_pool_size_witness :
  (exists config server r,
      ServerConfig_init "mcp-sql-server" "database" 120 10 "INFO" None true
        true true = Some config
      /\ BaseMCPServer_init config = Some server
      /\ connect server 30 [] [] 0 = Some r
      /\ exists w, r = Raise TypeError w /\ live_count w = 0)
  /\ (exists config server r,
         ServerConfig_init "mcp-sql-server" "database" 120 10 "WARNING" None
           true true true = Some config
         /\ BaseMCPServer_init config = Some server
         /\ connect server 30 [] [] 0 = Some r
         /\ exists w', r = Ret tt w' /\ live_count w' = 2)
  /\ (exists config server r,
         ServerConfig_init "mcp-sql-server" "database" 120 1 "WARNING" None
           true true true = Some config
         /\ BaseMCPServer_init config = Some server
         /\ connect server 30 [] [] 0 = Some r
         /\ exists w', r = Block w' /\ live_count w' = 2).
Proof.
  split; [|split].
  - do 2 eexists.
    destruct (connect_depends_on_pool_size
                "mcp-sql-server" "database" "INFO" 120 10 None true true true
                _ _ 30 [] [] 0 eq_refl eq_refl eq_refl)
      as (r & H1 & H2 & _).
    exists r. split; [reflexivity|]. split; [reflexivity|].
    split; [exact H1|].
    destruct H2 as (w & Hr & _ & _ & Hl & _); [simpl; lia|].
    exists w. split; assumption.
  - do 2 eexists.
    destruct (connect_depends_on_pool_size
                "mcp-sql-server" "database" "WARNING" 120 10 None true true
                true _ _ 30 [] [] 0 eq_refl eq_refl eq_refl)
      as (r & H1 & _ & H3 & _).
    exists r. split; [reflexivity|]. split; [reflexivity|].
    split; [exact H1|].
    destruct H3 as (w' & Hr & _ & _ & Hl & _); [simpl; lia | simpl; lia |].
    exists w'. split; assumption.
  - do 2 eexists.
    destruct (connect_depends_on_pool_size
                "mcp-sql-server" "database" "WARNING" 120 1 None true true
                true _ _ 30 [] [] 0 eq_refl eq_refl eq_refl)
      as (r & H1 & _ & _ & H4).
    exists r. split; [reflexivity|]. split; [reflexivity|].
    split; [exact H1|].
    destruct H4 as (w' & Hr & _ & _ & Hl & _); [simpl; lia | reflexivity |].
    exists w'. split; assumption.
Defined.
